(** * Isometric tile-map sandbox: coordinate transforms, picking,
      terrain generation and the per-tick terrain mutation engine.

    A shallow embedding of [script.js] (the functions are identical in
    [script_option2.js]) and the properties of its specification.

    Modelling conventions.
    - JavaScript numbers that the program only ever uses as small integers
      (grid coordinates, tile heights, pixel anchors of tiles) are [Z]; the
      divisions applied to them ([isoTileWidth / 2], [canvas.width / 2],
      [isoTileHeight / 2]) are exact.
    - Pointer coordinates are arbitrary numbers: the picking code is written
      over an abstract number interface [Number], instantiated with the
      rationals [Q] when a concrete value has to be computed.
    - A JavaScript array is a finite map from indices to values
      ([gmap Z]): reading an absent index gives [undefined], writing any
      index defines it.
    - Reading a property of [undefined] throws; throwing code lives in the
      [result] monad. A read of an absent tile is modelled as throwing at
      the read itself; on a fully populated grid, the only maps the
      properties below consider, every read finds a tile. *)

From Stdlib Require Import ZArith QArith Qround Qabs Qfield Lia Lqa String.
From stdpp Require Import base tactics option list list_numbers gmap.

Local Open Scope Z_scope.

(** ** Game configuration *)

Definition gridSize : Z := 16.
Definition isoTileWidth : Z := 64.
Definition isoTileHeight : Z := 32.
(** Pixel height of one level. *)
Definition heightStep : Z := isoTileHeight / 2.
Definition canvas_width : Z := (gridSize + 1) * isoTileWidth.
Definition canvas_height : Z := (gridSize * isoTileHeight / 2) + 400.

(** ** Tile and object definitions *)

Inductive TileType : Set := GRASS | WATER | STONE | SAND.

(** The [id] field of [TILE_TYPES]. *)
Definition TILE_TYPES_id (t : TileType) : Z :=
  match t with GRASS => 0 | WATER => 1 | STONE => 2 | SAND => 3 end.

#[global] Instance TileType_eq_dec : EqDecision TileType.
Proof. solve_decision. Defined.

Record Tile : Set := mkTile { type : TileType; height : Z }.

#[global] Instance Tile_eq_dec : EqDecision Tile.
Proof. solve_decision. Defined.

(** The keys of [OBJECT_TYPES] and their [effect] strings. *)
Inductive Tool : Set := fountain | excavator | obelisk | tree.
Inductive Effect : Set := raise_water | lower_terrain | raise_terrain | spread_grass.

#[global] Instance Tool_eq_dec : EqDecision Tool.
Proof. solve_decision. Defined.
#[global] Instance Effect_eq_dec : EqDecision Effect.
Proof. solve_decision. Defined.

Definition OBJECT_TYPES_effect (t : Tool) : Effect :=
  match t with
  | fountain => raise_water
  | excavator => lower_terrain
  | obelisk => raise_terrain
  | tree => spread_grass
  end.

(** A coordinate object [{x, y}]. *)
Definition Coords : Set := (Z * Z)%type.

(** An entry of [objects]: [{x, y, type, effect}]. *)
Record PlacedObject : Set := mkObject {
  obj_x : Z;
  obj_y : Z;
  obj_type : Tool;
  obj_effect : Effect
}.

#[global] Instance PlacedObject_eq_dec : EqDecision PlacedObject.
Proof. solve_decision. Defined.

(** An entry of [changes] in [updateMap]: [{x, y, type?, height?}]; an
    absent field is [undefined]. *)
Record Change : Set := mkChange {
  ch_x : Z;
  ch_y : Z;
  ch_type : option TileType;
  ch_height : option Z
}.

#[global] Instance Change_eq_dec : EqDecision Change.
Proof. solve_decision. Defined.

(** ** Thrown errors *)

Inductive result (A : Type) : Type :=
| Ok (a : A)
| TypeError.
Arguments Ok {A} a.
Arguments TypeError {A}.

Definition bind {A B : Type} (r : result A) (k : A → result B) : result B :=
  match r with
  | Ok a => k a
  | TypeError => TypeError
  end.

Notation "'let?' x := r 'in' k" := (bind r (fun x => k))
  (at level 10, x name, r at level 100, k at level 200).

(** A loop over a list whose body may throw. *)
Fixpoint foldM {A S : Type} (body : S → A → result S) (s : S) (l : list A) : result S :=
  match l with
  | [] => Ok s
  | a :: l' => let? s' := body s a in foldM body s' l'
  end.

(** ** The map: an array of rows, each an array of tiles *)

Abbreviation Row := (gmap Z Tile).
Abbreviation Map := (gmap Z (gmap Z Tile)).

(** [map[y][x]] followed by a property access on the tile. *)
Definition getTile (map : Map) (x y : Z) : result Tile :=
  match map !! y with
  | None => TypeError
  | Some row =>
      match row !! x with
      | None => TypeError
      | Some tile => Ok tile
      end
  end.

(** [map[y][x] = tile]. *)
Definition setTile (map : Map) (x y : Z) (tile : Tile) : result Map :=
  match map !! y with
  | None => TypeError
  | Some row => Ok (<[y := <[x := tile]> row]> map)
  end.

(** ** Coordinate conversion *)

Definition getRotatedCoords (rotation : Z) (x y : Z) : Coords :=
  if decide (rotation = 0) then (x, y)
  else if decide (rotation = 1) then (gridSize - 1 - y, x)
  else if decide (rotation = 2) then (gridSize - 1 - x, gridSize - 1 - y)
  else if decide (rotation = 3) then (y, gridSize - 1 - x)
  else (x, y).

Definition getInverseRotatedCoords (rotation : Z) (x y : Z) : Coords :=
  if decide (rotation = 0) then (x, y)
  else if decide (rotation = 1) then (y, gridSize - 1 - x)
  else if decide (rotation = 2) then (gridSize - 1 - x, gridSize - 1 - y)
  else if decide (rotation = 3) then (gridSize - 1 - y, x)
  else (x, y).

Definition isoToScreen (x y : Z) : Z * Z :=
  let screenX := (x - y) * (isoTileWidth / 2) + (canvas_width / 2) - (isoTileWidth / 2) in
  let screenY := (x + y) * (isoTileHeight / 2) in
  (screenX, screenY).

Definition inGrid (x y : Z) : Prop :=
  0 ≤ x < gridSize ∧ 0 ≤ y < gridSize.

(** ** Numbers of pointer coordinates

    [mouseX] and [mouseY] come from the pointer event; the picking code uses
    them with subtraction, addition, division, [Math.abs] and comparisons.
    The interface keeps exactly those operations. *)

Class Number (num : Type) : Type := {
  num_of_Z : Z → num;
  num_add : num → num → num;
  num_sub : num → num → num;
  num_div : num → num → num;
  num_abs : num → num;
  num_leb : num → num → bool;
  num_ltb : num → num → bool
}.

(** The exact rationals. They compute what the double-precision numbers of
    the script compute wherever the script's operations are exact, as they
    are at integer pointer coordinates; the properties of picking that use
    this instance are stated for such pointers, the others for any
    [Number]. *)
#[global] Instance Q_Number : Number Q := {
  num_of_Z := inject_Z;
  num_add := Qplus;
  num_sub := Qminus;
  num_div := Qdiv;
  num_abs := Qabs;
  num_leb := Qle_bool;
  num_ltb := fun a b => negb (Qle_bool b a)
}.

Section Picking.
Context {num : Type} `{Number num}.
Variable rotation : Z.
Variable map : Map.

(** The coarse test: the pointer is within the general area of the tile. *)
Definition inTileArea (mouseX adjustedMouseY : num) (screenPos : Z * Z) (tileY : Z) : bool :=
  num_leb (num_of_Z screenPos.1) mouseX &&
  num_leb mouseX (num_of_Z (screenPos.1 + isoTileWidth)) &&
  num_leb (num_of_Z (tileY - isoTileHeight)) adjustedMouseY &&
  num_leb adjustedMouseY (num_of_Z (tileY + isoTileHeight)).

(** The precise diamond test. *)
Definition inDiamond (mouseX adjustedMouseY : num) (screenPos : Z * Z) (tileY : Z) : bool :=
  let dx := num_sub mouseX (num_of_Z (screenPos.1 + isoTileWidth / 2)) in
  let dy := num_sub adjustedMouseY (num_of_Z tileY) in
  let transformedX :=
    num_add (num_div dx (num_of_Z (isoTileWidth / 2))) (num_div dy (num_of_Z (isoTileHeight / 2))) in
  let transformedY :=
    num_sub (num_div dy (num_of_Z (isoTileHeight / 2))) (num_div dx (num_of_Z (isoTileWidth / 2))) in
  num_ltb (num_abs transformedX) (num_of_Z 1) && num_ltb (num_abs transformedY) (num_of_Z 1).

(** The body of the inner loop at screen grid position [(x, y)]:
    [Some mapCoords] when the function returns there. *)
Definition pickCell (mouseX adjustedMouseY : num) (x y : Z) : result (option Coords) :=
  let mapCoords := getRotatedCoords rotation x y in
  let? tile := getTile map mapCoords.1 mapCoords.2 in
  let screenPos := isoToScreen x y in
  let tileY := screenPos.2 - height tile * heightStep in
  if inTileArea mouseX adjustedMouseY screenPos tileY then
    if inDiamond mouseX adjustedMouseY screenPos tileY then Ok (Some mapCoords)
    else Ok None
  else Ok None.

(** [for (let x = 0; x < gridSize; x++)], left at the first [return]. *)
Fixpoint pickInRow (mouseX adjustedMouseY : num) (y : Z) (xs : list Z) : result (option Coords) :=
  match xs with
  | [] => Ok None
  | x :: xs' =>
      let? r := pickCell mouseX adjustedMouseY x y in
      match r with
      | Some mapCoords => Ok (Some mapCoords)
      | None => pickInRow mouseX adjustedMouseY y xs'
      end
  end.

(** [for (let y = 0; y < gridSize; y++)], left at the first [return]. *)
Fixpoint pickInRows (mouseX adjustedMouseY : num) (ys : list Z) : result (option Coords) :=
  match ys with
  | [] => Ok None
  | y :: ys' =>
      let? r := pickInRow mouseX adjustedMouseY y (seqZ 0 gridSize) in
      match r with
      | Some mapCoords => Ok (Some mapCoords)
      | None => pickInRows mouseX adjustedMouseY ys'
      end
  end.

(** [None] is [null]. *)
Definition screenToIso (mouseX mouseY : num) : result (option Coords) :=
  let adjustedMouseY := num_sub mouseY (num_of_Z 100) in
  pickInRows mouseX adjustedMouseY (seqZ 0 gridSize).
End Picking.

(** ** Game logic *)

Section Generation.
(** [random k] is the value of the [k]-th call of [Math.random()]. *)
Variable random : nat → Q.

(** The inner loop body; the state is the map and the number of calls of
    [Math.random()] made so far. *)
Definition fillCell (y : Z) (s : Map * nat) (x : Z) : result (Map * nat) :=
  let height := Qfloor (random s.2 * 2) + 1 in
  let? map := setTile s.1 x y (mkTile GRASS height) in
  Ok (map, S s.2).

Definition fillRow (s : Map * nat) (y : Z) : result (Map * nat) :=
  let map := <[y := ∅]> s.1 in
  foldM (fillCell y) (map, s.2) (seqZ 0 gridSize).

Definition carveCell (lakeX lakeY i : Z) (map : Map) (j : Z) : result Map :=
  if Z.abs i + Z.abs j <? 3 then
    match map !! (lakeY + i) with
    | None => Ok map
    | Some row =>
        match row !! (lakeX + j) with
        | None => Ok map
        | Some _ => setTile map (lakeX + j) (lakeY + i) (mkTile WATER 0)
        end
    end
  else Ok map.

Definition carveRow (lakeX lakeY : Z) (map : Map) (i : Z) : result Map :=
  foldM (carveCell lakeX lakeY i) map (seqZ (-2) 5).

Definition generateMap : result Map :=
  let? s := foldM fillRow (∅, O) (seqZ 0 gridSize) in
  let lakeY := gridSize / 2 in
  let lakeX := gridSize / 2 in
  foldM (carveRow lakeX lakeY) s.1 (seqZ (-2) 5).
End Generation.

Definition getNeighbors (x y : Z) : list Coords :=
  let directions := [(-1, 0); (1, 0); (0, -1); (0, 1)] in
  foldl (fun neighbors (dir : Z * Z) =>
           let newX := x + dir.1 in
           let newY := y + dir.2 in
           if (newX >=? 0) && (newX <? gridSize) && (newY >=? 0) && (newY <? gridSize)
           then neighbors ++ [(newX, newY)]
           else neighbors)
        [] directions.

(** The four [if] statements run for one neighbor [n] of [obj]. *)
Definition neighborChanges (obj : PlacedObject) (tile neighborTile : Tile) (n : Coords)
    (changes : list Change) : list Change :=
  let changes :=
    if bool_decide (obj_effect obj = raise_terrain) && (height neighborTile <? height tile + 2)
    then changes ++ [mkChange n.1 n.2 None (Some (height neighborTile + 1))]
    else changes in
  let changes :=
    if bool_decide (obj_effect obj = lower_terrain) && (height neighborTile >? 0)
    then changes ++ [mkChange n.1 n.2 None (Some (height neighborTile - 1))]
    else changes in
  let changes :=
    if bool_decide (obj_effect obj = raise_water) && bool_decide (type neighborTile ≠ WATER)
    then changes ++ [mkChange n.1 n.2 (Some WATER) (Some (height tile))]
    else changes in
  let changes :=
    if bool_decide (obj_effect obj = spread_grass) && bool_decide (type neighborTile ≠ GRASS)
    then changes ++ [mkChange n.1 n.2 (Some GRASS) None]
    else changes in
  changes.

(** The body of [objects.forEach]: reads [map], pushes to [changes]. *)
Definition objectChanges (map : Map) (changes : list Change) (obj : PlacedObject)
    : result (list Change) :=
  let? tile := getTile map (obj_x obj) (obj_y obj) in
  foldM (fun changes (n : Coords) =>
           let? neighborTile := getTile map n.1 n.2 in
           Ok (neighborChanges obj tile neighborTile n changes))
        changes (getNeighbors (obj_x obj) (obj_y obj)).

Definition collectChanges (map : Map) (objects : list PlacedObject) : result (list Change) :=
  foldM (objectChanges map) [] objects.

(** The body of [changes.forEach]: writes the defined fields of [c]. *)
Definition applyChange (map : Map) (c : Change) : result Map :=
  let? map :=
    match ch_height c with
    | Some h =>
        let? tile := getTile map (ch_x c) (ch_y c) in
        setTile map (ch_x c) (ch_y c) (mkTile (type tile) h)
    | None => Ok map
    end in
  match ch_type c with
  | Some t =>
      let? tile := getTile map (ch_x c) (ch_y c) in
      setTile map (ch_x c) (ch_y c) (mkTile t (height tile))
  | None => Ok map
  end.

Definition applyChanges (map : Map) (changes : list Change) : result Map :=
  foldM applyChange map changes.

Definition updateMap (objects : list PlacedObject) (map : Map) : result Map :=
  let? changes := collectChanges map objects in
  applyChanges map changes.

(** [n] successive ticks. *)
Fixpoint ticks (n : nat) (objects : list PlacedObject) (map : Map) : result Map :=
  match n with
  | O => Ok map
  | S n' => let? map' := updateMap objects map in ticks n' objects map'
  end.

(** ** Event handlers *)

Definition NoToolSelected : string := "Select a tool first!".
Definition AlreadyOccupied : string := "There's already an object here!".

(** [handleCanvasClick] reads [selectedTool] and [hoveredTile]; it returns
    the new [objects] and the message shown, if any. *)
Definition handleCanvasClick (selectedTool : option Tool) (hoveredTile : option Coords)
    (objects : list PlacedObject) : list PlacedObject * option string :=
  match selectedTool with
  | None => (objects, Some NoToolSelected)
  | Some tool =>
      match hoveredTile with
      | Some (x, y) =>
          let existingObject :=
            List.find (fun obj => bool_decide (obj_x obj = x) && bool_decide (obj_y obj = y)) objects in
          match existingObject with
          | Some _ => (objects, Some AlreadyOccupied)
          | None => (objects ++ [mkObject x y tool (OBJECT_TYPES_effect tool)], None)
          end
      | None => (objects, None)
      end
  end.

(** The rotate buttons; [%] is the remainder that takes the sign of the
    dividend. *)
Definition rotateLeft (rotation : Z) : Z := (rotation - 1 + 4) `rem` 4.
Definition rotateRight (rotation : Z) : Z := (rotation + 1) `rem` 4.

(** ** Rendering

    The 2D context is write-only for the program: a call log stands for it.
    Every coordinate passed to it is an integer combination of tile anchors,
    heights and the (even) tile dimensions. *)

Inductive Command : Type :=
| ctx_clearRect (x y w h : Z)
| ctx_save
| ctx_restore
| ctx_translate (x y : Z)
| ctx_fillStyle (style : string)
| ctx_strokeStyle (style : string)
| ctx_lineWidth (width : Z)
| ctx_globalAlpha (alpha : Q)
| ctx_beginPath
| ctx_moveTo (x y : Z)
| ctx_lineTo (x y : Z)
| ctx_closePath
| ctx_fill
| ctx_stroke
| ctx_font (font : string)
| ctx_textAlign (align : string)
| ctx_textBaseline (baseline : string)
| ctx_fillText (text : string) (x y : Z).

(** The [top] and [side] fields of [TILE_TYPES] and the [symbol] field of
    [OBJECT_TYPES]. *)
Definition TILE_TYPES_top (t : TileType) : string :=
  match t with
  | GRASS => "#68d391" | WATER => "#4299e1" | STONE => "#a0aec0" | SAND => "#f6e05e"
  end.

Definition TILE_TYPES_side (t : TileType) : string :=
  match t with
  | GRASS => "#48bb78" | WATER => "#3182ce" | STONE => "#718096" | SAND => "#ecc94b"
  end.

Definition OBJECT_TYPES_symbol (t : Tool) : string :=
  match t with
  | fountain => "?" | excavator => "??" | obelisk => "??" | tree => "??"
  end.

(** [map[y][x]] with no property access on the value read: [None] is
    [undefined]. *)
Definition readCell (map : Map) (x y : Z) : result (option Tile) :=
  match map !! y with
  | None => TypeError
  | Some row => Ok (row !! x)
  end.

(** [fillStyle], [beginPath], [moveTo], three [lineTo], [closePath], [fill]. *)
Definition fillQuad (style : string) (p0 p1 p2 p3 : Z * Z) : list Command :=
  [ctx_fillStyle style; ctx_beginPath; ctx_moveTo p0.1 p0.2; ctx_lineTo p1.1 p1.2;
   ctx_lineTo p2.1 p2.2; ctx_lineTo p3.1 p3.2; ctx_closePath; ctx_fill].

Definition topFace (tile : Tile) (screenPos : Z * Z) (tileY : Z) : list Command :=
  fillQuad (TILE_TYPES_top (type tile))
    (screenPos.1, tileY)
    (screenPos.1 + isoTileWidth / 2, tileY + isoTileHeight / 2)
    (screenPos.1 + isoTileWidth, tileY)
    (screenPos.1 + isoTileWidth / 2, tileY - isoTileHeight / 2).

(** The wall along the screen's X axis (to the left of the front corner). *)
Definition wallX (tile : Tile) (screenPos : Z * Z) (tileY diff : Z) : list Command :=
  fillQuad (TILE_TYPES_side (type tile))
    (screenPos.1, tileY)
    (screenPos.1, tileY + diff * heightStep)
    (screenPos.1 + isoTileWidth / 2, tileY + isoTileHeight / 2 + diff * heightStep)
    (screenPos.1 + isoTileWidth / 2, tileY + isoTileHeight / 2).

(** The wall along the screen's Y axis (to the right of the front corner). *)
Definition wallY (tile : Tile) (screenPos : Z * Z) (tileY diff : Z) : list Command :=
  fillQuad (TILE_TYPES_side (type tile))
    (screenPos.1 + isoTileWidth, tileY)
    (screenPos.1 + isoTileWidth, tileY + diff * heightStep)
    (screenPos.1 + isoTileWidth / 2, tileY + isoTileHeight / 2 + diff * heightStep)
    (screenPos.1 + isoTileWidth / 2, tileY + isoTileHeight / 2).

(** [drawTile] of [script.js]. A neighbor that is [null] (at the edge) or
    [undefined] is falsy: both are [None]. *)
Definition drawTile (rotation : Z) (map : Map) (x y : Z) : result (list Command) :=
  let rotated := getRotatedCoords rotation x y in
  let? tile := getTile map rotated.1 rotated.2 in
  let screenPos := isoToScreen x y in
  let tileY := screenPos.2 - height tile * heightStep in
  let? rightNeighbor :=
    if x <? gridSize - 1
    then readCell map (getRotatedCoords rotation (x + 1) y).1
                      (getRotatedCoords rotation (x + 1) y).2
    else Ok None in
  let? bottomNeighbor :=
    if y <? gridSize - 1
    then readCell map (getRotatedCoords rotation x (y + 1)).1
                      (getRotatedCoords rotation x (y + 1)).2
    else Ok None in
  let heightDiffX :=
    match rightNeighbor with
    | Some neighbor => height tile - height neighbor
    | None => height tile
    end in
  let heightDiffY :=
    match bottomNeighbor with
    | Some neighbor => height tile - height neighbor
    | None => height tile
    end in
  Ok ((if heightDiffX >? 0 then wallX tile screenPos tileY heightDiffX else []) ++
      (if heightDiffY >? 0 then wallY tile screenPos tileY heightDiffY else []) ++
      topFace tile screenPos tileY).

(** Two nested loops over the screen grid, each cell appending to the log. *)
Definition forCells (body : Z → Z → result (list Command)) : result (list Command) :=
  foldM (fun log y =>
           foldM (fun log x => let? commands := body x y in Ok (log ++ commands))
                 log (seqZ 0 gridSize))
        [] (seqZ 0 gridSize).

(** The highlight of the hovered tile at screen grid position [(x, y)], if
    that is where the tile is shown. *)
Definition highlightCell (rotation : Z) (map : Map) (hoveredTile : Coords) (x y : Z)
    : result (option (list Command)) :=
  let rotated := getRotatedCoords rotation x y in
  if bool_decide (rotated.1 = hoveredTile.1) && bool_decide (rotated.2 = hoveredTile.2) then
    let? tile := getTile map hoveredTile.1 hoveredTile.2 in
    let screenPos := isoToScreen x y in
    let tileY := screenPos.2 - height tile * heightStep in
    Ok (Some [ctx_strokeStyle "#f6e05e"; ctx_lineWidth 3; ctx_globalAlpha (9 # 10);
              ctx_beginPath;
              ctx_moveTo screenPos.1 tileY;
              ctx_lineTo (screenPos.1 + isoTileWidth / 2) (tileY + isoTileHeight / 2);
              ctx_lineTo (screenPos.1 + isoTileWidth) tileY;
              ctx_lineTo (screenPos.1 + isoTileWidth / 2) (tileY - isoTileHeight / 2);
              ctx_closePath; ctx_stroke; ctx_globalAlpha 1])
  else Ok None.

(** The inner loop of the highlight, left by [break] at the first match. *)
Fixpoint highlightRow (rotation : Z) (map : Map) (hoveredTile : Coords) (y : Z)
    (xs : list Z) : result (list Command) :=
  match xs with
  | [] => Ok []
  | x :: xs' =>
      let? r := highlightCell rotation map hoveredTile x y in
      match r with
      | Some commands => Ok commands
      | None => highlightRow rotation map hoveredTile y xs'
      end
  end.

Definition drawHighlight (rotation : Z) (map : Map) (hoveredTile : option Coords)
    : result (list Command) :=
  match hoveredTile with
  | Some hovered =>
      foldM (fun log y =>
               let? commands := highlightRow rotation map hovered y (seqZ 0 gridSize) in
               Ok (log ++ commands))
            [] (seqZ 0 gridSize)
  | None => Ok []
  end.

(** The glyph of the object shown at screen grid position [(x, y)], if any. *)
Definition drawObject (rotation : Z) (map : Map) (objects : list PlacedObject) (x y : Z)
    : result (list Command) :=
  let rotated := getRotatedCoords rotation x y in
  match List.find (fun o => bool_decide (obj_x o = rotated.1) && bool_decide (obj_y o = rotated.2))
                  objects with
  | Some obj =>
      let? tile := getTile map rotated.1 rotated.2 in
      let screenPos := isoToScreen x y in
      let objY := screenPos.2 - height tile * heightStep in
      Ok [ctx_fillText (OBJECT_TYPES_symbol (obj_type obj))
                       (screenPos.1 + isoTileWidth / 2) objY]
  | None => Ok []
  end.

Definition draw (rotation : Z) (map : Map) (objects : list PlacedObject)
    (hoveredTile : option Coords) : result (list Command) :=
  let? tiles := forCells (drawTile rotation map) in
  let? highlight := drawHighlight rotation map hoveredTile in
  let? glyphs := forCells (drawObject rotation map objects) in
  Ok ([ctx_clearRect 0 0 canvas_width canvas_height; ctx_save; ctx_translate 0 100] ++
      tiles ++ highlight ++
      [ctx_font "28.8px sans-serif"; ctx_textAlign "center"; ctx_textBaseline "bottom"] ++
      glyphs ++ [ctx_restore]).

(** ** The variant of [script_option2.js] *)

Module Option2.

(** A field of the object returned by [get_map_neighbors]: [null], or the
    value read from the map, [undefined] when the map holds nothing there. *)
Inductive Slot : Set :=
| null
| value (cell : option Tile).

Record MapNeighbors : Set := mkNeighbors {
  north : Slot;
  south : Slot;
  east : Slot;
  west : Slot
}.

Definition get_map_neighbors (map : Map) (mapX mapY : Z) : result MapNeighbors :=
  let? north :=
    if mapY >? 0 then let? cell := readCell map mapX (mapY - 1) in Ok (value cell)
    else Ok null in
  let? south :=
    if mapY <? gridSize - 1 then let? cell := readCell map mapX (mapY + 1) in Ok (value cell)
    else Ok null in
  let? east :=
    if mapX <? gridSize - 1 then let? cell := readCell map (mapX + 1) mapY in Ok (value cell)
    else Ok null in
  let? west :=
    if mapX >? 0 then let? cell := readCell map (mapX - 1) mapY in Ok (value cell)
    else Ok null in
  Ok (mkNeighbors north south east west).

(** The tiles held by the fields, in the order west, east, north, south. *)
Definition tilesOf (neighbors : MapNeighbors) : list Tile :=
  flat_map (fun slot => match slot with value (Some tile) => [tile] | _ => [] end)
           [west neighbors; east neighbors; north neighbors; south neighbors].

Definition drawRightSide (screenPos : Z * Z) (tileY diff : Z) (tile : Tile) : list Command :=
  fillQuad (TILE_TYPES_side (type tile))
    (screenPos.1 + isoTileWidth, tileY)
    (screenPos.1 + isoTileWidth, tileY + diff * heightStep)
    (screenPos.1 + isoTileWidth / 2, tileY + isoTileHeight / 2 + diff * heightStep)
    (screenPos.1 + isoTileWidth / 2, tileY + isoTileHeight / 2).

Definition drawBottomSide (screenPos : Z * Z) (tileY diff : Z) (tile : Tile) : list Command :=
  fillQuad (TILE_TYPES_side (type tile))
    (screenPos.1, tileY)
    (screenPos.1, tileY + diff * heightStep)
    (screenPos.1 + isoTileWidth / 2, tileY + isoTileHeight / 2 + diff * heightStep)
    (screenPos.1 + isoTileWidth / 2, tileY + isoTileHeight / 2).

Definition drawTopSide (screenPos : Z * Z) (tileY diff : Z) (tile : Tile) : list Command :=
  fillQuad (TILE_TYPES_side (type tile))
    (screenPos.1 + isoTileWidth, tileY)
    (screenPos.1 + isoTileWidth, tileY - diff * heightStep)
    (screenPos.1 + isoTileWidth / 2, tileY - isoTileHeight / 2 - diff * heightStep)
    (screenPos.1 + isoTileWidth / 2, tileY - isoTileHeight / 2).

Definition drawLeftSide (screenPos : Z * Z) (tileY diff : Z) (tile : Tile) : list Command :=
  fillQuad (TILE_TYPES_side (type tile))
    (screenPos.1, tileY)
    (screenPos.1, tileY - diff * heightStep)
    (screenPos.1 + isoTileWidth / 2, tileY - isoTileHeight / 2 - diff * heightStep)
    (screenPos.1 + isoTileWidth / 2, tileY - isoTileHeight / 2).

Definition drawTile (rotation : Z) (map : Map) (x y : Z) : result (list Command) :=
  let rotated := getRotatedCoords rotation x y in
  let? tile := getTile map rotated.1 rotated.2 in
  let screenPos := isoToScreen x y in
  let tileY := screenPos.2 - height tile * heightStep in
  let? neighbors := get_map_neighbors map rotated.1 rotated.2 in
  let? neighborHeightX :=
    if x <? gridSize - 1
    then let? neighbor := getTile map (getRotatedCoords rotation (x + 1) y).1
                                      (getRotatedCoords rotation (x + 1) y).2 in
         Ok (height neighbor)
    else Ok 0 in
  let? neighborHeightY :=
    if y <? gridSize - 1
    then let? neighbor := getTile map (getRotatedCoords rotation x (y + 1)).1
                                      (getRotatedCoords rotation x (y + 1)).2 in
         Ok (height neighbor)
    else Ok 0 in
  let wallHeightX := height tile - neighborHeightX in
  let wallHeightY := height tile - neighborHeightY in
  let walls :=
    if decide (rotation = 0) then
      (if wallHeightY >? 0 then drawRightSide screenPos tileY wallHeightY tile else []) ++
      (if wallHeightX >? 0 then drawBottomSide screenPos tileY wallHeightX tile else [])
    else if decide (rotation = 1) then
      (if wallHeightX >? 0 then drawLeftSide screenPos tileY wallHeightX tile else []) ++
      (if wallHeightY >? 0 then drawBottomSide screenPos tileY wallHeightY tile else [])
    else if decide (rotation = 2) then
      (if wallHeightY >? 0 then drawLeftSide screenPos tileY wallHeightY tile else []) ++
      (if wallHeightX >? 0 then drawTopSide screenPos tileY wallHeightX tile else [])
    else if decide (rotation = 3) then
      (if wallHeightX >? 0 then drawRightSide screenPos tileY wallHeightX tile else []) ++
      (if wallHeightY >? 0 then drawTopSide screenPos tileY wallHeightY tile else [])
    else [] in
  Ok (walls ++ topFace tile screenPos tileY).

End Option2.

(** ** The game as a whole *)

Definition updateInterval : Q := 500.

(** The global variables. *)
Record Game : Type := mkGame {
  game_map : Map;
  game_objects : list PlacedObject;
  game_selectedTool : option Tool;
  game_hoveredTile : option Coords;
  game_lastUpdateTime : Q;
  game_rotation : Z
}.

(** The values of [button.dataset.tool]: the keys of [OBJECT_TYPES]. *)
Definition tool_name (tool : Tool) : string :=
  match tool with
  | fountain => "fountain" | excavator => "excavator" | obelisk => "obelisk" | tree => "tree"
  end.

(** [toUpperCase] on one character of the ASCII range. *)
Definition toUpperCase (c : Ascii.ascii) : Ascii.ascii :=
  let n := Ascii.nat_of_ascii c in
  if (97 <=? n)%nat && (n <=? 122)%nat then Ascii.ascii_of_nat (n - 32) else c.

(** [s.charAt(0).toUpperCase() + s.slice(1)]. *)
Definition capitalize (s : string) : string :=
  match s with
  | EmptyString => EmptyString
  | String c rest => String (toUpperCase c) rest
  end.

(** [handleToolSelect]: the new [selectedTool] and the message shown. *)
Definition handleToolSelect (tool : Tool) (selectedTool : option Tool)
    : option Tool * option string :=
  if bool_decide (selectedTool = Some tool) then (None, None)
  else (Some tool, Some (capitalize (tool_name tool) ++ " selected!")%string).

Definition handleCanvasMouseMove (rotation : Z) (map : Map)
    (clientX clientY rectLeft rectTop : Q) : result (option Coords) :=
  let mouseX := (clientX - rectLeft)%Q in
  let mouseY := (clientY - rectTop)%Q in
  screenToIso rotation map mouseX mouseY.

Definition resetGame (random : nat → Q) (g : Game) : result Game :=
  let? map := generateMap random in
  Ok (mkGame map [] None None (game_lastUpdateTime g) (game_rotation g)).

(** [gameLoop]: the game after the frame and what the frame draws. *)
Definition gameLoop (timestamp : Q) (g : Game) : result (Game * list Command) :=
  let? g' :=
    if negb (Qle_bool (timestamp - game_lastUpdateTime g) updateInterval) then
      let? map := updateMap (game_objects g) (game_map g) in
      Ok (mkGame map (game_objects g) (game_selectedTool g) (game_hoveredTile g)
                 timestamp (game_rotation g))
    else Ok g in
  let? log := draw (game_rotation g') (game_map g') (game_objects g') (game_hoveredTile g') in
  Ok (g', log).

(** What the browser can deliver. A reset comes with the values that
    [Math.random()] returns during it. *)
Inductive Event : Type :=
| mousemove (clientX clientY rectLeft rectTop : Q)
| mouseleave
| click
| toolClick (tool : Tool)
| resetClick (random : nat → Q)
| rotateLeftClick
| rotateRightClick
| animationFrame (timestamp : Q).

Definition handleEvent (g : Game) (e : Event) : result Game :=
  match e with
  | mousemove clientX clientY rectLeft rectTop =>
      let? hoveredTile :=
        handleCanvasMouseMove (game_rotation g) (game_map g) clientX clientY rectLeft rectTop in
      Ok (mkGame (game_map g) (game_objects g) (game_selectedTool g) hoveredTile
                 (game_lastUpdateTime g) (game_rotation g))
  | mouseleave =>
      Ok (mkGame (game_map g) (game_objects g) (game_selectedTool g) None
                 (game_lastUpdateTime g) (game_rotation g))
  | click =>
      Ok (mkGame (game_map g)
                 (handleCanvasClick (game_selectedTool g) (game_hoveredTile g) (game_objects g)).1
                 (game_selectedTool g) (game_hoveredTile g)
                 (game_lastUpdateTime g) (game_rotation g))
  | toolClick tool =>
      Ok (mkGame (game_map g) (game_objects g)
                 (handleToolSelect tool (game_selectedTool g)).1 (game_hoveredTile g)
                 (game_lastUpdateTime g) (game_rotation g))
  | resetClick random => resetGame random g
  | rotateLeftClick =>
      Ok (mkGame (game_map g) (game_objects g) (game_selectedTool g) (game_hoveredTile g)
                 (game_lastUpdateTime g) (rotateLeft (game_rotation g)))
  | rotateRightClick =>
      Ok (mkGame (game_map g) (game_objects g) (game_selectedTool g) (game_hoveredTile g)
                 (game_lastUpdateTime g) (rotateRight (game_rotation g)))
  | animationFrame timestamp =>
      let? r := gameLoop timestamp g in Ok r.1
  end.

(** The script's own start: the initial values of the globals, then
    [resetGame()]. *)
Definition startGame (random : nat → Q) : result Game :=
  resetGame random (mkGame ∅ [] None None 0 0).

(** ** Specification-level vocabulary

    Pure counterparts used to state and prove the properties below. *)

(** The grid is fully populated. *)
Definition populated (map : Map) : Prop :=
  ∀ x y, inGrid x y → ∃ tile, getTile map x y = Ok tile.

Definition populatedb (map : Map) : bool :=
  forallb (fun y => forallb (fun x => match getTile map x y with Ok _ => true | TypeError => false end)
                            (seqZ 0 gridSize))
          (seqZ 0 gridSize).

(** Every tile of the grid has a non-negative height. *)
Definition nonNegative (map : Map) : Prop :=
  ∀ x y tile, inGrid x y → getTile map x y = Ok tile → 0 ≤ height tile.

Definition nonNegativeb (map : Map) : bool :=
  forallb (fun y => forallb (fun x => match getTile map x y with
                                      | Ok tile => 0 <=? height tile
                                      | TypeError => true
                                      end)
                            (seqZ 0 gridSize))
          (seqZ 0 gridSize).

Definition onGrid (obj : PlacedObject) : Prop := inGrid (obj_x obj) (obj_y obj).

(** [(x, y)] and [(x', y')] are 4-connected neighbors. *)
Definition adjacent (x y x' y' : Z) : Prop := Z.abs (x' - x) + Z.abs (y' - y) = 1.

Definition targets (c : Change) (x y : Z) : Prop := ch_x c = x ∧ ch_y c = y.

(** The tile read by a total accessor (the default is never used on a
    populated grid). *)
Definition tileAt (map : Map) (x y : Z) : Tile :=
  match getTile map x y with
  | Ok tile => tile
  | TypeError => mkTile GRASS 0
  end.

(** The deltas one object contributes, as a function of the map read. *)
Definition deltasOf (map : Map) (obj : PlacedObject) : list Change :=
  flat_map (fun n : Coords =>
              neighborChanges obj (tileAt map (obj_x obj) (obj_y obj)) (tileAt map n.1 n.2) n [])
           (getNeighbors (obj_x obj) (obj_y obj)).

(** The effect of one delta on the tile at [(x, y)]. *)
Definition changeTile (x y : Z) (tile : Tile) (c : Change) : Tile :=
  if bool_decide (targets c x y)
  then mkTile (default (type tile) (ch_type c)) (default (height tile) (ch_height c))
  else tile.

(** What one direction contributes to [getNeighbors]. *)
Definition candidate (newX newY : Z) : list Coords :=
  if (newX >=? 0) && (newX <? gridSize) && (newY >=? 0) && (newY <? gridSize)
  then [(newX, newY)] else [].

(** The reading of "the last delta targeting a cell determines its value
    after the tick" in which the last delta alone, applied to the tile before
    the tick, gives the tile after the tick. *)
Definition lastDeltaDetermines (objects : list PlacedObject) (map : Map) : Prop :=
  ∀ changes map' before c after x y tile,
    collectChanges map objects = Ok changes →
    updateMap objects map = Ok map' →
    changes = before ++ c :: after →
    targets c x y →
    (∀ c', c' ∈ after → ¬ targets c' x y) →
    getTile map x y = Ok tile →
    getTile map' x y = Ok (changeTile x y tile c).

(** Some object sits on [(x, y)]. *)
Definition occupied (x y : Z) (objects : list PlacedObject) : Prop :=
  ∃ obj, obj ∈ objects ∧ obj_x obj = x ∧ obj_y obj = y.

(** No two objects share a cell. *)
Definition distinctCells (objects : list PlacedObject) : Prop :=
  NoDup ((fun obj => (obj_x obj, obj_y obj)) <$> objects).

(** A sequence of clicks, each with its [selectedTool] and [hoveredTile]. *)
Definition clickAll (clicks : list (option Tool * option Coords))
    (objects : list PlacedObject) : list PlacedObject :=
  foldl (fun objects click => (handleCanvasClick click.1 click.2 objects).1) objects clicks.

(** The canvas point at the center of the top face that [drawTile] paints
    for the tile shown at screen grid position [(x, y)]: the diamond with
    corners [(screenPos.x, tileY)], [(screenPos.x + isoTileWidth / 2,
    tileY ± isoTileHeight / 2)] and [(screenPos.x + isoTileWidth, tileY)],
    drawn after [ctx.translate(0, 100)]. *)
Definition topFaceCenter (x y : Z) (tile : Tile) : Z * Z :=
  let screenPos := isoToScreen x y in
  let tileY := screenPos.2 - height tile * heightStep in
  (screenPos.1 + isoTileWidth / 2, tileY + 100).

(** The reading of the picking scenario for the tile stored at [(gx, gy)]:
    the pointer is put on the center of the tile's top face, and the pick
    gives the tile back. *)
Definition centerPickReturnsTile (rotation : Z) (map : Map) (gx gy : Z) : Prop :=
  ∀ tile,
    getTile map gx gy = Ok tile →
    let v := getInverseRotatedCoords rotation gx gy in
    screenToIso rotation map (inject_Z (topFaceCenter v.1 v.2 tile).1)
                             (inject_Z (topFaceCenter v.1 v.2 tile).2)
    = Ok (Some (gx, gy)).

(** No cell can accept the pointer. *)
Definition missesEveryDiamond {num : Type} `{Number num} (rotation : Z) (map : Map)
    (mouseX mouseY : num) : bool :=
  forallb (fun y =>
    forallb (fun x =>
      match getTile map (getRotatedCoords rotation x y).1 (getRotatedCoords rotation x y).2 with
      | Ok tile =>
          negb (inDiamond mouseX (num_sub mouseY (num_of_Z 100)) (isoToScreen x y)
                          ((isoToScreen x y).2 - height tile * heightStep))
      | TypeError => true
      end) (seqZ 0 gridSize)) (seqZ 0 gridSize).

(** A grass tile as [generateMap] makes them. *)
Definition grassCell (map : Map) (x y : Z) : Prop :=
  ∃ h, (h = 1 ∨ h = 2) ∧ getTile map x y = Ok (mkTile GRASS h).

(** The cell [(x, y)] is the one the lake loops reach at offsets [(i, j)]. *)
Definition carved (lakeX lakeY : Z) (x y : Z) (p : Z * Z) : Prop :=
  Z.abs p.1 + Z.abs p.2 < 3 ∧ x = lakeX + p.2 ∧ y = lakeY + p.1.

(** What one tick of an object with the given effect, standing on the tile
    [own], makes of a neighboring tile. *)
Definition stepTile (effect : Effect) (own neighbor : Tile) : Tile :=
  match effect with
  | raise_terrain =>
      if height neighbor <? height own + 2
      then mkTile (type neighbor) (height neighbor + 1) else neighbor
  | lower_terrain =>
      if height neighbor >? 0
      then mkTile (type neighbor) (height neighbor - 1) else neighbor
  | raise_water =>
      if bool_decide (type neighbor ≠ WATER)
      then mkTile WATER (height own) else neighbor
  | spread_grass =>
      if bool_decide (type neighbor ≠ GRASS)
      then mkTile GRASS (height neighbor) else neighbor
  end.

(** The glyph of a placed object, anchored on the center of the top face of
    its tile (in the coordinates of [draw], before its translation by 100). *)
Definition glyphOf (rotation : Z) (map : Map) (obj : PlacedObject) : Command :=
  let v := getInverseRotatedCoords rotation (obj_x obj) (obj_y obj) in
  let tile := tileAt map (obj_x obj) (obj_y obj) in
  ctx_fillText (OBJECT_TYPES_symbol (obj_type obj))
               (topFaceCenter v.1 v.2 tile).1 ((topFaceCenter v.1 v.2 tile).2 - 100).

(** What holds of the global variables between two events. *)
Definition gameInvariant (g : Game) : Prop :=
  populated (game_map g) ∧ nonNegative (game_map g) ∧
  0 ≤ game_rotation g ≤ 3 ∧
  Forall onGrid (game_objects g) ∧ distinctCells (game_objects g) ∧
  (∀ c : Coords, game_hoveredTile g = Some c → inGrid c.1 c.2).

(** [Math.random()] returns values in [0, 1). *)
Definition possible (e : Event) : Prop :=
  match e with
  | resetClick random => ∀ k, (0 <= random k)%Q ∧ (random k < 1)%Q
  | _ => True
  end.

(** The reading of the terrain clamp against the heights after the tick: a
    neighbor that a RaiseTerrain object raised in a tick is afterwards at
    most 2 above the object's own tile. *)
Definition raisedWithinOwner (objects : list PlacedObject) (map : Map) : Prop :=
  ∀ map' obj x y tile tile' own',
    updateMap objects map = Ok map' →
    obj ∈ objects → obj_effect obj = raise_terrain →
    adjacent (obj_x obj) (obj_y obj) x y →
    getTile map x y = Ok tile → getTile map' x y = Ok tile' →
    height tile < height tile' →
    getTile map' (obj_x obj) (obj_y obj) = Ok own' →
    height tile' ≤ height own' + 2.

(** Every tile of the grid has a height of at most [bound]. *)
Definition heightsUpTo (bound : Z) (map : Map) : Prop :=
  ∀ x y tile, inGrid x y → getTile map x y = Ok tile → height tile ≤ bound.

Definition heightsUpTob (bound : Z) (map : Map) : bool :=
  forallb (fun y => forallb (fun x => match getTile map x y with
                                      | Ok tile => height tile <=? bound
                                      | TypeError => true
                                      end)
                            (seqZ 0 gridSize))
          (seqZ 0 gridSize).

(** The canvas points a log touches: the vertices given to [moveTo] and
    [lineTo] and the anchors given to [fillText], each moved by the
    translation in force; [save] and [restore] keep a stack of origins. *)
Fixpoint paintedPoints (origin : Z * Z) (saved : list (Z * Z)) (log : list Command)
    : list (Z * Z) :=
  match log with
  | [] => []
  | ctx_save :: log' => paintedPoints origin (origin :: saved) log'
  | ctx_restore :: log' =>
      match saved with
      | origin' :: saved' => paintedPoints origin' saved' log'
      | [] => paintedPoints origin [] log'
      end
  | ctx_translate x y :: log' => paintedPoints (origin.1 + x, origin.2 + y) saved log'
  | ctx_moveTo x y :: log' => (origin.1 + x, origin.2 + y) :: paintedPoints origin saved log'
  | ctx_lineTo x y :: log' => (origin.1 + x, origin.2 + y) :: paintedPoints origin saved log'
  | ctx_fillText _ x y :: log' => (origin.1 + x, origin.2 + y) :: paintedPoints origin saved log'
  | _ :: log' => paintedPoints origin saved log'
  end.

(** A point of the canvas. *)
Definition onCanvas (p : Z * Z) : Prop :=
  0 ≤ p.1 ≤ canvas_width ∧ 0 ≤ p.2 ≤ canvas_height.

(** A command that leaves the origin alone and, with the origin at
    [origin], touches no point outside the canvas. *)
Definition paintsOnCanvas (origin : Z * Z) (c : Command) : Prop :=
  match c with
  | ctx_save | ctx_restore | ctx_translate _ _ => False
  | ctx_moveTo x y | ctx_lineTo x y | ctx_fillText _ x y =>
      onCanvas (origin.1 + x, origin.2 + y)
  | _ => True
  end.

(** ** Sample inputs *)

(** [Math.random()] always returning 0: every grass tile has height 1. *)
Definition lowRandom (k : nat) : Q := 0%Q.
(** [Math.random()] always returning 1/2: every grass tile has height 2. *)
Definition highRandom (k : nat) : Q := (1 # 2)%Q.

Definition generated (random : nat → Q) : Map :=
  match generateMap random with
  | Ok map => map
  | TypeError => ∅
  end.

Definition lowMap : Map := Eval vm_compute in generated lowRandom.
Definition highMap : Map := Eval vm_compute in generated highRandom.

(** [lowMap] after one tick with an obelisk at (8,5) and then a tree at
    (7,6), both next to the lake tile (8,6). *)
Definition lowMapObeliskTree : Map :=
  Eval vm_compute in
    match updateMap [mkObject 8 5 obelisk raise_terrain; mkObject 7 6 tree spread_grass]
                    lowMap with
    | Ok map => map
    | TypeError => ∅
    end.

(** [lowMap] after one tick with a tree at (8,5), next to the lake. *)
Definition lowMapTree : Map :=
  Eval vm_compute in
    match updateMap [mkObject 8 5 tree spread_grass] lowMap with
    | Ok map => map
    | TypeError => ∅
    end.

(** [Math.random()] returning 1/2 at the call that fills the cell (6,5) and
    0 at every other call: every grass tile has height 1, except the tile at
    (6,5), of height 2. *)
Definition mixedRandom (k : nat) : Q := if Nat.eqb k 86 then (1 # 2)%Q else 0%Q.

Definition mixedMap : Map := Eval vm_compute in generated mixedRandom.

(** [mixedMap] after one tick with an obelisk at (5,5) and then an excavator
    at (4,5). *)
Definition mixedMapObeliskExcavator : Map :=
  Eval vm_compute in
    match updateMap [mkObject 5 5 obelisk raise_terrain; mkObject 4 5 excavator lower_terrain]
                    mixedMap with
    | Ok map => map
    | TypeError => ∅
    end.

(** * Properties *)

Lemma getRotatedCoords_inverse rotation x y :
  getRotatedCoords rotation (getInverseRotatedCoords rotation x y).1
                            (getInverseRotatedCoords rotation x y).2 = (x, y).
Proof.
  unfold getRotatedCoords, getInverseRotatedCoords, gridSize.
  repeat case_decide; simpl; f_equal; lia.
Qed.

(** C1. For every grid point [(x, y)] of the 16 by 16 grid and every
    rotation state in 0..3, un-rotating the rotated point with the same
    rotation state gives back exactly [(x, y)]. *)
Theorem rotation_round_trip (rotation x y : Z) :
  inGrid x y →
  0 ≤ rotation ≤ 3 →
  getInverseRotatedCoords rotation (getRotatedCoords rotation x y).1
                                   (getRotatedCoords rotation x y).2 = (x, y).
Proof.
  intros _ _.
  unfold getRotatedCoords, getInverseRotatedCoords, gridSize.
  repeat case_decide; simpl; f_equal; lia.
Qed.

Lemma rotation_round_trip_witness :
  getInverseRotatedCoords 1 (getRotatedCoords 1 3 5).1 (getRotatedCoords 1 3 5).2 = (3, 5).
Proof.
  apply (rotation_round_trip 1 3 5); unfold inGrid, gridSize; lia.
Defined.

(** Four turns to the right bring the view back, and the rotation state
    stays one of the four canonical values. *)
Lemma rotateRight_four_times rotation :
  0 ≤ rotation ≤ 3 →
  rotateRight (rotateRight (rotateRight (rotateRight rotation))) = rotation ∧
  0 ≤ rotateRight rotation ≤ 3 ∧ 0 ≤ rotateLeft rotation ≤ 3 ∧
  rotateLeft (rotateRight rotation) = rotation.
Proof.
  intros Hr. unfold rotateRight, rotateLeft.
  assert (Hcases : rotation = 0 ∨ rotation = 1 ∨ rotation = 2 ∨ rotation = 3) by lia.
  destruct Hcases as [-> | [-> | [-> | ->]]]; repeat split; done.
Qed.

(** ** The map as a two-dimensional array *)

Lemma getTile_setTile map map' x y tile x' y' :
  setTile map x y tile = Ok map' →
  getTile map' x' y' = if decide (x' = x ∧ y' = y) then Ok tile else getTile map x' y'.
Proof.
  unfold setTile, getTile. destruct (map !! y) as [row|] eqn:Hrow; [|done].
  intros [= <-]. destruct (decide (y' = y)) as [->|Hy].
  - rewrite lookup_insert_eq. destruct (decide (x' = x)) as [->|Hx].
    + rewrite lookup_insert_eq. by rewrite decide_True.
    + rewrite lookup_insert_ne by done. rewrite Hrow. by rewrite decide_False by tauto.
  - rewrite lookup_insert_ne by done. by rewrite decide_False by tauto.
Qed.

Lemma setTile_defined map x y tile0 tile :
  getTile map x y = Ok tile0 → ∃ map', setTile map x y tile = Ok map'.
Proof.
  unfold setTile, getTile. destruct (map !! y); [eauto|done].
Qed.

Lemma populated_setTile map map' x y tile :
  populated map → setTile map x y tile = Ok map' → populated map'.
Proof.
  intros Hpop Hset x' y' Hin. rewrite (getTile_setTile _ _ _ _ _ _ _ Hset).
  case_decide; eauto.
Qed.

Lemma tileAt_getTile map x y tile : getTile map x y = Ok tile → tileAt map x y = tile.
Proof. unfold tileAt. by intros ->. Qed.

Lemma populatedb_populated map : populatedb map = true → populated map.
Proof.
  unfold populatedb. rewrite forallb_forall. intros Hall x y [Hx Hy].
  specialize (Hall y). rewrite forallb_forall in Hall.
  assert (Hyin : In y (seqZ 0 gridSize)).
  { apply list_elem_of_In, elem_of_seqZ. lia. }
  assert (Hxin : In x (seqZ 0 gridSize)).
  { apply list_elem_of_In, elem_of_seqZ. lia. }
  specialize (Hall Hyin x Hxin). destruct (getTile map x y); [eauto|done].
Qed.

Lemma nonNegativeb_nonNegative map : nonNegativeb map = true → nonNegative map.
Proof.
  unfold nonNegativeb. rewrite forallb_forall. intros Hall x y tile [Hx Hy] Htile.
  specialize (Hall y). rewrite forallb_forall in Hall.
  assert (Hyin : In y (seqZ 0 gridSize)).
  { apply list_elem_of_In, elem_of_seqZ. lia. }
  assert (Hxin : In x (seqZ 0 gridSize)).
  { apply list_elem_of_In, elem_of_seqZ. lia. }
  specialize (Hall Hyin x Hxin). rewrite Htile in Hall. lia.
Qed.

(** ** Loops *)

Lemma foldM_app {A S} (body : S → A → result S) s l1 l2 :
  foldM body s (l1 ++ l2) = let? s' := foldM body s l1 in foldM body s' l2.
Proof.
  revert s. induction l1 as [|a l1 IH]; intros s; simpl; [done|].
  destruct (body s a); simpl; [apply IH|done].
Qed.

(** ** Neighbors *)

Lemma getNeighbors_candidates x y :
  getNeighbors x y =
  candidate (x + -1) (y + 0) ++ candidate (x + 1) (y + 0) ++
  candidate (x + 0) (y + -1) ++ candidate (x + 0) (y + 1).
Proof.
  unfold getNeighbors, candidate. simpl.
  repeat match goal with
         | |- context [if ?b then _ else _] => destruct b
         end; reflexivity.
Qed.

Lemma elem_of_candidate n a b :
  n ∈ candidate a b ↔ n = (a, b) ∧ inGrid a b.
Proof.
  unfold candidate, inGrid, gridSize.
  destruct (_ && _) eqn:Hc.
  - rewrite list_elem_of_singleton. split; [|tauto]. intros ->. split; [done|]. lia.
  - split; [by intros ?%not_elem_of_nil|]. intros [_ ?]. lia.
Qed.

Lemma elem_of_getNeighbors x y n :
  n ∈ getNeighbors x y ↔ inGrid n.1 n.2 ∧ adjacent x y n.1 n.2.
Proof.
  rewrite getNeighbors_candidates, !elem_of_app, !elem_of_candidate.
  destruct n as [a b]. unfold adjacent, inGrid. simpl. split.
  - intros [[[= -> ->] ?]|[[[= -> ->] ?]|[[[= -> ->] ?]|[[= -> ->] ?]]]]; lia.
  - intros [Hin Hadj].
    assert (Hcases : (a = x + -1 ∧ b = y + 0) ∨ (a = x + 1 ∧ b = y + 0) ∨
                     (a = x + 0 ∧ b = y + -1) ∨ (a = x + 0 ∧ b = y + 1)) by lia.
    destruct Hcases as [[-> ->]|[[-> ->]|[[-> ->]|[-> ->]]]]; tauto.
Qed.

(** ** Collecting the deltas *)

Lemma neighborChanges_app obj tile neighborTile n changes :
  neighborChanges obj tile neighborTile n changes =
  changes ++ neighborChanges obj tile neighborTile n [].
Proof.
  unfold neighborChanges.
  destruct (obj_effect obj); simpl;
    repeat match goal with
           | |- context [if ?b then _ else _] => destruct b
           end; simpl; by rewrite ?app_nil_r.
Qed.

(** The four [if] statements, by effect: at most one delta is pushed. *)
Lemma neighborChanges_effect obj tile neighborTile n :
  neighborChanges obj tile neighborTile n [] =
  match obj_effect obj with
  | raise_terrain =>
      if height neighborTile <? height tile + 2
      then [mkChange n.1 n.2 None (Some (height neighborTile + 1))] else []
  | lower_terrain =>
      if height neighborTile >? 0
      then [mkChange n.1 n.2 None (Some (height neighborTile - 1))] else []
  | raise_water =>
      if bool_decide (type neighborTile ≠ WATER)
      then [mkChange n.1 n.2 (Some WATER) (Some (height tile))] else []
  | spread_grass =>
      if bool_decide (type neighborTile ≠ GRASS)
      then [mkChange n.1 n.2 (Some GRASS) None] else []
  end.
Proof.
  unfold neighborChanges.
  destruct (obj_effect obj); simpl;
    repeat match goal with
           | |- context [if ?b then _ else _] => destruct b
           end; reflexivity.
Qed.

Lemma neighborChanges_targets obj tile neighborTile n c :
  c ∈ neighborChanges obj tile neighborTile n [] → targets c n.1 n.2.
Proof.
  rewrite neighborChanges_effect.
  destruct (obj_effect obj);
    match goal with
    | |- context [if ?b then _ else _] => destruct b
    end; rewrite ?list_elem_of_singleton; try (by intros ?%not_elem_of_nil);
    by intros ->.
Qed.

Lemma neighbor_loop map obj tile ns changes :
  (∀ n, n ∈ ns → inGrid n.1 n.2) →
  populated map →
  foldM (fun changes (n : Coords) =>
           let? neighborTile := getTile map n.1 n.2 in
           Ok (neighborChanges obj tile neighborTile n changes))
        changes ns
  = Ok (changes ++ flat_map (fun n : Coords =>
                               neighborChanges obj tile (tileAt map n.1 n.2) n []) ns).
Proof.
  intros Hns Hpop. revert changes.
  induction ns as [|n ns IH]; intros changes; simpl.
  - by rewrite app_nil_r.
  - destruct (Hpop n.1 n.2) as [nt Hnt]; [apply Hns; left|].
    rewrite Hnt. simpl. rewrite IH by (intros; apply Hns; by right).
    rewrite (tileAt_getTile _ _ _ _ Hnt), (neighborChanges_app _ _ _ _ changes).
    by rewrite <- app_assoc.
Qed.

Lemma objectChanges_deltasOf map changes obj :
  populated map → onGrid obj →
  objectChanges map changes obj = Ok (changes ++ deltasOf map obj).
Proof.
  intros Hpop Hobj. unfold objectChanges, deltasOf.
  destruct (Hpop _ _ Hobj) as [tile Htile]. rewrite Htile. simpl.
  rewrite (tileAt_getTile _ _ _ _ Htile). apply neighbor_loop; [|done].
  intros n Hn. by apply elem_of_getNeighbors in Hn as [? _].
Qed.

Lemma collect_loop map changes objects :
  populated map → Forall onGrid objects →
  foldM (objectChanges map) changes objects
  = Ok (changes ++ flat_map (deltasOf map) objects).
Proof.
  intros Hpop Hobjs. revert changes.
  induction Hobjs as [|obj objects Hobj _ IH]; intros changes; simpl.
  - by rewrite app_nil_r.
  - rewrite objectChanges_deltasOf by done. simpl. rewrite IH. by rewrite <- app_assoc.
Qed.

Lemma collectChanges_deltasOf map objects :
  populated map → Forall onGrid objects →
  collectChanges map objects = Ok (flat_map (deltasOf map) objects).
Proof. intros. unfold collectChanges. by rewrite collect_loop. Qed.

(** Where a delta of the batch comes from. *)
Lemma elem_of_deltasOf map obj c :
  c ∈ deltasOf map obj →
  ∃ n, n ∈ getNeighbors (obj_x obj) (obj_y obj) ∧
       c ∈ neighborChanges obj (tileAt map (obj_x obj) (obj_y obj)) (tileAt map n.1 n.2) n [].
Proof.
  unfold deltasOf. rewrite list_elem_of_In, in_flat_map.
  intros (n & Hn & Hc). exists n. by rewrite !list_elem_of_In.
Qed.

Lemma deltasOf_target map obj c :
  c ∈ deltasOf map obj →
  inGrid (ch_x c) (ch_y c) ∧ adjacent (obj_x obj) (obj_y obj) (ch_x c) (ch_y c).
Proof.
  intros (n & Hn & Hc)%elem_of_deltasOf.
  apply neighborChanges_targets in Hc as [-> ->].
  by apply elem_of_getNeighbors.
Qed.

Lemma elem_of_batch map objects c :
  c ∈ flat_map (deltasOf map) objects → ∃ obj, obj ∈ objects ∧ c ∈ deltasOf map obj.
Proof.
  rewrite list_elem_of_In, in_flat_map. intros (obj & ? & ?).
  exists obj. by rewrite !list_elem_of_In.
Qed.

(** ** Applying the deltas *)

Lemma applyChange_spec map c :
  populated map → inGrid (ch_x c) (ch_y c) →
  ∃ map', applyChange map c = Ok map' ∧ populated map' ∧
          ∀ x y tile, getTile map x y = Ok tile →
                      getTile map' x y = Ok (changeTile x y tile c).
Proof.
  intros Hpop Hin. destruct (Hpop _ _ Hin) as [t0 Ht0].
  unfold applyChange, changeTile, targets.
  destruct c as [cx cy [ty|] [h|]]; simpl in *; rewrite ?Ht0; simpl.
  - destruct (setTile_defined map cx cy t0 (mkTile (type t0) h) Ht0) as [m1 Hm1].
    rewrite Hm1. simpl.
    pose proof (getTile_setTile _ _ _ _ _ cx cy Hm1) as Hg1.
    rewrite decide_True in Hg1 by done. rewrite Hg1. simpl.
    destruct (setTile_defined m1 cx cy _ (mkTile ty h) Hg1) as [m2 Hm2].
    rewrite Hm2. exists m2. split; [done|]. split.
    { eauto using populated_setTile. }
    intros x y tile Htile.
    rewrite (getTile_setTile _ _ _ _ _ x y Hm2), (getTile_setTile _ _ _ _ _ x y Hm1).
    case_decide as Hxy.
    + by rewrite bool_decide_eq_true_2 by (destruct Hxy; split; congruence).
    + by rewrite bool_decide_eq_false_2 by (intros [? ?]; apply Hxy; split; congruence).
  - destruct (setTile_defined map cx cy t0 (mkTile ty (height t0)) Ht0) as [m1 Hm1].
    rewrite Hm1. exists m1. split; [done|]. split.
    { eauto using populated_setTile. }
    intros x y tile Htile. rewrite (getTile_setTile _ _ _ _ _ x y Hm1).
    case_decide as Hxy.
    + destruct Hxy as [-> ->]. rewrite bool_decide_eq_true_2 by done. congruence.
    + by rewrite bool_decide_eq_false_2 by (intros [? ?]; apply Hxy; split; congruence).
  - destruct (setTile_defined map cx cy t0 (mkTile (type t0) h) Ht0) as [m1 Hm1].
    rewrite Hm1. simpl. exists m1. split; [done|]. split.
    { eauto using populated_setTile. }
    intros x y tile Htile. rewrite (getTile_setTile _ _ _ _ _ x y Hm1).
    case_decide as Hxy.
    + destruct Hxy as [-> ->]. rewrite bool_decide_eq_true_2 by done. congruence.
    + by rewrite bool_decide_eq_false_2 by (intros [? ?]; apply Hxy; split; congruence).
  - exists map. split; [done|]. split; [done|].
    intros x y tile Htile. rewrite Htile. by destruct tile; case_bool_decide.
Qed.

Lemma applyChanges_spec map changes :
  populated map → Forall (fun c => inGrid (ch_x c) (ch_y c)) changes →
  ∃ map', applyChanges map changes = Ok map' ∧ populated map' ∧
          ∀ x y tile, getTile map x y = Ok tile →
                      getTile map' x y = Ok (foldl (changeTile x y) tile changes).
Proof.
  intros Hpop Hall. revert map Hpop.
  induction Hall as [|c changes Hc _ IH]; intros map Hpop.
  - exists map. by repeat split.
  - destruct (applyChange_spec map c Hpop Hc) as (m1 & Hm1 & Hpop1 & Hget1).
    destruct (IH m1 Hpop1) as (m2 & Hm2 & Hpop2 & Hget2).
    exists m2. unfold applyChanges in *. simpl. rewrite Hm1. simpl.
    split; [done|]. split; [done|].
    intros x y tile Htile. simpl. apply Hget2, Hget1, Htile.
Qed.

(** One tick, in closed form: the batch is a function of the map before the
    tick, and every tile is the fold of its deltas over its old value. *)
Lemma updateMap_spec objects map :
  populated map → Forall onGrid objects →
  ∃ map', updateMap objects map = Ok map' ∧ populated map' ∧
          ∀ x y tile, getTile map x y = Ok tile →
                      getTile map' x y
                      = Ok (foldl (changeTile x y) tile (flat_map (deltasOf map) objects)).
Proof.
  intros Hpop Hobjs. unfold updateMap.
  rewrite collectChanges_deltasOf by done. simpl.
  apply applyChanges_spec; [done|].
  apply Forall_forall. intros c (obj & _ & Hc)%elem_of_batch.
  by apply deltasOf_target in Hc as [? _].
Qed.

(** ** Folding deltas over one tile *)

Lemma foldl_changeTile_untargeted x y tile changes :
  (∀ c, c ∈ changes → ¬ targets c x y) →
  foldl (changeTile x y) tile changes = tile.
Proof.
  revert tile. induction changes as [|c changes IH]; intros tile Hno; simpl; [done|].
  unfold changeTile at 2. rewrite bool_decide_eq_false_2 by (apply Hno; left).
  apply IH. intros; apply Hno; by right.
Qed.

Lemma foldl_changeTile_height_kept x y tile changes :
  (∀ c, c ∈ changes → targets c x y → ch_height c = None) →
  height (foldl (changeTile x y) tile changes) = height tile.
Proof.
  revert tile. induction changes as [|c changes IH]; intros tile Hno; simpl; [done|].
  rewrite IH by (intros; apply Hno; [by right|done]).
  unfold changeTile. case_bool_decide as Ht; [|done].
  simpl. by rewrite (Hno c) by (done || left).
Qed.

Lemma foldl_changeTile_type_kept x y tile changes :
  (∀ c, c ∈ changes → targets c x y → ch_type c = None) →
  type (foldl (changeTile x y) tile changes) = type tile.
Proof.
  revert tile. induction changes as [|c changes IH]; intros tile Hno; simpl; [done|].
  rewrite IH by (intros; apply Hno; [by right|done]).
  unfold changeTile. case_bool_decide as Ht; [|done].
  simpl. by rewrite (Hno c) by (done || left).
Qed.

Lemma foldl_changeTile_last_height x y tile before c after h :
  targets c x y → ch_height c = Some h →
  (∀ c', c' ∈ after → targets c' x y → ch_height c' = None) →
  height (foldl (changeTile x y) tile (before ++ c :: after)) = h.
Proof.
  intros Ht Hh Hafter. rewrite foldl_app. simpl.
  rewrite foldl_changeTile_height_kept by done.
  unfold changeTile. rewrite bool_decide_eq_true_2 by done. simpl. by rewrite Hh.
Qed.

Lemma foldl_changeTile_last_type x y tile before c after t :
  targets c x y → ch_type c = Some t →
  (∀ c', c' ∈ after → targets c' x y → ch_type c' = None) →
  type (foldl (changeTile x y) tile (before ++ c :: after)) = t.
Proof.
  intros Ht Hh Hafter. rewrite foldl_app. simpl.
  rewrite foldl_changeTile_type_kept by done.
  unfold changeTile. rewrite bool_decide_eq_true_2 by done. simpl. by rewrite Hh.
Qed.

Lemma foldl_changeTile_nonneg x y tile changes :
  0 ≤ height tile →
  (∀ c h, c ∈ changes → ch_height c = Some h → 0 ≤ h) →
  0 ≤ height (foldl (changeTile x y) tile changes).
Proof.
  revert tile. induction changes as [|c changes IH]; intros tile Htile Hall; simpl; [done|].
  apply IH; [|intros; eapply Hall; [by right|done]].
  unfold changeTile. case_bool_decide; [|done]. simpl.
  destruct (ch_height c) as [h|] eqn:Hh; simpl; [|done].
  eapply Hall; [by left|done].
Qed.

(** ** Ticks *)

Lemma deltasOf_nonneg map obj c h :
  populated map → nonNegative map → onGrid obj →
  c ∈ deltasOf map obj → ch_height c = Some h → 0 ≤ h.
Proof.
  intros Hpop Hnn Hobj (n & Hn & Hc)%elem_of_deltasOf Hh.
  apply elem_of_getNeighbors in Hn as [Hnin _].
  destruct (Hpop _ _ Hobj) as [tile Htile], (Hpop _ _ Hnin) as [nt Hnt].
  rewrite (tileAt_getTile _ _ _ _ Htile), (tileAt_getTile _ _ _ _ Hnt) in Hc.
  pose proof (Hnn _ _ _ Hobj Htile). pose proof (Hnn _ _ _ Hnin Hnt).
  rewrite neighborChanges_effect in Hc.
  destruct (obj_effect obj);
    match type of Hc with
    | context [if ?b then _ else _] => destruct b eqn:Hb
    end; try (by apply not_elem_of_nil in Hc);
    apply list_elem_of_singleton in Hc as ->; simpl in Hh; simplify_eq; lia.
Qed.

Lemma updateMap_nonNegative objects map map' :
  populated map → nonNegative map → Forall onGrid objects →
  updateMap objects map = Ok map' → nonNegative map'.
Proof.
  intros Hpop Hnn Hobjs Hup.
  destruct (updateMap_spec objects map Hpop Hobjs) as (m & Hm & _ & Hget).
  rewrite Hup in Hm. injection Hm as <-.
  intros x y tile' Hin Htile'. destruct (Hpop _ _ Hin) as [tile Htile].
  rewrite (Hget _ _ _ Htile) in Htile'. injection Htile' as <-.
  apply foldl_changeTile_nonneg; [by eapply Hnn|].
  intros c h (obj & Hobj & Hc)%elem_of_batch Hh.
  rewrite Forall_forall in Hobjs. eapply deltasOf_nonneg; eauto.
Qed.

Lemma ticks_total k objects map :
  populated map → Forall onGrid objects →
  ∃ map', ticks k objects map = Ok map' ∧ populated map'.
Proof.
  intros Hpop Hobjs. revert map Hpop.
  induction k as [|k IH]; intros map Hpop; simpl; [by eauto|].
  destruct (updateMap_spec objects map Hpop Hobjs) as (m1 & -> & Hpop1 & _).
  simpl. by apply IH.
Qed.

Lemma ticks_nonNegative k objects map map' :
  populated map → nonNegative map → Forall onGrid objects →
  ticks k objects map = Ok map' → nonNegative map'.
Proof.
  intros Hpop Hnn Hobjs. revert map Hpop Hnn.
  induction k as [|k IH]; intros map Hpop Hnn; simpl; [by intros [= <-]|].
  destruct (updateMap_spec objects map Hpop Hobjs) as (m1 & Hm1 & Hpop1 & _).
  rewrite Hm1. simpl. apply IH; [done|]. by apply (updateMap_nonNegative objects map).
Qed.

Lemma lowMap_populated : populated lowMap.
Proof. apply populatedb_populated. vm_compute. reflexivity. Qed.

Lemma lowMap_nonNegative : nonNegative lowMap.
Proof. apply nonNegativeb_nonNegative. vm_compute. reflexivity. Qed.

Lemma highMap_populated : populated highMap.
Proof. apply populatedb_populated. vm_compute. reflexivity. Qed.

(** ** The deltas of each effect *)

Lemma deltasOf_raise_terrain map obj c :
  obj_effect obj = raise_terrain → c ∈ deltasOf map obj →
  ch_type c = None ∧
  ch_height c = Some (height (tileAt map (ch_x c) (ch_y c)) + 1) ∧
  height (tileAt map (ch_x c) (ch_y c)) + 1 ≤ height (tileAt map (obj_x obj) (obj_y obj)) + 2.
Proof.
  intros Heff (n & _ & Hc)%elem_of_deltasOf.
  rewrite neighborChanges_effect, Heff in Hc.
  destruct (_ <? _) eqn:Hlt; [|by apply not_elem_of_nil in Hc].
  apply list_elem_of_singleton in Hc as ->. simpl. repeat split. lia.
Qed.

Lemma deltasOf_lower_terrain map obj c :
  obj_effect obj = lower_terrain → c ∈ deltasOf map obj →
  ch_type c = None ∧
  ch_height c = Some (height (tileAt map (ch_x c) (ch_y c)) - 1) ∧
  0 ≤ height (tileAt map (ch_x c) (ch_y c)) - 1.
Proof.
  intros Heff (n & _ & Hc)%elem_of_deltasOf.
  rewrite neighborChanges_effect, Heff in Hc.
  destruct (_ >? _) eqn:Hgt; [|by apply not_elem_of_nil in Hc].
  apply list_elem_of_singleton in Hc as ->. simpl. repeat split. lia.
Qed.

Lemma deltasOf_spread_grass map obj c :
  obj_effect obj = spread_grass → c ∈ deltasOf map obj →
  ch_type c = Some GRASS ∧ ch_height c = None.
Proof.
  intros Heff (n & _ & Hc)%elem_of_deltasOf.
  rewrite neighborChanges_effect, Heff in Hc.
  case_bool_decide; [|by apply not_elem_of_nil in Hc].
  by apply list_elem_of_singleton in Hc as ->.
Qed.

Lemma NoDup_getNeighbors x y : NoDup (getNeighbors x y).
Proof.
  rewrite getNeighbors_candidates. unfold candidate.
  repeat match goal with
         | |- context [if ?b then _ else _] => destruct b
         end; simpl; repeat constructor;
    rewrite ?list_elem_of_In; simpl; intros ?; intuition (simplify_eq; lia).
Qed.

Lemma deltasOf_raise_water map obj c :
  obj_effect obj = raise_water → c ∈ deltasOf map obj →
  ch_type c = Some WATER ∧
  ch_height c = Some (height (tileAt map (obj_x obj) (obj_y obj))).
Proof.
  intros Heff (n & _ & Hc)%elem_of_deltasOf.
  rewrite neighborChanges_effect, Heff in Hc.
  case_bool_decide; [|by apply not_elem_of_nil in Hc].
  by apply list_elem_of_singleton in Hc as ->.
Qed.

(** A height after the fold is the old one or the one some delta carries. *)
Lemma foldl_changeTile_height_origin x y tile changes :
  height (foldl (changeTile x y) tile changes) = height tile ∨
  ∃ c, c ∈ changes ∧ targets c x y ∧
       ch_height c = Some (height (foldl (changeTile x y) tile changes)).
Proof.
  revert tile. induction changes as [|c changes IH]; intros tile; simpl; [by left|].
  destruct (IH (changeTile x y tile c)) as [Hkept|(c' & Hc' & Ht & Hh)].
  - rewrite Hkept. unfold changeTile. case_bool_decide as Ht; [|by left]. simpl.
    destruct (ch_height c) as [h|] eqn:Hh; simpl; [|by left].
    right. exists c. split; [by left|]. by rewrite Hh.
  - right. exists c'. split; [by right|done].
Qed.

(** * The claims *)

(** C9. Inside the grid, [getNeighbors] returns exactly the 4-connected
    neighbors that lie on the grid, each once (nothing off the grid, no
    wraparound); hence every tile read by a tick on a fully populated grid
    exists, and a tick, or any number of ticks, ends without throwing and
    leaves the grid fully populated. *)
Theorem neighbors_in_bounds_tick_total (x y : Z) (objects : list PlacedObject) (map : Map) :
  inGrid x y → populated map → Forall onGrid objects →
  (∀ n : Coords, n ∈ getNeighbors x y ↔ inGrid n.1 n.2 ∧ adjacent x y n.1 n.2) ∧
  NoDup (getNeighbors x y) ∧
  (∀ obj (n : Coords), obj ∈ objects → n ∈ getNeighbors (obj_x obj) (obj_y obj) →
     ∃ tile, getTile map n.1 n.2 = Ok tile) ∧
  (∃ map', updateMap objects map = Ok map' ∧ populated map') ∧
  (∀ k, ∃ map', ticks k objects map = Ok map' ∧ populated map').
Proof.
  intros _ Hpop Hobjs. split; [|split; [|split; [|split]]].
  - intros n. apply elem_of_getNeighbors.
  - apply NoDup_getNeighbors.
  - intros obj n _ [Hn _]%elem_of_getNeighbors. by apply Hpop.
  - destruct (updateMap_spec objects map Hpop Hobjs) as (map' & ? & ? & _). eauto.
  - intros k. by apply ticks_total.
Qed.

Lemma neighbors_in_bounds_tick_total_witness :
  (∀ n : Coords, n ∈ getNeighbors 0 7 ↔ inGrid n.1 n.2 ∧ adjacent 0 7 n.1 n.2) ∧
  NoDup (getNeighbors 0 7) ∧
  (∀ obj (n : Coords), obj ∈ [mkObject 0 7 obelisk raise_terrain] →
     n ∈ getNeighbors (obj_x obj) (obj_y obj) → ∃ tile, getTile lowMap n.1 n.2 = Ok tile) ∧
  (∃ map', updateMap [mkObject 0 7 obelisk raise_terrain] lowMap = Ok map' ∧ populated map') ∧
  (∀ k, ∃ map', ticks k [mkObject 0 7 obelisk raise_terrain] lowMap = Ok map' ∧ populated map').
Proof.
  apply (neighbors_in_bounds_tick_total 0 7 [mkObject 0 7 obelisk raise_terrain] lowMap).
  - unfold inGrid, gridSize. lia.
  - apply populatedb_populated. vm_compute. reflexivity.
  - repeat constructor; simpl; unfold gridSize; lia.
Defined.

(** C6. With a Fountain at (5,5) as the only object, its own tile a
    height-1 Grass tile and (6,5) a height-1 Grass tile, one tick turns the
    tile at (6,5) into Water of height 1. *)
Theorem fountain_scenario (map : Map) :
  populated map →
  getTile map 5 5 = Ok (mkTile GRASS 1) →
  getTile map 6 5 = Ok (mkTile GRASS 1) →
  ∃ map', updateMap [mkObject 5 5 fountain (OBJECT_TYPES_effect fountain)] map = Ok map' ∧
          getTile map' 6 5 = Ok (mkTile WATER 1).
Proof.
  intros Hpop Hown Hnb.
  set (obj := mkObject 5 5 fountain (OBJECT_TYPES_effect fountain)).
  assert (Hobjs : Forall onGrid [obj]).
  { repeat constructor; simpl; unfold gridSize; lia. }
  destruct (updateMap_spec [obj] map Hpop Hobjs) as (map' & Hup & _ & Hget).
  exists map'. split; [done|]. rewrite (Hget _ _ _ Hnb). f_equal.
  simpl. rewrite app_nil_r. unfold deltasOf.
  replace (getNeighbors (obj_x obj) (obj_y obj)) with [(4, 5); (6, 5); (5, 4); (5, 6)]
    by (vm_compute; reflexivity).
  simpl. rewrite (tileAt_getTile _ _ _ _ Hown), (tileAt_getTile _ _ _ _ Hnb).
  rewrite !neighborChanges_effect. simpl.
  assert (Hother : ∀ (t : Tile) (b : bool) (c : Change),
             ¬ targets c 6 5 →
             foldl (changeTile 6 5) t (if b then [c] else []) = t).
  { intros t b c Hc. apply foldl_changeTile_untargeted.
    intros c' Hc'. destruct b; [|by apply not_elem_of_nil in Hc'].
    by apply list_elem_of_singleton in Hc' as ->. }
  rewrite foldl_app, Hother by (unfold targets; simpl; lia).
  cbn [foldl]. rewrite !foldl_app, !Hother by (unfold targets; simpl; lia).
  reflexivity.
Qed.

Lemma fountain_scenario_witness :
  ∃ map', updateMap [mkObject 5 5 fountain (OBJECT_TYPES_effect fountain)] lowMap = Ok map' ∧
          getTile map' 6 5 = Ok (mkTile WATER 1).
Proof.
  apply (fountain_scenario lowMap).
  - apply populatedb_populated. vm_compute. reflexivity.
  - vm_compute. reflexivity.
  - vm_compute. reflexivity.
Defined.

(** C10. A tick changes only tiles that are 4-connected neighbors of some
    placed object: every tile adjacent to no object keeps its exact type and
    height; with no objects the whole map is unchanged; and a SpreadGrass
    delta carries a type only, so a tile whose adjacent objects are all
    trees keeps its height. *)
Theorem updateMap_frame (objects : list PlacedObject) (map map' : Map) :
  populated map → Forall onGrid objects →
  updateMap objects map = Ok map' →
  (∀ x y tile, getTile map x y = Ok tile →
     (∀ obj, obj ∈ objects → ¬ adjacent (obj_x obj) (obj_y obj) x y) →
     getTile map' x y = Ok tile) ∧
  (objects = [] → map' = map) ∧
  (∀ obj changes c, obj ∈ objects → obj_effect obj = spread_grass →
     objectChanges map [] obj = Ok changes → c ∈ changes →
     ch_type c = Some GRASS ∧ ch_height c = None) ∧
  (∀ x y tile tile', getTile map x y = Ok tile → getTile map' x y = Ok tile' →
     (∀ obj, obj ∈ objects → adjacent (obj_x obj) (obj_y obj) x y →
             obj_effect obj = spread_grass) →
     height tile' = height tile).
Proof.
  intros Hpop Hobjs Hup.
  destruct (updateMap_spec objects map Hpop Hobjs) as (m & Hm & _ & Hget).
  rewrite Hup in Hm. injection Hm as <-.
  rewrite Forall_forall in Hobjs.
  split; [|split; [|split]].
  - intros x y tile Htile Hfar. rewrite (Hget _ _ _ Htile). f_equal.
    apply foldl_changeTile_untargeted.
    intros c (obj & Hobj & Hc)%elem_of_batch [<- <-].
    apply deltasOf_target in Hc as [_ Hadj]. by apply (Hfar obj).
  - intros ->. by injection Hup as <-.
  - intros obj changes c Hobj Heff Hchanges Hc.
    rewrite objectChanges_deltasOf in Hchanges by auto.
    injection Hchanges as <-. by apply (deltasOf_spread_grass map obj).
  - intros x y tile tile' Htile Htile' Htrees.
    rewrite (Hget _ _ _ Htile) in Htile'. injection Htile' as <-.
    apply foldl_changeTile_height_kept.
    intros c (obj & Hobj & Hc)%elem_of_batch [<- <-].
    pose proof (deltasOf_target _ _ _ Hc) as [_ Hadj].
    by apply (deltasOf_spread_grass map obj); [apply Htrees|].
Qed.

Lemma updateMap_frame_witness :
  (∀ x y tile, getTile lowMap x y = Ok tile →
     (∀ obj, obj ∈ [mkObject 8 5 tree spread_grass] →
             ¬ adjacent (obj_x obj) (obj_y obj) x y) →
     getTile lowMapTree x y = Ok tile) ∧
  getTile lowMapTree 8 6 = Ok (mkTile GRASS 0).
Proof.
  split.
  - apply (updateMap_frame [mkObject 8 5 tree spread_grass] lowMap lowMapTree).
    + apply populatedb_populated. vm_compute. reflexivity.
    + repeat constructor; simpl; unfold gridSize; lia.
    + vm_compute. reflexivity.
  - vm_compute. reflexivity.
Defined.

(** C3, as stated, fails when the bound is read against the heights after
    the tick: the obelisk's own tile can be lowered in the very tick in which
    the obelisk raises a neighbor. On the generated map whose grass tiles
    have height 1 except (6,5), of height 2, with an obelisk placed at (5,5)
    and then an excavator at (4,5), one tick raises (6,5) to 3 (the obelisk
    reads its own height 1) and lowers the obelisk's tile (5,5) to 0: the
    neighbor just raised is 3 above the obelisk's tile. *)
Lemma raised_above_owner_after_tick :
  generateMap mixedRandom = Ok mixedMap ∧
  (∀ k, (0 <= mixedRandom k)%Q ∧ (mixedRandom k < 1)%Q) ∧
  distinctCells [mkObject 5 5 obelisk raise_terrain; mkObject 4 5 excavator lower_terrain] ∧
  getTile mixedMap 5 5 = Ok (mkTile GRASS 1) ∧
  getTile mixedMap 6 5 = Ok (mkTile GRASS 2) ∧
  updateMap [mkObject 5 5 obelisk raise_terrain; mkObject 4 5 excavator lower_terrain] mixedMap
  = Ok mixedMapObeliskExcavator ∧
  getTile mixedMapObeliskExcavator 5 5 = Ok (mkTile GRASS 0) ∧
  getTile mixedMapObeliskExcavator 6 5 = Ok (mkTile GRASS 3) ∧
  ¬ raisedWithinOwner
      [mkObject 5 5 obelisk raise_terrain; mkObject 4 5 excavator lower_terrain] mixedMap.
Proof.
  assert (Hup : updateMap [mkObject 5 5 obelisk raise_terrain;
                           mkObject 4 5 excavator lower_terrain] mixedMap
                = Ok mixedMapObeliskExcavator) by (vm_compute; reflexivity).
  split; [vm_compute; reflexivity|].
  split.
  { intros k. unfold mixedRandom. destruct (Nat.eqb k 86); (split; [discriminate|reflexivity]). }
  split.
  { unfold distinctCells. cbn [fmap list_fmap obj_x obj_y].
    apply NoDup_cons. split; [|apply NoDup_singleton].
    intros Hin%list_elem_of_singleton. discriminate Hin. }
  split; [vm_compute; reflexivity|]. split; [vm_compute; reflexivity|].
  split; [exact Hup|].
  split; [vm_compute; reflexivity|]. split; [vm_compute; reflexivity|].
  intros Hclaim.
  specialize (Hclaim mixedMapObeliskExcavator (mkObject 5 5 obelisk raise_terrain) 6 5
                     (mkTile GRASS 2) (mkTile GRASS 3) (mkTile GRASS 0) Hup).
  assert (Hbad : height (mkTile GRASS 3) ≤ height (mkTile GRASS 0) + 2).
  { apply Hclaim.
    - left.
    - reflexivity.
    - unfold adjacent. simpl. lia.
    - vm_compute. reflexivity.
    - vm_compute. reflexivity.
    - simpl. lia.
    - vm_compute. reflexivity. }
  simpl in Hbad. lia.
Qed.

(** C3, as amended: the bound is against the height the object's own tile
    has before the tick. From a fully populated map with non-negative
    heights, after any number of ticks the map is again fully populated with
    non-negative integer heights. In the next tick every delta of a
    RaiseTerrain object sets its neighbor to the neighbor's height plus one,
    which is at most the height of the object's own tile before that tick
    plus 2, and every delta of a LowerTerrain object sets its neighbor to
    the neighbor's height minus one, which is at least 0. Accordingly every
    tile whose height differs after that tick was raised by one by an
    adjacent RaiseTerrain object to at most that object's tile height before
    the tick plus 2, or lowered by one by an adjacent LowerTerrain object to
    at least 0, or set by an adjacent RaiseWater object to its tile height
    before the tick. *)
Theorem terrain_clamp (objects : list PlacedObject) (map0 : Map) (k : nat) :
  populated map0 → nonNegative map0 → Forall onGrid objects →
  ∃ map,
    ticks k objects map0 = Ok map ∧ populated map ∧ nonNegative map ∧
    (∀ obj changes c own neighbor,
       obj ∈ objects → objectChanges map [] obj = Ok changes → c ∈ changes →
       getTile map (obj_x obj) (obj_y obj) = Ok own →
       getTile map (ch_x c) (ch_y c) = Ok neighbor →
       adjacent (obj_x obj) (obj_y obj) (ch_x c) (ch_y c) ∧
       (obj_effect obj = raise_terrain →
          ch_height c = Some (height neighbor + 1) ∧ height neighbor + 1 ≤ height own + 2) ∧
       (obj_effect obj = lower_terrain →
          ch_height c = Some (height neighbor - 1) ∧ 0 ≤ height neighbor - 1)) ∧
    ∃ map',
      updateMap objects map = Ok map' ∧
      ∀ x y tile tile',
        getTile map x y = Ok tile → getTile map' x y = Ok tile' →
        height tile' = height tile ∨
        ∃ obj own,
          obj ∈ objects ∧ adjacent (obj_x obj) (obj_y obj) x y ∧
          getTile map (obj_x obj) (obj_y obj) = Ok own ∧
          ((obj_effect obj = raise_terrain ∧
            height tile' = height tile + 1 ∧ height tile' ≤ height own + 2) ∨
           (obj_effect obj = lower_terrain ∧
            height tile' = height tile - 1 ∧ 0 ≤ height tile') ∨
           (obj_effect obj = raise_water ∧ height tile' = height own)).
Proof.
  intros Hpop Hnn Hobjs.
  destruct (ticks_total k objects map0 Hpop Hobjs) as (map & Hticks & Hpopk).
  exists map. split; [done|]. split; [done|].
  split; [by apply (ticks_nonNegative k objects map0)|].
  destruct (updateMap_spec objects map Hpopk Hobjs) as (map' & Hup & _ & Hget).
  rewrite Forall_forall in Hobjs.
  split.
  - intros obj changes c own neighbor Hobj Hchanges Hc Hown Hnb.
    rewrite objectChanges_deltasOf in Hchanges by auto.
    injection Hchanges as <-.
    split; [by apply (deltasOf_target map)|]. split; intros Heff.
    + destruct (deltasOf_raise_terrain map obj c Heff Hc) as (_ & Hh & Hle).
      by rewrite (tileAt_getTile _ _ _ _ Hown), (tileAt_getTile _ _ _ _ Hnb) in *.
    + destruct (deltasOf_lower_terrain map obj c Heff Hc) as (_ & Hh & Hle).
      by rewrite (tileAt_getTile _ _ _ _ Hnb) in *.
  - exists map'. split; [done|].
    intros x y tile tile' Htile Htile'.
    rewrite (Hget _ _ _ Htile) in Htile'. injection Htile' as <-.
    destruct (foldl_changeTile_height_origin x y tile (flat_map (deltasOf map) objects))
      as [Hkept|(c & (obj & Hobj & Hc)%elem_of_batch & [<- <-] & Hh)]; [by left|].
    right. destruct (Hpopk _ _ (Hobjs obj Hobj)) as [own Hown].
    exists obj, own. split; [done|].
    split; [by apply (deltasOf_target map)|]. split; [done|].
    destruct (obj_effect obj) eqn:Heff.
    + right; right. split; [done|].
      destruct (deltasOf_raise_water map obj c Heff Hc) as (_ & Hw).
      rewrite (tileAt_getTile _ _ _ _ Hown) in Hw. congruence.
    + right; left. split; [done|].
      destruct (deltasOf_lower_terrain map obj c Heff Hc) as (_ & Hl & Hge).
      rewrite (tileAt_getTile _ _ _ _ Htile) in *.
      assert (height (foldl (changeTile (ch_x c) (ch_y c)) tile
                            (flat_map (deltasOf map) objects)) = height tile - 1)
        by congruence.
      lia.
    + left. split; [done|].
      destruct (deltasOf_raise_terrain map obj c Heff Hc) as (_ & Hr & Hle).
      rewrite (tileAt_getTile _ _ _ _ Htile), (tileAt_getTile _ _ _ _ Hown) in *.
      assert (height (foldl (changeTile (ch_x c) (ch_y c)) tile
                            (flat_map (deltasOf map) objects)) = height tile + 1)
        by congruence.
      lia.
    + destruct (deltasOf_spread_grass map obj c Heff Hc) as (_ & Hnone). congruence.
Qed.

Lemma terrain_clamp_witness :
  ∃ map,
    ticks 3 [mkObject 8 5 obelisk raise_terrain; mkObject 3 3 excavator lower_terrain] lowMap
    = Ok map ∧ populated map ∧ nonNegative map.
Proof.
  destruct (terrain_clamp
              [mkObject 8 5 obelisk raise_terrain; mkObject 3 3 excavator lower_terrain]
              lowMap 3) as (map & Hticks & Hpop & Hnn & _).
  - apply populatedb_populated. vm_compute. reflexivity.
  - apply nonNegativeb_nonNegative. vm_compute. reflexivity.
  - repeat constructor; simpl; unfold gridSize; lia.
  - exists map. auto.
Defined.


(** ** Several deltas on one tile *)

(** C4, as stated, fails: deltas are partial. On the generated map whose
    grass tiles all have height 1, with an obelisk placed at (8,5) and then
    a tree at (7,6), the lake tile (8,6) receives the obelisk's height delta
    and then the tree's type delta; after the tick it is Grass of height 1,
    not the Grass of height 0 that the last delta alone gives. *)
Lemma lastDeltaDetermines_fails :
  ¬ lastDeltaDetermines [mkObject 8 5 obelisk raise_terrain; mkObject 7 6 tree spread_grass]
                        lowMap.
Proof.
  intros Hclaim.
  specialize (Hclaim
    [mkChange 7 5 None (Some 2); mkChange 9 5 None (Some 2); mkChange 8 4 None (Some 2);
     mkChange 8 6 None (Some 1); mkChange 8 6 (Some GRASS) None; mkChange 7 7 (Some GRASS) None]
    lowMapObeliskTree
    [mkChange 7 5 None (Some 2); mkChange 9 5 None (Some 2); mkChange 8 4 None (Some 2);
     mkChange 8 6 None (Some 1)]
    (mkChange 8 6 (Some GRASS) None)
    [mkChange 7 7 (Some GRASS) None]
    8 6 (mkTile WATER 0)).
  assert (Hbad : getTile lowMapObeliskTree 8 6
                 = Ok (changeTile 8 6 (mkTile WATER 0) (mkChange 8 6 (Some GRASS) None))).
  { apply Hclaim.
    - vm_compute. reflexivity.
    - vm_compute. reflexivity.
    - reflexivity.
    - split; reflexivity.
    - intros c' ->%list_elem_of_singleton [Hx _]. simpl in Hx. lia.
    - vm_compute. reflexivity. }
  vm_compute in Hbad. discriminate Hbad.
Qed.

Lemma objectChanges_alone map obj :
  populated map → onGrid obj → objectChanges map [] obj = Ok (deltasOf map obj).
Proof. intros. by rewrite objectChanges_deltasOf. Qed.

(** C4, as amended. One tick computes the whole batch of deltas from the map
    as it is before the tick: the batch is the concatenation, in object
    order, of what each object computes on its own from that map. When
    several deltas target one tile, each field is decided separately: the
    height after the tick is that of the last delta carrying a height, the
    type is that of the last delta carrying a type, and a field carried by
    no delta keeps its value. *)
Theorem batched_last_wins_per_field (objects : list PlacedObject) (map : Map) :
  populated map → Forall onGrid objects →
  ∃ changes map',
    collectChanges map objects = Ok changes ∧
    updateMap objects map = Ok map' ∧
    applyChanges map changes = Ok map' ∧
    (∀ earlier obj later, objects = earlier ++ obj :: later →
       ∃ changes1 changes2 changes3,
         collectChanges map earlier = Ok changes1 ∧
         objectChanges map [] obj = Ok changes2 ∧
         collectChanges map later = Ok changes3 ∧
         changes = changes1 ++ changes2 ++ changes3) ∧
    ∀ x y tile, getTile map x y = Ok tile →
      ∃ tile', getTile map' x y = Ok tile' ∧
        (∀ before c after h,
           changes = before ++ c :: after → targets c x y → ch_height c = Some h →
           (∀ c', c' ∈ after → targets c' x y → ch_height c' = None) →
           height tile' = h) ∧
        (∀ before c after t,
           changes = before ++ c :: after → targets c x y → ch_type c = Some t →
           (∀ c', c' ∈ after → targets c' x y → ch_type c' = None) →
           type tile' = t) ∧
        ((∀ c, c ∈ changes → targets c x y → ch_height c = None) →
         height tile' = height tile) ∧
        ((∀ c, c ∈ changes → targets c x y → ch_type c = None) →
         type tile' = type tile).
Proof.
  intros Hpop Hobjs.
  destruct (updateMap_spec objects map Hpop Hobjs) as (map' & Hup & _ & Hget).
  exists (flat_map (deltasOf map) objects), map'.
  pose proof (collectChanges_deltasOf map objects Hpop Hobjs) as Hcollect.
  split; [done|]. split; [done|]. split.
  { unfold updateMap in Hup. by rewrite Hcollect in Hup. }
  split.
  - intros earlier obj later ->.
    apply Forall_app in Hobjs as [Hearlier [Hobj Hlater]%Forall_cons].
    exists (flat_map (deltasOf map) earlier), (deltasOf map obj),
           (flat_map (deltasOf map) later).
    rewrite !collectChanges_deltasOf, objectChanges_alone by done.
    by rewrite flat_map_app.
  - intros x y tile Htile. eexists. split; [by apply Hget|].
    split; [|split; [|split]].
    + intros before c after h ->. by apply foldl_changeTile_last_height.
    + intros before c after t ->. by apply foldl_changeTile_last_type.
    + apply foldl_changeTile_height_kept.
    + apply foldl_changeTile_type_kept.
Qed.

Lemma batched_last_wins_per_field_witness :
  ∃ changes map',
    collectChanges lowMap [mkObject 8 5 obelisk raise_terrain; mkObject 7 6 tree spread_grass]
    = Ok changes ∧
    updateMap [mkObject 8 5 obelisk raise_terrain; mkObject 7 6 tree spread_grass] lowMap
    = Ok map' ∧
    applyChanges lowMap changes = Ok map'.
Proof.
  destruct (batched_last_wins_per_field
              [mkObject 8 5 obelisk raise_terrain; mkObject 7 6 tree spread_grass] lowMap)
    as (changes & map' & Hcollect & Hup & Happly & _).
  - apply populatedb_populated. vm_compute. reflexivity.
  - repeat constructor; simpl; unfold gridSize; lia.
  - exists changes, map'. auto.
Defined.

(** ** Placing objects *)

Lemma find_occupied x y objects :
  occupied x y objects ↔
  ∃ obj, List.find (fun obj => bool_decide (obj_x obj = x) && bool_decide (obj_y obj = y))
                   objects = Some obj.
Proof.
  split.
  - intros (obj & Hin & Hx & Hy).
    destruct (List.find _ objects) as [found|] eqn:Hfind; [eauto|].
    apply list_elem_of_In in Hin.
    pose proof (find_none _ _ Hfind obj Hin) as Hno. simpl in Hno.
    rewrite !bool_decide_eq_true_2 in Hno by done. done.
  - intros [obj Hfind]. apply find_some in Hfind as [Hin Htest].
    apply andb_prop in Htest as [?%bool_decide_eq_true ?%bool_decide_eq_true].
    exists obj. by rewrite list_elem_of_In.
Qed.

Lemma handleCanvasClick_distinct selectedTool hoveredTile objects :
  distinctCells objects →
  distinctCells (handleCanvasClick selectedTool hoveredTile objects).1.
Proof.
  intros Hdistinct. unfold handleCanvasClick.
  destruct selectedTool as [tool|]; [|done].
  destruct hoveredTile as [[x y]|]; [|done].
  destruct (List.find _ objects) as [found|] eqn:Hfind; [done|]. simpl.
  unfold distinctCells. rewrite fmap_app. apply NoDup_app. split; [done|].
  split; [|apply NoDup_singleton].
  intros cell (obj & -> & Hin)%list_elem_of_fmap [= Hx Hy]%list_elem_of_singleton.
  simpl in Hx, Hy. subst x y.
  assert (occupied (obj_x obj) (obj_y obj) objects) as Hocc by (by exists obj).
  apply find_occupied in Hocc as [? Hsome]. congruence.
Qed.

(** C5. Clicking, with a tool selected, on a cell that already holds an
    object shows the AlreadyOccupied message and leaves the object list
    unchanged; on a free cell the new object, whose effect is the one of its
    kind, is appended; kinds and effects correspond one to one; and after any
    sequence of clicks no two objects share a cell. *)
Theorem placement_occupancy (tool : Tool) (x y : Z) (objects : list PlacedObject) :
  (occupied x y objects →
     handleCanvasClick (Some tool) (Some (x, y)) objects = (objects, Some AlreadyOccupied)) ∧
  (¬ occupied x y objects →
     handleCanvasClick (Some tool) (Some (x, y)) objects
     = (objects ++ [mkObject x y tool (OBJECT_TYPES_effect tool)], None)) ∧
  (∀ tool', OBJECT_TYPES_effect tool = OBJECT_TYPES_effect tool' → tool = tool') ∧
  (∀ effect, ∃ tool', OBJECT_TYPES_effect tool' = effect) ∧
  (∀ clicks, distinctCells objects → distinctCells (clickAll clicks objects)) ∧
  (∀ clicks, distinctCells (clickAll clicks [])).
Proof.
  assert (Hall : ∀ clicks objs, distinctCells objs → distinctCells (clickAll clicks objs)).
  { intros clicks. unfold clickAll.
    induction clicks as [|click clicks IH]; intros objs Hobjs; simpl; [done|].
    by apply IH, handleCanvasClick_distinct. }
  split; [|split; [|split; [|split; [|split]]]].
  - intros [obj Hfind]%find_occupied. unfold handleCanvasClick. by rewrite Hfind.
  - intros Hfree. unfold handleCanvasClick.
    destruct (List.find _ objects) as [found|] eqn:Hfind; [|done].
    destruct Hfree. apply find_occupied. eauto.
  - intros tool'. by destruct tool, tool'.
  - intros []; [by exists fountain|by exists excavator|by exists obelisk|by exists tree].
  - intros clicks. apply Hall.
  - intros clicks. apply Hall. constructor.
Qed.

(** ** Picking *)

Lemma getRotatedCoords_inGrid rotation x y :
  inGrid x y →
  inGrid (getRotatedCoords rotation x y).1 (getRotatedCoords rotation x y).2.
Proof.
  unfold getRotatedCoords, inGrid, gridSize. repeat case_decide; simpl; lia.
Qed.

Lemma getInverseRotatedCoords_inGrid rotation x y :
  inGrid x y →
  inGrid (getInverseRotatedCoords rotation x y).1 (getInverseRotatedCoords rotation x y).2.
Proof.
  unfold getInverseRotatedCoords, inGrid, gridSize. repeat case_decide; simpl; lia.
Qed.

Section PickingLoops.
Context {num : Type} `{Number num}.
Variable rotation : Z.
Variable map : Map.
Variables mouseX adjustedMouseY : num.

Lemma pickInRow_skip y xs1 xs2 :
  (∀ x, x ∈ xs1 → pickCell rotation map mouseX adjustedMouseY x y = Ok None) →
  pickInRow rotation map mouseX adjustedMouseY y (xs1 ++ xs2)
  = pickInRow rotation map mouseX adjustedMouseY y xs2.
Proof.
  induction xs1 as [|x xs1 IH]; intros Hnone; cbn [app pickInRow]; [done|].
  rewrite Hnone by left. cbn [bind]. apply IH. intros; apply Hnone; by right.
Qed.

Lemma pickInRow_none y xs :
  (∀ x, x ∈ xs → pickCell rotation map mouseX adjustedMouseY x y = Ok None) →
  pickInRow rotation map mouseX adjustedMouseY y xs = Ok None.
Proof.
  intros Hnone. rewrite <- (app_nil_r xs). by rewrite pickInRow_skip.
Qed.

Lemma pickInRows_skip ys1 ys2 :
  (∀ y, y ∈ ys1 →
        pickInRow rotation map mouseX adjustedMouseY y (seqZ 0 gridSize) = Ok None) →
  pickInRows rotation map mouseX adjustedMouseY (ys1 ++ ys2)
  = pickInRows rotation map mouseX adjustedMouseY ys2.
Proof.
  induction ys1 as [|y ys1 IH]; intros Hnone; cbn [app pickInRows]; [done|].
  rewrite Hnone by left. cbn [bind]. apply IH. intros; apply Hnone; by right.
Qed.

Lemma pickInRows_none ys :
  (∀ y, y ∈ ys →
        pickInRow rotation map mouseX adjustedMouseY y (seqZ 0 gridSize) = Ok None) →
  pickInRows rotation map mouseX adjustedMouseY ys = Ok None.
Proof.
  intros Hnone. rewrite <- (app_nil_r ys). by rewrite pickInRows_skip.
Qed.

Lemma pickInRow_first vx y mapCoords :
  0 ≤ vx < gridSize →
  (∀ x, 0 ≤ x < vx → pickCell rotation map mouseX adjustedMouseY x y = Ok None) →
  pickCell rotation map mouseX adjustedMouseY vx y = Ok (Some mapCoords) →
  pickInRow rotation map mouseX adjustedMouseY y (seqZ 0 gridSize) = Ok (Some mapCoords).
Proof.
  intros Hvx Hbefore Hhit.
  replace gridSize with (vx + (gridSize - vx)) by lia.
  rewrite seqZ_app, Z.add_0_l by lia. rewrite pickInRow_skip.
  - rewrite seqZ_cons by lia. cbn [pickInRow]. by rewrite Hhit.
  - intros x Hx%elem_of_seqZ. apply Hbefore. lia.
Qed.

(** The scan returns at the first screen grid position, in row-major order,
    whose cell accepts the pointer. *)
Lemma pickInRows_first vx vy mapCoords :
  inGrid vx vy →
  (∀ x y, inGrid x y → y < vy ∨ (y = vy ∧ x < vx) →
          pickCell rotation map mouseX adjustedMouseY x y = Ok None) →
  pickCell rotation map mouseX adjustedMouseY vx vy = Ok (Some mapCoords) →
  pickInRows rotation map mouseX adjustedMouseY (seqZ 0 gridSize) = Ok (Some mapCoords).
Proof.
  intros [Hvx Hvy] Hbefore Hhit.
  assert (Hrow : pickInRow rotation map mouseX adjustedMouseY vy (seqZ 0 gridSize)
                 = Ok (Some mapCoords)).
  { apply (pickInRow_first vx); [done| |done].
    intros x Hx. apply Hbefore; [split; lia|lia]. }
  replace gridSize with (vy + (gridSize - vy)) at 1 by lia.
  rewrite seqZ_app, Z.add_0_l by lia. rewrite pickInRows_skip.
  - rewrite seqZ_cons by lia. cbn [pickInRows]. by rewrite Hrow.
  - intros y Hy%elem_of_seqZ. apply pickInRow_none.
    intros x Hx%elem_of_seqZ. apply Hbefore; [split; lia|lia].
Qed.

End PickingLoops.

(** C8. On a fully populated map, a pointer position that passes the
    diamond containment test (both transformed axes of absolute value below
    1) for no screen grid cell makes [screenToIso] return [null]. *)
Theorem screenToIso_miss {num : Type} `{Number num} (rotation : Z) (map : Map)
    (mouseX mouseY : num) :
  populated map →
  (∀ x y tile,
     inGrid x y →
     getTile map (getRotatedCoords rotation x y).1 (getRotatedCoords rotation x y).2
     = Ok tile →
     inDiamond mouseX (num_sub mouseY (num_of_Z 100)) (isoToScreen x y)
               ((isoToScreen x y).2 - height tile * heightStep) = false) →
  screenToIso rotation map mouseX mouseY = Ok None.
Proof.
  intros Hpop Hmiss. unfold screenToIso. apply pickInRows_none.
  intros y Hy%elem_of_seqZ. apply pickInRow_none.
  intros x Hx%elem_of_seqZ.
  assert (Hin : inGrid x y) by (split; lia).
  unfold pickCell.
  destruct (Hpop _ _ (getRotatedCoords_inGrid rotation x y Hin)) as [tile Htile].
  rewrite Htile. cbn [bind]. rewrite (Hmiss x y tile Hin Htile).
  by destruct (inTileArea _ _ _ _).
Qed.

Lemma missesEveryDiamond_spec {num : Type} `{Number num} rotation map (mouseX mouseY : num) :
  missesEveryDiamond rotation map mouseX mouseY = true →
  ∀ x y tile,
    inGrid x y →
    getTile map (getRotatedCoords rotation x y).1 (getRotatedCoords rotation x y).2
    = Ok tile →
    inDiamond mouseX (num_sub mouseY (num_of_Z 100)) (isoToScreen x y)
              ((isoToScreen x y).2 - height tile * heightStep) = false.
Proof.
  unfold missesEveryDiamond. rewrite forallb_forall. intros Hall x y tile [Hx Hy] Htile.
  specialize (Hall y). rewrite forallb_forall in Hall.
  assert (Hyin : In y (seqZ 0 gridSize)).
  { apply list_elem_of_In, elem_of_seqZ. lia. }
  assert (Hxin : In x (seqZ 0 gridSize)).
  { apply list_elem_of_In, elem_of_seqZ. lia. }
  specialize (Hall Hyin x Hxin). rewrite Htile in Hall.
  by apply negb_true_iff in Hall.
Qed.

Lemma screenToIso_miss_witness :
  screenToIso (num := Q) 1 lowMap 0%Q 0%Q = Ok None.
Proof.
  apply (screenToIso_miss 1 lowMap 0%Q 0%Q).
  - apply populatedb_populated. vm_compute. reflexivity.
  - apply missesEveryDiamond_spec. vm_compute. reflexivity.
Defined.

(** ** Picking at the center of a top face, over the rationals *)

Lemma Q_abs_below_one (t : Q) (z : Z) :
  (t == inject_Z z)%Q → negb (Qle_bool 1 (Qabs t)) = true ↔ z = 0.
Proof.
  intros Ht. rewrite negb_true_iff, <- not_true_iff_false, Qle_bool_iff, Ht.
  change (Qabs (inject_Z z)) with (inject_Z (Z.abs z)).
  change 1%Q with (inject_Z 1). rewrite <- Zle_Qle. lia.
Qed.

Ltac inject_Z_field :=
  unfold Z.sub; rewrite !inject_Z_plus, ?inject_Z_mult, ?inject_Z_opp;
  change (inject_Z 32) with (32 # 1)%Q; change (inject_Z 16) with (16 # 1)%Q;
  change (inject_Z 100) with (100 # 1)%Q; field.

(** With the pointer [a] half-widths to the right and [b] half-heights below
    the center of a cell's diamond, the cell accepts it only at the center. *)
Lemma inDiamond_center_iff (sx sy ty a b : Z) :
  inDiamond (num := Q) (inject_Z (sx + 32 * a + isoTileWidth / 2))
            (num_sub (inject_Z (ty + 16 * b + 100)) (num_of_Z 100)) (sx, sy) ty = true
  ↔ a = 0 ∧ b = 0.
Proof.
  unfold inDiamond.
  change (isoTileWidth / 2) with 32. change (isoTileHeight / 2) with 16.
  cbn [num_sub num_add num_div num_abs num_ltb num_of_Z Q_Number fst snd].
  rewrite andb_true_iff.
  rewrite (Q_abs_below_one _ (a + b)), (Q_abs_below_one _ (b - a)); [lia| |];
    inject_Z_field.
Qed.

Lemma inTileArea_center (sx sy ty : Z) :
  inTileArea (num := Q) (inject_Z (sx + isoTileWidth / 2))
             (num_sub (inject_Z (ty + 100)) (num_of_Z 100)) (sx, sy) ty = true.
Proof.
  unfold inTileArea.
  change (isoTileWidth / 2) with 32. change isoTileWidth with 64.
  change isoTileHeight with 32.
  cbn [num_sub num_leb num_of_Z Q_Number fst snd].
  assert (Hadj : (inject_Z (ty + 100) - inject_Z 100 == inject_Z ty)%Q) by inject_Z_field.
  rewrite !andb_true_iff, !Qle_bool_iff, Hadj, <- !Zle_Qle. lia.
Qed.

Lemma isoToScreen_pixels x y :
  isoToScreen x y = ((x - y) * 32 + 544 - 32, (x + y) * 16).
Proof. reflexivity. Qed.

(** C7, as stated, fails: on the generated map whose grass tiles all have
    height 2, without rotation, the top face of the tile (10,10) is centered
    on the same canvas point as the top face of the lake tile (9,9), which
    the scan reaches first. *)
Lemma center_pick_occluded :
  getTile highMap 10 10 = Ok (mkTile GRASS 2) ∧
  screenToIso 0 highMap (inject_Z (topFaceCenter 10 10 (mkTile GRASS 2)).1)
                        (inject_Z (topFaceCenter 10 10 (mkTile GRASS 2)).2)
  = Ok (Some (9, 9)) ∧
  ¬ centerPickReturnsTile 0 highMap 10 10.
Proof.
  assert (Htile : getTile highMap 10 10 = Ok (mkTile GRASS 2)) by (vm_compute; reflexivity).
  assert (Hpick : screenToIso 0 highMap (inject_Z (topFaceCenter 10 10 (mkTile GRASS 2)).1)
                              (inject_Z (topFaceCenter 10 10 (mkTile GRASS 2)).2)
                  = Ok (Some (9, 9))) by (vm_compute; reflexivity).
  split; [done|]. split; [done|].
  intros Hclaim. specialize (Hclaim _ Htile).
  change (screenToIso 0 highMap (inject_Z (topFaceCenter 10 10 (mkTile GRASS 2)).1)
                      (inject_Z (topFaceCenter 10 10 (mkTile GRASS 2)).2)
          = Ok (Some (10, 10))) in Hclaim.
  rewrite Hpick in Hclaim. discriminate Hclaim.
Qed.

(** C7, as amended. For every rotation state in 0..3 and every tile of a
    fully populated grid, the pointer put exactly on the center of the
    tile's projected top face picks that tile, provided that no cell [k]
    steps up the screen column of the tile (screen grid position
    [(vx - k, vy - k)], [k ≥ 1]) holds a tile exactly [2 k] levels lower,
    whose top face would be centered on the same point and scanned
    earlier. *)
Theorem center_pick_unoccluded (rotation : Z) (map : Map) (gx gy : Z) (tile : Tile) :
  0 ≤ rotation ≤ 3 →
  populated map →
  inGrid gx gy →
  getTile map gx gy = Ok tile →
  (∀ k tile',
     1 ≤ k →
     inGrid ((getInverseRotatedCoords rotation gx gy).1 - k)
            ((getInverseRotatedCoords rotation gx gy).2 - k) →
     getTile map
       (getRotatedCoords rotation ((getInverseRotatedCoords rotation gx gy).1 - k)
                                  ((getInverseRotatedCoords rotation gx gy).2 - k)).1
       (getRotatedCoords rotation ((getInverseRotatedCoords rotation gx gy).1 - k)
                                  ((getInverseRotatedCoords rotation gx gy).2 - k)).2
     = Ok tile' →
     height tile' ≠ height tile - 2 * k) →
  screenToIso rotation map
    (inject_Z (topFaceCenter (getInverseRotatedCoords rotation gx gy).1
                             (getInverseRotatedCoords rotation gx gy).2 tile).1)
    (inject_Z (topFaceCenter (getInverseRotatedCoords rotation gx gy).1
                             (getInverseRotatedCoords rotation gx gy).2 tile).2)
  = Ok (Some (gx, gy)).
Proof.
  intros _ Hpop Hin Htile Hclear.
  pose proof (getRotatedCoords_inverse rotation gx gy) as Hback.
  pose proof (getInverseRotatedCoords_inGrid rotation gx gy Hin) as Hvin.
  destruct (getInverseRotatedCoords rotation gx gy) as [vx vy]. cbn [fst snd] in *.
  unfold screenToIso, topFaceCenter. rewrite isoToScreen_pixels. cbn [fst snd].
  change heightStep with 16.
  apply (pickInRows_first _ _ _ _ vx vy); [done| |].
  - intros x y Hxy Hbefore. unfold pickCell.
    destruct (Hpop _ _ (getRotatedCoords_inGrid rotation x y Hxy)) as [tile' Htile'].
    rewrite Htile'. cbn [bind]. rewrite isoToScreen_pixels. cbn [fst snd].
    change heightStep with 16.
    destruct (inTileArea _ _ _ _); [|done].
    replace ((vx - vy) * 32 + 544 - 32 + isoTileWidth / 2)
      with ((x - y) * 32 + 544 - 32 + 32 * ((vx - vy) - (x - y)) + isoTileWidth / 2) by lia.
    replace ((vx + vy) * 16 - height tile * 16 + 100)
      with ((x + y) * 16 - height tile' * 16
            + 16 * ((vx + vy - height tile) - (x + y - height tile')) + 100) by lia.
    destruct (inDiamond _ _ _ _) eqn:Hhit; [|done].
    apply inDiamond_center_iff in Hhit as [Ha Hb].
    destruct (Hclear (vy - y) tile').
    + lia.
    + unfold inGrid in *. replace (vx - (vy - y)) with x by lia.
      replace (vy - (vy - y)) with y by lia. done.
    + replace (vx - (vy - y)) with x by lia. replace (vy - (vy - y)) with y by lia. done.
    + lia.
  - unfold pickCell. rewrite Hback. cbn [fst snd]. rewrite Htile. cbn [bind].
    rewrite isoToScreen_pixels. cbn [fst snd]. change heightStep with 16.
    rewrite inTileArea_center.
    replace ((vx - vy) * 32 + 544 - 32 + isoTileWidth / 2)
      with ((vx - vy) * 32 + 544 - 32 + 32 * 0 + isoTileWidth / 2) by lia.
    replace ((vx + vy) * 16 - height tile * 16 + 100)
      with ((vx + vy) * 16 - height tile * 16 + 16 * 0 + 100) by lia.
    by rewrite (proj2 (inDiamond_center_iff _ _ _ 0 0)).
Qed.

Lemma center_pick_unoccluded_witness :
  screenToIso 1 lowMap
    (inject_Z (topFaceCenter (getInverseRotatedCoords 1 14 3).1
                             (getInverseRotatedCoords 1 14 3).2 (mkTile GRASS 1)).1)
    (inject_Z (topFaceCenter (getInverseRotatedCoords 1 14 3).1
                             (getInverseRotatedCoords 1 14 3).2 (mkTile GRASS 1)).2)
  = Ok (Some (14, 3)).
Proof.
  apply (center_pick_unoccluded 1 lowMap 14 3 (mkTile GRASS 1)).
  - lia.
  - apply populatedb_populated. vm_compute. reflexivity.
  - unfold inGrid, gridSize. lia.
  - vm_compute. reflexivity.
  - change (getInverseRotatedCoords 1 14 3) with (3, 1). cbn [fst snd].
    intros k tile' Hk Hin Htile'.
    assert (k = 1) as -> by (unfold inGrid in Hin; lia).
    vm_compute in Htile'. injection Htile' as <-. simpl. lia.
Defined.

(** ** Map generation *)

Lemma foldM_fmap {A B S} (g : B → A) (body : S → A → result S) s (l : list B) :
  foldM body s (g <$> l) = foldM (fun s b => body s (g b)) s l.
Proof.
  revert s. induction l as [|b l IH]; intros s; simpl; [done|].
  destruct (body s (g b)); simpl; [apply IH|done].
Qed.

(** Two nested loops are one loop over the pairs of indices. *)
Lemma foldM_nested {A B S} (body : A → S → B → result S) s (l1 : list A) (l2 : list B) :
  foldM (fun s a => foldM (body a) s l2) s l1
  = foldM (fun s (p : A * B) => body p.1 s p.2) s (list_prod l1 l2).
Proof.
  revert s. induction l1 as [|a l1 IH]; intros s; simpl; [done|].
  rewrite foldM_app.
  change (List.map (fun y : B => (a, y)) l2) with ((fun y : B => (a, y)) <$> l2).
  rewrite foldM_fmap. simpl.
  destruct (foldM (body a) s l2); simpl; [apply IH|done].
Qed.

Lemma carveCell_spec lakeX lakeY i map j :
  ∃ map', carveCell lakeX lakeY i map j = Ok map' ∧
    ∀ x y tile, getTile map x y = Ok tile →
      (carved lakeX lakeY x y (i, j) ∧ getTile map' x y = Ok (mkTile WATER 0)) ∨
      (¬ carved lakeX lakeY x y (i, j) ∧ getTile map' x y = Ok tile).
Proof.
  unfold carveCell, carved. cbn [fst snd].
  destruct (_ <? 3) eqn:Hnear.
  - destruct (map !! (lakeY + i)) as [row|] eqn:Hrow.
    + destruct (row !! (lakeX + j)) as [old|] eqn:Hold.
      * assert (Hget : getTile map (lakeX + j) (lakeY + i) = Ok old).
        { unfold getTile. by rewrite Hrow, Hold. }
        destruct (setTile_defined _ _ _ _ (mkTile WATER 0) Hget) as [map' Hset].
        exists map'. split; [done|]. intros x y tile Htile.
        rewrite (getTile_setTile _ _ _ _ _ x y Hset).
        case_decide as Hxy; [left|right]; (split; [lia|done]).
      * exists map. split; [done|]. intros x y tile Htile. right. split; [|done].
        intros (_ & -> & ->). unfold getTile in Htile. by rewrite Hrow, Hold in Htile.
    + exists map. split; [done|]. intros x y tile Htile. right. split; [|done].
      intros (_ & -> & ->). unfold getTile in Htile. by rewrite Hrow in Htile.
  - exists map. split; [done|]. intros x y tile Htile. right. split; [lia|done].
Qed.

Lemma carve_loop lakeX lakeY (offsets : list (Z * Z)) map :
  ∃ map', foldM (fun map (p : Z * Z) => carveCell lakeX lakeY p.1 map p.2) map offsets
          = Ok map' ∧
    ∀ x y tile, getTile map x y = Ok tile →
      ((∃ p, p ∈ offsets ∧ carved lakeX lakeY x y p) ∧
       getTile map' x y = Ok (mkTile WATER 0)) ∨
      ((∀ p, p ∈ offsets → ¬ carved lakeX lakeY x y p) ∧ getTile map' x y = Ok tile).
Proof.
  revert map. induction offsets as [|[i j] offsets IH]; intros map.
  - exists map. split; [done|]. intros x y tile Htile. right. split; [|done].
    intros p Hp. by apply not_elem_of_nil in Hp.
  - destruct (carveCell_spec lakeX lakeY i map j) as (m1 & Hm1 & Hcell).
    destruct (IH m1) as (m2 & Hm2 & Hrest).
    exists m2. simpl. rewrite Hm1. simpl. split; [done|].
    intros x y tile Htile.
    destruct (Hcell x y tile Htile) as [[Hc Hg1]|[Hc Hg1]];
      destruct (Hrest x y _ Hg1) as [[[p [Hp Hcp]] Hg2]|[Hnone Hg2]].
    + left. split; [|done]. exists p. split; [by right|done].
    + left. split; [|done]. exists (i, j). split; [by left|done].
    + left. split; [|done]. exists p. split; [by right|done].
    + right. split; [|done]. intros p [->|Hp]%elem_of_cons; auto.
Qed.

Section GenerationProperties.
Variable random : nat → Q.
Hypothesis random_range : ∀ k, (0 <= random k)%Q ∧ (random k < 1)%Q.

Lemma random_height k :
  Qfloor (random k * 2) + 1 = 1 ∨ Qfloor (random k * 2) + 1 = 2.
Proof.
  destruct (random_range k) as [Hlo Hhi].
  assert (0 ≤ Qfloor (random k * 2)).
  { change 0 with (Qfloor (inject_Z 0)). apply Qfloor_resp_le.
    change (inject_Z 0) with (0 * 2)%Q. by apply Qmult_le_compat_r. }
  assert (Qfloor (random k * 2) < 2).
  { rewrite Zlt_Qlt. eapply Qle_lt_trans; [apply Qfloor_le|].
    change (inject_Z 2) with (1 * 2)%Q. by apply Qmult_lt_compat_r. }
  lia.
Qed.

Lemma fillCells_spec y xs map k :
  is_Some (map !! y) →
  ∃ map' k', foldM (fillCell random y) (map, k) xs = Ok (map', k') ∧
    is_Some (map' !! y) ∧
    (∀ x' y', y' ≠ y → getTile map' x' y' = getTile map x' y') ∧
    (∀ x, x ∈ xs ∨ grassCell map x y → grassCell map' x y).
Proof.
  revert map k. induction xs as [|x0 xs IH]; intros map k Hrow.
  - exists map, k. repeat split; try done. by intros x [?%not_elem_of_nil|?].
  - destruct Hrow as [row Hrow].
    assert (Hset : setTile map x0 y (mkTile GRASS (Qfloor (random k * 2) + 1))
                   = Ok (<[y := <[x0 := mkTile GRASS (Qfloor (random k * 2) + 1)]> row]> map)).
    { unfold setTile. by rewrite Hrow. }
    destruct (IH (<[y := <[x0 := mkTile GRASS (Qfloor (random k * 2) + 1)]> row]> map) (S k))
      as (map' & k' & Hloop & Hsome & Hother & Hgrass).
    { rewrite lookup_insert_eq. eauto. }
    exists map', k'. cbn [foldM]. unfold fillCell at 1. cbn [fst snd].
    rewrite Hset. cbn [bind]. split; [done|]. split; [done|]. split.
    + intros x' y' Hy. rewrite Hother by done.
      rewrite (getTile_setTile _ _ _ _ _ x' y' Hset). by rewrite decide_False by tauto.
    + intros x Hx. apply Hgrass.
      destruct (decide (x = x0)) as [->|Hne].
      * right. exists (Qfloor (random k * 2) + 1). split; [apply random_height|].
        rewrite (getTile_setTile _ _ _ _ _ x0 y Hset). by rewrite decide_True.
      * destruct Hx as [[->|Hx]%elem_of_cons|(h & Hh & Hget)]; [done|by left|].
        right. exists h. split; [done|].
        rewrite (getTile_setTile _ _ _ _ _ x y Hset). by rewrite decide_False by tauto.
Qed.

Lemma fillRows_spec ys map k :
  ∃ map' k', foldM (fillRow random) (map, k) ys = Ok (map', k') ∧
    ∀ x y, 0 ≤ x < gridSize → y ∈ ys ∨ grassCell map x y → grassCell map' x y.
Proof.
  revert map k. induction ys as [|y0 ys IH]; intros map k.
  - exists map, k. split; [done|]. by intros x y _ [?%not_elem_of_nil|?].
  - destruct (fillCells_spec y0 (seqZ 0 gridSize) (<[y0 := ∅]> map) k)
      as (m1 & k1 & Hm1 & _ & Hother & Hgrass).
    { rewrite lookup_insert_eq. eauto. }
    destruct (IH m1 k1) as (m2 & k2 & Hm2 & Hrest).
    exists m2, k2. cbn [foldM]. unfold fillRow at 1. cbn [fst snd].
    rewrite Hm1. cbn [bind]. split; [done|].
    intros x y Hx Hy. apply Hrest; [done|].
    destruct (decide (y = y0)) as [->|Hne].
    + right. apply Hgrass. left. apply elem_of_seqZ. lia.
    + destruct Hy as [[->|Hy]%elem_of_cons|(h & Hh & Hget)]; [done|by left|].
      right. exists h. split; [done|]. rewrite Hother by done.
      unfold getTile in *. by rewrite lookup_insert_ne by done.
Qed.

(** C2. Whatever values in [0, 1) [Math.random()] returns, [generateMap]
    ends with a fully populated grid of non-negative integer heights in
    which every cell at Manhattan distance less than 3 from the center
    (8,8) is Water of height 0 and every other cell of the grid is Grass of
    height 1 or 2. *)
Theorem generateMap_lake :
  ∃ map, generateMap random = Ok map ∧
    populated map ∧ nonNegative map ∧
    ∀ x y, inGrid x y →
      (Z.abs (x - 8) + Z.abs (y - 8) < 3 → getTile map x y = Ok (mkTile WATER 0)) ∧
      (¬ Z.abs (x - 8) + Z.abs (y - 8) < 3 →
         ∃ h, (h = 1 ∨ h = 2) ∧ getTile map x y = Ok (mkTile GRASS h)).
Proof.
  destruct (fillRows_spec (seqZ 0 gridSize) ∅ O) as (m1 & k1 & Hfill & Hgrass).
  unfold generateMap. rewrite Hfill. cbn [bind fst].
  unfold carveRow. rewrite foldM_nested.
  change (gridSize / 2) with 8.
  destruct (carve_loop 8 8 (list_prod (seqZ (-2) 5) (seqZ (-2) 5)) m1)
    as (map & Hcarve & Hlake).
  exists map. split; [done|].
  assert (Hcells : ∀ x y, inGrid x y →
    (Z.abs (x - 8) + Z.abs (y - 8) < 3 → getTile map x y = Ok (mkTile WATER 0)) ∧
    (¬ Z.abs (x - 8) + Z.abs (y - 8) < 3 →
       ∃ h, (h = 1 ∨ h = 2) ∧ getTile map x y = Ok (mkTile GRASS h))).
  { intros x y [Hx Hy].
    destruct (Hgrass x y Hx) as (h & Hh & Hget); [left; apply elem_of_seqZ; lia|].
    destruct (Hlake x y _ Hget) as [[(p & Hp & Hnear & -> & ->) Hwater]|[Hfar Hkept]].
    - split; [done|]. intros Hfar. lia.
    - split; [|by eauto]. intros Hnear. destruct (Hfar (y - 8, x - 8)).
      + apply list_elem_of_In, in_prod_iff.
        rewrite <- !list_elem_of_In, !elem_of_seqZ. lia.
      + unfold carved. cbn [fst snd]. lia. }
  split; [|split; [|done]].
  - intros x y Hin. destruct (Hcells x y Hin) as [Hwater Hland].
    destruct (decide (Z.abs (x - 8) + Z.abs (y - 8) < 3)) as [Hnear|Hfar]; [by eauto|].
    destruct (Hland Hfar) as (h & _ & Hget). eauto.
  - intros x y tile Hin Htile. destruct (Hcells x y Hin) as [Hwater Hland].
    destruct (decide (Z.abs (x - 8) + Z.abs (y - 8) < 3)) as [Hnear|Hfar].
    + rewrite (Hwater Hnear) in Htile. by injection Htile as <-.
    + destruct (Hland Hfar) as (h & Hh & Hget). rewrite Hget in Htile.
      injection Htile as <-. simpl. lia.
Qed.
End GenerationProperties.

Lemma generateMap_lake_witness :
  ∃ map, generateMap highRandom = Ok map ∧
    populated map ∧ nonNegative map ∧
    ∀ x y, inGrid x y →
      (Z.abs (x - 8) + Z.abs (y - 8) < 3 → getTile map x y = Ok (mkTile WATER 0)) ∧
      (¬ Z.abs (x - 8) + Z.abs (y - 8) < 3 →
         ∃ h, (h = 1 ∨ h = 2) ∧ getTile map x y = Ok (mkTile GRASS h)).
Proof.
  apply (generateMap_lake highRandom).
  intros k. unfold highRandom. split; reflexivity || discriminate.
Defined.


(** * Further properties of the code *)

(** ** Rotation *)

(** X1. Each rotation state permutes the grid: [getRotatedCoords] and
    [getInverseRotatedCoords] map grid points to grid points and undo each
    other in both orders. *)
Theorem rotation_permutes_grid (rotation x y : Z) :
  inGrid x y →
  inGrid (getRotatedCoords rotation x y).1 (getRotatedCoords rotation x y).2 ∧
  inGrid (getInverseRotatedCoords rotation x y).1 (getInverseRotatedCoords rotation x y).2 ∧
  getRotatedCoords rotation (getInverseRotatedCoords rotation x y).1
                            (getInverseRotatedCoords rotation x y).2 = (x, y) ∧
  getInverseRotatedCoords rotation (getRotatedCoords rotation x y).1
                                   (getRotatedCoords rotation x y).2 = (x, y).
Proof.
  unfold inGrid, getRotatedCoords, getInverseRotatedCoords, gridSize.
  intros Hin. repeat case_decide; simpl; repeat split; try lia; f_equal; lia.
Qed.

Lemma rotation_permutes_grid_witness :
  inGrid (getRotatedCoords 3 0 15).1 (getRotatedCoords 3 0 15).2 ∧
  inGrid (getInverseRotatedCoords 3 0 15).1 (getInverseRotatedCoords 3 0 15).2 ∧
  getRotatedCoords 3 (getInverseRotatedCoords 3 0 15).1
                     (getInverseRotatedCoords 3 0 15).2 = (0, 15) ∧
  getInverseRotatedCoords 3 (getRotatedCoords 3 0 15).1
                            (getRotatedCoords 3 0 15).2 = (0, 15).
Proof.
  apply (rotation_permutes_grid 3 0 15). unfold inGrid, gridSize. lia.
Defined.

(** X2. The rotate buttons keep the rotation state among 0..3, undo each
    other, and come back after four presses; one press to the right composes
    the view with one more quarter turn, and one press to the left with the
    inverse quarter turn. *)
Theorem rotate_buttons_quarter_turns (rotation x y : Z) :
  0 ≤ rotation ≤ 3 →
  0 ≤ rotateRight rotation ≤ 3 ∧ 0 ≤ rotateLeft rotation ≤ 3 ∧
  rotateLeft (rotateRight rotation) = rotation ∧
  rotateRight (rotateLeft rotation) = rotation ∧
  rotateRight (rotateRight (rotateRight (rotateRight rotation))) = rotation ∧
  rotateLeft (rotateLeft (rotateLeft (rotateLeft rotation))) = rotation ∧
  getRotatedCoords (rotateRight rotation) x y
  = getRotatedCoords 1 (getRotatedCoords rotation x y).1 (getRotatedCoords rotation x y).2 ∧
  getRotatedCoords (rotateLeft rotation) x y
  = getInverseRotatedCoords 1 (getRotatedCoords rotation x y).1
                              (getRotatedCoords rotation x y).2.
Proof.
  intros Hr.
  assert (Hcases : rotation = 0 ∨ rotation = 1 ∨ rotation = 2 ∨ rotation = 3) by lia.
  destruct Hcases as [-> | [-> | [-> | ->]]];
    (repeat split; try done);
    unfold getRotatedCoords, getInverseRotatedCoords, gridSize; simpl; f_equal; lia.
Qed.

Lemma rotate_buttons_quarter_turns_witness :
  0 ≤ rotateRight 3 ≤ 3 ∧ 0 ≤ rotateLeft 3 ≤ 3 ∧
  rotateLeft (rotateRight 3) = 3 ∧
  rotateRight (rotateLeft 3) = 3 ∧
  rotateRight (rotateRight (rotateRight (rotateRight 3))) = 3 ∧
  rotateLeft (rotateLeft (rotateLeft (rotateLeft 3))) = 3 ∧
  getRotatedCoords (rotateRight 3) 2 5
  = getRotatedCoords 1 (getRotatedCoords 3 2 5).1 (getRotatedCoords 3 2 5).2 ∧
  getRotatedCoords (rotateLeft 3) 2 5
  = getInverseRotatedCoords 1 (getRotatedCoords 3 2 5).1 (getRotatedCoords 3 2 5).2.
Proof. apply (rotate_buttons_quarter_turns 3 2 5). lia. Defined.

(** ** Projection *)

(** X3. The projection separates the cells: two screen grid positions with
    the same anchor are the same position. *)
Theorem isoToScreen_injective (x y x' y' : Z) :
  isoToScreen x y = isoToScreen x' y' → x = x' ∧ y = y'.
Proof.
  rewrite !isoToScreen_pixels. intros [= Hx Hy]. lia.
Qed.

Lemma isoToScreen_injective_witness : 4 = 4 ∧ 9 = 9.
Proof. apply (isoToScreen_injective 4 9 4 9). reflexivity. Defined.

(** ** The diamond test *)

Lemma Q_ltb_one (t : Q) : negb (Qle_bool 1 t) = true ↔ (t < 1)%Q.
Proof.
  rewrite negb_true_iff, <- not_true_iff_false, Qle_bool_iff.
  split; [apply Qnot_le_lt|apply Qlt_not_le].
Qed.

Lemma Q_diamond (a b : Q) :
  (Qabs (a + b) < 1 ∧ Qabs (b - a) < 1 ↔ Qabs a + Qabs b < 1)%Q.
Proof.
  rewrite !Qabs_Qlt_condition.
  destruct (Qlt_le_dec a 0) as [Ha|Ha], (Qlt_le_dec b 0) as [Hb|Hb].
  - rewrite (Qabs_neg a), (Qabs_neg b) by lra. split; intros; lra.
  - rewrite (Qabs_neg a), (Qabs_pos b) by lra. split; intros; lra.
  - rewrite (Qabs_pos a), (Qabs_neg b) by lra. split; intros; lra.
  - rewrite (Qabs_pos a), (Qabs_pos b) by lra. split; intros; lra.
Qed.

Lemma Q_inDiamond_inTileArea (mouseX adjustedMouseY : Q) (screenPos : Z * Z) (tileY : Z) :
  inDiamond mouseX adjustedMouseY screenPos tileY = true →
  inTileArea mouseX adjustedMouseY screenPos tileY = true.
Proof.
  unfold inDiamond, inTileArea.
  change (isoTileWidth / 2) with 32. change (isoTileHeight / 2) with 16.
  change isoTileWidth with 64. change isoTileHeight with 32.
  cbn [num_sub num_add num_div num_abs num_ltb num_leb num_of_Z Q_Number].
  rewrite !andb_true_iff, !Q_ltb_one, !Qle_bool_iff, !Qabs_Qlt_condition.
  rewrite !inject_Z_plus. unfold Z.sub. rewrite !inject_Z_plus, inject_Z_opp.
  change (inject_Z 32) with (32 # 1)%Q. change (inject_Z 16) with (16 # 1)%Q.
  change (inject_Z 64) with (64 # 1)%Q. change (inject_Z 1) with 1%Q.
  unfold Qdiv. change (/ (32 # 1))%Q with (1 # 32)%Q. change (/ (16 # 1))%Q with (1 # 16)%Q.
  set (sx := inject_Z screenPos.1). set (ty := inject_Z tileY).
  intros [[? ?] [? ?]]. repeat split; lra.
Qed.

(** X5. For a pointer with integer coordinates on the canvas, where the
    arithmetic of the script is exact, the containment test accepts exactly
    the open diamond around the center
    [(screenPos.x + isoTileWidth / 2, tileY)] of the top face: with [dx] and
    [dy] the pointer's offsets from that center (the vertical one after the
    adjustment by 100), the points with
    [|dx| / (isoTileWidth / 2) + |dy| / (isoTileHeight / 2) < 1], which in
    integers reads [(isoTileHeight / 2) |dx| + (isoTileWidth / 2) |dy| <
    (isoTileWidth / 2) (isoTileHeight / 2)]. *)
Theorem inDiamond_open_diamond (mouseX mouseY : Z) (screenPos : Z * Z) (tileY : Z) :
  0 ≤ mouseX ≤ canvas_width → 0 ≤ mouseY ≤ canvas_height →
  inDiamond (num := Q) (inject_Z mouseX) (num_sub (inject_Z mouseY) (num_of_Z 100))
            screenPos tileY = true ↔
  isoTileHeight / 2 * Z.abs (mouseX - (screenPos.1 + isoTileWidth / 2))
  + isoTileWidth / 2 * Z.abs (mouseY - 100 - tileY)
  < isoTileWidth / 2 * (isoTileHeight / 2).
Proof.
  intros _ _. unfold inDiamond.
  change (isoTileWidth / 2) with 32. change (isoTileHeight / 2) with 16.
  cbn [num_sub num_add num_div num_abs num_ltb num_of_Z Q_Number].
  rewrite andb_true_iff, !Q_ltb_one, Q_diamond.
  assert (Hdx : (inject_Z mouseX - inject_Z (screenPos.1 + 32)
                 == inject_Z (mouseX - (screenPos.1 + 32)))%Q).
  { unfold Qminus. rewrite <- inject_Z_opp, <- inject_Z_plus. reflexivity. }
  assert (Hdy : (inject_Z mouseY - inject_Z 100 - inject_Z tileY
                 == inject_Z (mouseY - 100 - tileY))%Q).
  { unfold Qminus. rewrite <- !inject_Z_opp, <- !inject_Z_plus. reflexivity. }
  rewrite Hdx, Hdy.
  set (dx := mouseX - (screenPos.1 + 32)). set (dy := mouseY - 100 - tileY).
  assert (Hx : (Qabs (inject_Z dx / inject_Z 32) == inject_Z (Z.abs dx) * (1 # 32))%Q).
  { unfold Qdiv. rewrite Qabs_Qmult. reflexivity. }
  assert (Hy : (Qabs (inject_Z dy / inject_Z 16) == inject_Z (Z.abs dy) * (1 # 16))%Q).
  { unfold Qdiv. rewrite Qabs_Qmult. reflexivity. }
  rewrite Hx, Hy, Zlt_Qlt, inject_Z_plus, !inject_Z_mult.
  change (inject_Z 32) with (32 # 1)%Q. change (inject_Z 16) with (16 # 1)%Q.
  generalize (inject_Z (Z.abs dx)) (inject_Z (Z.abs dy)). intros qx qy.
  split; intros; lra.
Qed.

Lemma inDiamond_open_diamond_witness :
  inDiamond (num := Q) (inject_Z 550) (num_sub (inject_Z 105) (num_of_Z 100)) (512, 0) 0 = true ↔
  isoTileHeight / 2 * Z.abs (550 - ((512, 0).1 + isoTileWidth / 2))
  + isoTileWidth / 2 * Z.abs (105 - 100 - 0)
  < isoTileWidth / 2 * (isoTileHeight / 2).
Proof.
  apply (inDiamond_open_diamond 550 105 (512, 0) 0).
  - vm_compute. split; discriminate.
  - vm_compute. split; discriminate.
Defined.

(** X6. For a pointer with integer coordinates on the canvas, the coarse
    area test never rejects a point that the diamond test accepts, so the
    area test decides nothing: the body of the loop at a cell returns the
    cell exactly when the pointer is inside the diamond of the cell's top
    face. *)
Theorem inDiamond_inTileArea (rotation : Z) (map : Map) (mouseX mouseY x y : Z)
    (tile : Tile) :
  0 ≤ mouseX ≤ canvas_width → 0 ≤ mouseY ≤ canvas_height →
  getTile map (getRotatedCoords rotation x y).1 (getRotatedCoords rotation x y).2 = Ok tile →
  (inDiamond (num := Q) (inject_Z mouseX) (num_sub (inject_Z mouseY) (num_of_Z 100))
             (isoToScreen x y) ((isoToScreen x y).2 - height tile * heightStep) = true →
   inTileArea (num := Q) (inject_Z mouseX) (num_sub (inject_Z mouseY) (num_of_Z 100))
              (isoToScreen x y) ((isoToScreen x y).2 - height tile * heightStep) = true) ∧
  pickCell rotation map (inject_Z mouseX) (num_sub (inject_Z mouseY) (num_of_Z 100)) x y
  = Ok (if inDiamond (num := Q) (inject_Z mouseX) (num_sub (inject_Z mouseY) (num_of_Z 100))
                     (isoToScreen x y) ((isoToScreen x y).2 - height tile * heightStep)
        then Some (getRotatedCoords rotation x y) else None).
Proof.
  intros _ _ Htile. split; [apply Q_inDiamond_inTileArea|].
  unfold pickCell. rewrite Htile. cbn [bind].
  destruct (inDiamond _ _ _ _) eqn:Hhit.
  - by rewrite (Q_inDiamond_inTileArea _ _ _ _ Hhit).
  - by destruct (inTileArea _ _ _ _).
Qed.

Lemma inDiamond_inTileArea_witness :
  pickCell 0 lowMap (inject_Z 550) (num_sub (inject_Z 105) (num_of_Z 100)) 0 0
  = Ok (if inDiamond (num := Q) (inject_Z 550) (num_sub (inject_Z 105) (num_of_Z 100))
                     (isoToScreen 0 0)
                     ((isoToScreen 0 0).2 - height (mkTile GRASS 1) * heightStep)
        then Some (getRotatedCoords 0 0 0) else None).
Proof.
  apply (inDiamond_inTileArea 0 lowMap 550 105 0 0 (mkTile GRASS 1)).
  - vm_compute. split; discriminate.
  - vm_compute. split; discriminate.
  - vm_compute. reflexivity.
Defined.

(** ** What a pick returns *)

Section PickingResults.
Context {num : Type} `{Number num}.
Variable rotation : Z.
Variable map : Map.
Variables mouseX adjustedMouseY : num.

Lemma pickInRow_seqZ_some y lo (n : nat) c :
  pickInRow rotation map mouseX adjustedMouseY y (seqZ lo (Z.of_nat n)) = Ok (Some c) →
  ∃ x, lo ≤ x < lo + Z.of_nat n ∧
       pickCell rotation map mouseX adjustedMouseY x y = Ok (Some c) ∧
       ∀ x', lo ≤ x' < x → pickCell rotation map mouseX adjustedMouseY x' y = Ok None.
Proof.
  revert lo. induction n as [|n IH]; intros lo.
  - rewrite seqZ_nil by lia. discriminate.
  - rewrite seqZ_cons by lia. replace (Z.pred (Z.of_nat (S n))) with (Z.of_nat n) by lia.
    cbn [pickInRow].
    destruct (pickCell rotation map mouseX adjustedMouseY lo y) as [[c'|]|] eqn:Hcell;
      cbn [bind]; [| |discriminate].
    + intros [= ->]. exists lo. split; [lia|]. split; [done|]. intros; lia.
    + intros (x & Hx & Hhit & Hbefore)%IH. exists x. split; [lia|]. split; [done|].
      intros x' Hx'. destruct (decide (x' = lo)) as [->|?]; [done|]. apply Hbefore. lia.
Qed.

Lemma pickInRow_seqZ_none y lo (n : nat) :
  pickInRow rotation map mouseX adjustedMouseY y (seqZ lo (Z.of_nat n)) = Ok None →
  ∀ x, lo ≤ x < lo + Z.of_nat n →
       pickCell rotation map mouseX adjustedMouseY x y = Ok None.
Proof.
  revert lo. induction n as [|n IH]; intros lo.
  - intros _ x Hx. lia.
  - rewrite seqZ_cons by lia. replace (Z.pred (Z.of_nat (S n))) with (Z.of_nat n) by lia.
    cbn [pickInRow].
    destruct (pickCell rotation map mouseX adjustedMouseY lo y) as [[c'|]|] eqn:Hcell;
      cbn [bind]; [discriminate| |discriminate].
    intros Hrest x Hx. destruct (decide (x = lo)) as [->|?]; [done|].
    apply (IH _ Hrest). lia.
Qed.

Lemma pickInRows_seqZ_some lo (n : nat) c :
  pickInRows rotation map mouseX adjustedMouseY (seqZ lo (Z.of_nat n)) = Ok (Some c) →
  ∃ y, lo ≤ y < lo + Z.of_nat n ∧
       pickInRow rotation map mouseX adjustedMouseY y (seqZ 0 gridSize) = Ok (Some c) ∧
       ∀ y', lo ≤ y' < y →
             pickInRow rotation map mouseX adjustedMouseY y' (seqZ 0 gridSize) = Ok None.
Proof.
  revert lo. induction n as [|n IH]; intros lo.
  - rewrite seqZ_nil by lia. discriminate.
  - rewrite seqZ_cons by lia. replace (Z.pred (Z.of_nat (S n))) with (Z.of_nat n) by lia.
    cbn [pickInRows].
    destruct (pickInRow rotation map mouseX adjustedMouseY lo (seqZ 0 gridSize))
      as [[c'|]|] eqn:Hrow; cbn [bind]; [| |discriminate].
    + intros [= ->]. exists lo. split; [lia|]. split; [done|]. intros; lia.
    + intros (y & Hy & Hhit & Hbefore)%IH. exists y. split; [lia|]. split; [done|].
      intros y' Hy'. destruct (decide (y' = lo)) as [->|?]; [done|]. apply Hbefore. lia.
Qed.

Lemma pickInRows_some_first c :
  pickInRows rotation map mouseX adjustedMouseY (seqZ 0 gridSize) = Ok (Some c) →
  ∃ x y, inGrid x y ∧
    pickCell rotation map mouseX adjustedMouseY x y = Ok (Some c) ∧
    ∀ x' y', inGrid x' y' → y' < y ∨ (y' = y ∧ x' < x) →
             pickCell rotation map mouseX adjustedMouseY x' y' = Ok None.
Proof.
  change gridSize with (Z.of_nat 16).
  intros (y & Hy & Hrow & Hrows)%pickInRows_seqZ_some.
  destruct (pickInRow_seqZ_some y 0 16 c Hrow) as (x & Hx & Hcell & Hcells).
  exists x, y. split; [unfold inGrid, gridSize; lia|]. split; [done|].
  unfold inGrid, gridSize. intros x' y' [Hx' Hy'] [Hlt|[-> Hlt]].
  - apply (pickInRow_seqZ_none y' 0 16); [apply Hrows; lia|lia].
  - apply Hcells. lia.
Qed.

Lemma pickCell_some x y c :
  pickCell rotation map mouseX adjustedMouseY x y = Ok (Some c) →
  c = getRotatedCoords rotation x y ∧
  ∃ tile, getTile map c.1 c.2 = Ok tile ∧
    inTileArea mouseX adjustedMouseY (isoToScreen x y)
               ((isoToScreen x y).2 - height tile * heightStep) = true ∧
    inDiamond mouseX adjustedMouseY (isoToScreen x y)
              ((isoToScreen x y).2 - height tile * heightStep) = true.
Proof.
  unfold pickCell.
  destruct (getTile map _ _) as [tile|] eqn:Htile; cbn [bind]; [|discriminate].
  destruct (inTileArea _ _ _ _) eqn:Harea; [|discriminate].
  destruct (inDiamond _ _ _ _) eqn:Hdiamond; [|discriminate].
  intros [= <-]. split; [done|]. by exists tile.
Qed.
End PickingResults.

(** X7. [screenToIso] returns a coordinate exactly when some screen grid
    cell accepts the pointer while every cell before it in row-major order
    rejects it; the coordinate returned is the map coordinate of that first
    cell. *)
Theorem screenToIso_first_hit {num : Type} `{Number num} (rotation : Z) (map : Map)
    (mouseX mouseY : num) (c : Coords) :
  screenToIso rotation map mouseX mouseY = Ok (Some c) ↔
  ∃ x y, inGrid x y ∧
    pickCell rotation map mouseX (num_sub mouseY (num_of_Z 100)) x y = Ok (Some c) ∧
    ∀ x' y', inGrid x' y' → y' < y ∨ (y' = y ∧ x' < x) →
      pickCell rotation map mouseX (num_sub mouseY (num_of_Z 100)) x' y' = Ok None.
Proof.
  unfold screenToIso. split.
  - apply pickInRows_some_first.
  - intros (x & y & Hin & Hhit & Hbefore). by apply (pickInRows_first _ _ _ _ x y).
Qed.

(** X8. Whatever [screenToIso] returns other than [null] is a coordinate of
    the grid at which the map holds a tile, and the pointer is inside the
    area and the diamond of that tile as shown at some screen grid
    position. *)
Theorem screenToIso_in_grid {num : Type} `{Number num} (rotation : Z) (map : Map)
    (mouseX mouseY : num) (c : Coords) :
  screenToIso rotation map mouseX mouseY = Ok (Some c) →
  inGrid c.1 c.2 ∧
  ∃ x y tile, inGrid x y ∧ c = getRotatedCoords rotation x y ∧
    getTile map c.1 c.2 = Ok tile ∧
    inTileArea mouseX (num_sub mouseY (num_of_Z 100)) (isoToScreen x y)
               ((isoToScreen x y).2 - height tile * heightStep) = true ∧
    inDiamond mouseX (num_sub mouseY (num_of_Z 100)) (isoToScreen x y)
              ((isoToScreen x y).2 - height tile * heightStep) = true.
Proof.
  unfold screenToIso.
  intros (x & y & Hin & Hhit & _)%pickInRows_some_first.
  apply pickCell_some in Hhit as (-> & tile & Htile & Harea & Hdiamond).
  split; [by apply getRotatedCoords_inGrid|]. by exists x, y, tile.
Qed.

Lemma screenToIso_in_grid_witness :
  inGrid (9, 9).1 (9, 9).2.
Proof.
  apply (screenToIso_in_grid (num := Q) 0 highMap (inject_Z 544) (inject_Z 388) (9, 9)).
  vm_compute. reflexivity.
Defined.

(** ** The shape of a neighborhood *)

Lemma length_candidate a b :
  length (candidate a b) = if decide (inGrid a b) then 1%nat else 0%nat.
Proof.
  unfold candidate, inGrid, gridSize.
  destruct (_ && _) eqn:Hc; case_decide; simpl; lia.
Qed.

(** X9. Inside the grid a cell is never its own neighbor, being a neighbor
    is symmetric, and there are 2 to 4 neighbors: 4 exactly away from the
    border and 2 exactly in the four corners. *)
Theorem getNeighbors_shape (x y : Z) :
  inGrid x y →
  ((x, y) ∉ getNeighbors x y) ∧
  (∀ x' y', inGrid x' y' →
     ((x', y') ∈ getNeighbors x y ↔ (x, y) ∈ getNeighbors x' y')) ∧
  (2 ≤ length (getNeighbors x y) ≤ 4)%nat ∧
  (length (getNeighbors x y) = 4%nat ↔ (1 ≤ x ≤ 14 ∧ 1 ≤ y ≤ 14)) ∧
  (length (getNeighbors x y) = 2%nat ↔ ((x = 0 ∨ x = 15) ∧ (y = 0 ∨ y = 15))).
Proof.
  intros Hin. split; [|split].
  - rewrite elem_of_getNeighbors. unfold adjacent. simpl. lia.
  - intros x' y' Hin'. rewrite !elem_of_getNeighbors. unfold adjacent. simpl.
    split; intros [_ ?]; (split; [done|lia]).
  - rewrite getNeighbors_candidates, !length_app, !length_candidate.
    unfold inGrid, gridSize in *. repeat case_decide; lia.
Qed.

Lemma getNeighbors_shape_witness :
  (2 ≤ length (getNeighbors 0 15) ≤ 4)%nat.
Proof.
  apply (getNeighbors_shape 0 15). unfold inGrid, gridSize. lia.
Defined.

(** ** The generated map, tile by tile *)

Section GenerationExact.
Variable random : nat → Q.

Lemma fillCells_exact y xs map k :
  is_Some (map !! y) → NoDup xs →
  ∃ map', foldM (fillCell random y) (map, k) xs = Ok (map', (k + length xs)%nat) ∧
    is_Some (map' !! y) ∧
    (∀ x' y', y' ≠ y → getTile map' x' y' = getTile map x' y') ∧
    (∀ i x, xs !! i = Some x →
       getTile map' x y = Ok (mkTile GRASS (Qfloor (random (k + i)%nat * 2) + 1))) ∧
    (∀ x, x ∉ xs → getTile map' x y = getTile map x y).
Proof.
  revert map k. induction xs as [|x0 xs IH]; intros map k Hrow Hnodup.
  - exists map. rewrite Nat.add_0_r. repeat split; done.
  - destruct Hrow as [row Hrow]. apply NoDup_cons in Hnodup as [Hfresh Hnodup].
    assert (Hset : setTile map x0 y (mkTile GRASS (Qfloor (random k * 2) + 1))
                   = Ok (<[y := <[x0 := mkTile GRASS (Qfloor (random k * 2) + 1)]> row]> map)).
    { unfold setTile. by rewrite Hrow. }
    destruct (IH (<[y := <[x0 := mkTile GRASS (Qfloor (random k * 2) + 1)]> row]> map) (S k))
      as (map' & Hloop & Hsome & Hother & Hcells & Hrest); [|done|].
    { rewrite lookup_insert_eq. eauto. }
    exists map'. cbn [foldM]. unfold fillCell at 1. cbn [fst snd].
    rewrite Hset. cbn [bind]. rewrite Hloop.
    replace (k + length (x0 :: xs))%nat with (S k + length xs)%nat by (simpl; lia).
    split; [done|]. split; [done|]. split; [|split].
    + intros x' y' Hy. rewrite Hother by done.
      rewrite (getTile_setTile _ _ _ _ _ x' y' Hset). by rewrite decide_False by tauto.
    + intros [|i] x Hi; simpl in Hi.
      * injection Hi as <-. rewrite Hrest by done.
        rewrite (getTile_setTile _ _ _ _ _ x0 y Hset), decide_True by done.
        by rewrite Nat.add_0_r.
      * rewrite (Hcells i x Hi). by replace (S k + i)%nat with (k + S i)%nat by lia.
    + intros x [Hne Hnotin]%not_elem_of_cons. rewrite Hrest by done.
      rewrite (getTile_setTile _ _ _ _ _ x y Hset). by rewrite decide_False by tauto.
Qed.

Lemma fillRows_exact ys map k :
  NoDup ys →
  ∃ map', foldM (fillRow random) (map, k) ys
          = Ok (map', (k + 16 * length ys)%nat) ∧
    (∀ j y (x : nat), ys !! j = Some y → (x < 16)%nat →
       getTile map' (Z.of_nat x) y
       = Ok (mkTile GRASS (Qfloor (random (k + 16 * j + x)%nat * 2) + 1))) ∧
    (∀ y x, y ∈ ys → ¬ 0 ≤ x < gridSize → getTile map' x y = TypeError) ∧
    (∀ y x, y ∉ ys → getTile map' x y = getTile map x y).
Proof.
  revert map k. induction ys as [|y0 ys IH]; intros map k Hnodup.
  - exists map. rewrite Nat.mul_0_r, Nat.add_0_r. repeat split; try done.
    intros y x Hy. by apply not_elem_of_nil in Hy.
  - apply NoDup_cons in Hnodup as [Hfresh Hnodup].
    destruct (fillCells_exact y0 (seqZ 0 gridSize) (<[y0 := ∅]> map) k)
      as (m1 & Hm1 & _ & Hother & Hcells & Hrest).
    { rewrite lookup_insert_eq. eauto. }
    { apply NoDup_seqZ. }
    destruct (IH m1 (k + 16)%nat Hnodup) as (m2 & Hm2 & Hrows & Hout & Hkept).
    exists m2. cbn [foldM]. unfold fillRow at 1. cbn [fst snd].
    rewrite Hm1. rewrite length_seqZ. change (Z.to_nat gridSize) with 16%nat.
    cbn [bind]. rewrite Hm2.
    replace (k + 16 * length (y0 :: ys))%nat with (k + 16 + 16 * length ys)%nat
      by (simpl; lia).
    assert (Hempty : ∀ x, getTile (<[y0 := ∅]> map) x y0 = TypeError).
    { intros x. unfold getTile. by rewrite lookup_insert_eq, lookup_empty. }
    split; [done|]. split; [|split].
    + intros [|j] y x Hj Hx; simpl in Hj.
      * injection Hj as <-. rewrite Hkept by done.
        rewrite (Hcells x (Z.of_nat x)).
        -- by replace (k + 16 * 0 + x)%nat with (k + x)%nat by lia.
        -- apply lookup_seqZ. unfold gridSize. lia.
      * rewrite (Hrows j y x Hj Hx).
        by replace (k + 16 + 16 * j + x)%nat with (k + 16 * S j + x)%nat by lia.
    + intros y x [->|Hy]%elem_of_cons Hx; [|by apply Hout].
      rewrite Hkept by done. rewrite Hrest; [done|]. rewrite elem_of_seqZ. lia.
    + intros y x [Hne Hnotin]%not_elem_of_cons. rewrite Hkept by done.
      rewrite Hother by done. unfold getTile. by rewrite lookup_insert_ne.
Qed.

Lemma carve_loop_absent lakeX lakeY (offsets : list (Z * Z)) map map' x y :
  foldM (fun map (p : Z * Z) => carveCell lakeX lakeY p.1 map p.2) map offsets = Ok map' →
  getTile map x y = TypeError → getTile map' x y = TypeError.
Proof.
  revert map. induction offsets as [|[i j] offsets IH]; intros map; simpl.
  - by intros [= <-].
  - destruct (carveCell lakeX lakeY i map j) as [m1|] eqn:Hm1; cbn [bind]; [|discriminate].
    intros Hloop Habsent. apply (IH m1 Hloop).
    unfold carveCell in Hm1. destruct (_ <? 3); [|by injection Hm1 as <-].
    destruct (map !! (lakeY + i)) as [row|] eqn:Hrow; [|by injection Hm1 as <-].
    destruct (row !! (lakeX + j)) as [old|] eqn:Hold; [|by injection Hm1 as <-].
    rewrite (getTile_setTile _ _ _ _ _ x y Hm1). case_decide as Hxy; [|done].
    destruct Hxy as [-> ->]. unfold getTile in Habsent. by rewrite Hrow, Hold in Habsent.
Qed.

(** X10. [generateMap] is determined by the values of [Math.random()] in the
    order of the calls: whatever they are, it returns a map that holds no
    tile outside the grid, Water of height 0 on the lake, and elsewhere
    Grass whose height is [Math.floor(r * 2) + 1] for the value [r] of call
    number [16 y + x], the cells being filled row by row. *)
Theorem generateMap_exact :
  ∃ map, generateMap random = Ok map ∧
    ∀ x y,
      (¬ inGrid x y → getTile map x y = TypeError) ∧
      (inGrid x y → Z.abs (x - 8) + Z.abs (y - 8) < 3 →
         getTile map x y = Ok (mkTile WATER 0)) ∧
      (inGrid x y → ¬ Z.abs (x - 8) + Z.abs (y - 8) < 3 →
         getTile map x y
         = Ok (mkTile GRASS (Qfloor (random (Z.to_nat (16 * y + x)) * 2) + 1))).
Proof.
  destruct (fillRows_exact (seqZ 0 gridSize) ∅ O (NoDup_seqZ _ _))
    as (m1 & Hfill & Hrows & Hout & Hkept).
  unfold generateMap. rewrite Hfill. cbn [bind fst].
  unfold carveRow. rewrite foldM_nested. change (gridSize / 2) with 8.
  destruct (carve_loop 8 8 (list_prod (seqZ (-2) 5) (seqZ (-2) 5)) m1)
    as (map & Hcarve & Hlake).
  exists map. split; [done|].
  assert (Hgrass : ∀ x y, inGrid x y →
    getTile m1 x y = Ok (mkTile GRASS (Qfloor (random (Z.to_nat (16 * y + x)) * 2) + 1))).
  { intros x y [Hx Hy]. unfold gridSize in *.
    rewrite <- (Z2Nat.id x) at 1 by lia.
    rewrite (Hrows (Z.to_nat y) y (Z.to_nat x)).
    - by replace (0 + 16 * Z.to_nat y + Z.to_nat x)%nat with (Z.to_nat (16 * y + x)) by lia.
    - apply lookup_seqZ. unfold gridSize. lia.
    - lia. }
  intros x y. split; [|split].
  - intros Hnot. apply (carve_loop_absent _ _ _ _ _ _ _ Hcarve).
    destruct (decide (0 ≤ y < gridSize)) as [Hy|Hy].
    + apply Hout; [by apply elem_of_seqZ|]. unfold inGrid in Hnot. tauto.
    + rewrite Hkept by (rewrite elem_of_seqZ; lia). unfold getTile.
      by rewrite lookup_empty.
  - intros Hin Hnear.
    destruct (Hlake x y _ (Hgrass x y Hin)) as [[_ Hwater]|[Hfar _]]; [done|].
    destruct (Hfar (y - 8, x - 8)).
    + apply list_elem_of_In, in_prod_iff.
      rewrite <- !list_elem_of_In, !elem_of_seqZ. lia.
    + unfold carved. cbn [fst snd]. lia.
  - intros Hin Hfar.
    destruct (Hlake x y _ (Hgrass x y Hin))
      as [[(p & _ & Hnear & -> & ->) _]|[_ Hkept']]; [lia|done].
Qed.
End GenerationExact.

(** ** A single object *)

Lemma changeTile_neighborChanges obj own tile x y :
  foldl (changeTile x y) tile (neighborChanges obj own tile (x, y) [])
  = stepTile (obj_effect obj) own tile.
Proof.
  rewrite neighborChanges_effect. unfold stepTile.
  destruct (obj_effect obj);
    match goal with
    | |- context [if ?b then _ else _] => destruct b
    end; simpl; try done;
    unfold changeTile, targets; simpl; by rewrite bool_decide_eq_true_2.
Qed.

Lemma foldl_changeTile_neighbors map obj own x y tile ns :
  NoDup ns → getTile map x y = Ok tile →
  foldl (changeTile x y) tile
        (flat_map (fun n : Coords => neighborChanges obj own (tileAt map n.1 n.2) n []) ns)
  = if decide ((x, y) ∈ ns) then stepTile (obj_effect obj) own tile else tile.
Proof.
  intros Hnodup Htile. induction Hnodup as [|n ns Hfresh Hnodup IH].
  - by rewrite decide_False by apply not_elem_of_nil.
  - cbn [flat_map]. rewrite foldl_app. destruct (decide (n = (x, y))) as [->|Hne].
    + cbn [fst snd]. rewrite (tileAt_getTile _ _ _ _ Htile), changeTile_neighborChanges.
      rewrite decide_True by left.
      apply foldl_changeTile_untargeted.
      intros c (n' & Hn' & Hc)%list_elem_of_In%in_flat_map.
      apply list_elem_of_In in Hn', Hc.
      apply neighborChanges_targets in Hc as [Hx Hy]. intros [Hx' Hy'].
      apply Hfresh. destruct n' as [a b]. simpl in *. by simplify_eq.
    + rewrite (foldl_changeTile_untargeted x y tile (neighborChanges _ _ _ n [])).
      * rewrite IH. destruct (decide ((x, y) ∈ ns)) as [Hin|Hout].
        -- by rewrite decide_True by (by right).
        -- rewrite decide_False; [done|]. by intros [?|?]%elem_of_cons.
      * intros c Hc%neighborChanges_targets [Hx Hy]. apply Hne.
        destruct Hc as [Hx' Hy']. destruct n as [a b]. simpl in *. by simplify_eq.
Qed.

Lemma updateMap_lone obj map own :
  populated map → onGrid obj →
  getTile map (obj_x obj) (obj_y obj) = Ok own →
  ∃ map', updateMap [obj] map = Ok map' ∧ populated map' ∧
    ∀ x y tile, getTile map x y = Ok tile →
      getTile map' x y
      = Ok (if decide ((x, y) ∈ getNeighbors (obj_x obj) (obj_y obj))
            then stepTile (obj_effect obj) own tile else tile).
Proof.
  intros Hpop Hobj Hown.
  destruct (updateMap_spec [obj] map Hpop) as (map' & Hup & Hpop' & Hget).
  { by apply Forall_singleton. }
  exists map'. split; [done|]. split; [done|].
  intros x y tile Htile. rewrite (Hget _ _ _ Htile). f_equal.
  simpl. rewrite app_nil_r. unfold deltasOf. rewrite (tileAt_getTile _ _ _ _ Hown).
  apply foldl_changeTile_neighbors; [apply NoDup_getNeighbors|done].
Qed.

(** X11. A tick with a single object changes exactly the object's on-grid
    4-connected neighbors, each as the effect prescribes from the tile
    before the tick: an obelisk raises by one a neighbor lower than its own
    tile plus 2, an excavator lowers by one a neighbor above 0, a fountain
    turns a neighbor that is not Water into Water at its own tile's height,
    a tree turns a neighbor that is not Grass into Grass at the same height;
    every other tile, the object's own included, is as before. *)
Theorem single_object_tick (obj : PlacedObject) (map : Map) (own : Tile) :
  populated map → onGrid obj →
  getTile map (obj_x obj) (obj_y obj) = Ok own →
  ∃ map', updateMap [obj] map = Ok map' ∧
    getTile map' (obj_x obj) (obj_y obj) = Ok own ∧
    ∀ x y tile, getTile map x y = Ok tile →
      (inGrid x y → adjacent (obj_x obj) (obj_y obj) x y →
         getTile map' x y = Ok (stepTile (obj_effect obj) own tile)) ∧
      (¬ adjacent (obj_x obj) (obj_y obj) x y → getTile map' x y = Ok tile).
Proof.
  intros Hpop Hobj Hown.
  destruct (updateMap_lone obj map own Hpop Hobj Hown) as (map' & Hup & _ & Hget).
  exists map'. split; [done|].
  assert (Hfar : ∀ x y tile, getTile map x y = Ok tile →
            ¬ adjacent (obj_x obj) (obj_y obj) x y → getTile map' x y = Ok tile).
  { intros x y tile Htile Hnot. rewrite (Hget _ _ _ Htile).
    rewrite decide_False; [done|]. rewrite elem_of_getNeighbors. simpl. tauto. }
  split.
  - apply Hfar; [done|]. unfold adjacent. lia.
  - intros x y tile Htile. split; [|by apply Hfar].
    intros Hin Hadj. rewrite (Hget _ _ _ Htile).
    rewrite decide_True; [done|]. by rewrite elem_of_getNeighbors.
Qed.

Lemma single_object_tick_witness :
  ∃ map', updateMap [mkObject 8 5 fountain raise_water] lowMap = Ok map' ∧
    getTile map' 8 5 = Ok (mkTile GRASS 1).
Proof.
  destruct (single_object_tick (mkObject 8 5 fountain raise_water) lowMap (mkTile GRASS 1))
    as (map' & Hup & Hown & _).
  - apply populatedb_populated. vm_compute. reflexivity.
  - unfold onGrid, inGrid, gridSize. simpl. lia.
  - vm_compute. reflexivity.
  - exists map'. split; assumption.
Defined.

Lemma ticks_lone obj map own k :
  populated map → onGrid obj →
  getTile map (obj_x obj) (obj_y obj) = Ok own →
  ∃ map', ticks k [obj] map = Ok map' ∧
    getTile map' (obj_x obj) (obj_y obj) = Ok own ∧
    ∀ x y tile, getTile map x y = Ok tile →
      getTile map' x y
      = Ok (if decide ((x, y) ∈ getNeighbors (obj_x obj) (obj_y obj))
            then Nat.iter k (stepTile (obj_effect obj) own) tile else tile).
Proof.
  intros Hpop Hobj. revert map Hpop. induction k as [|k IH]; intros map Hpop Hown.
  - exists map. split; [done|]. split; [done|]. intros x y tile ->. by case_decide.
  - destruct (updateMap_lone obj map own Hpop Hobj Hown) as (m1 & Hm1 & Hpop1 & Hget1).
    assert (Hown1 : getTile m1 (obj_x obj) (obj_y obj) = Ok own).
    { rewrite (Hget1 _ _ _ Hown). rewrite decide_False; [done|].
      rewrite elem_of_getNeighbors. unfold adjacent. simpl. lia. }
    destruct (IH m1 Hpop1 Hown1) as (m2 & Hm2 & Hown2 & Hget2).
    exists m2. cbn [ticks]. rewrite Hm1. cbn [bind]. split; [done|]. split; [done|].
    intros x y tile Htile. rewrite (Hget2 _ _ _ (Hget1 _ _ _ Htile)).
    case_decide; [|done]. by rewrite Nat.iter_succ_r.
Qed.

Lemma iter_raise_terrain own tile k :
  type (Nat.iter k (stepTile raise_terrain own) tile) = type tile ∧
  height (Nat.iter k (stepTile raise_terrain own) tile)
  = Z.max (height tile) (Z.min (height tile + Z.of_nat k) (height own + 2)).
Proof.
  induction k as [|k [IHt IHh]]; [simpl; split; [done|lia]|].
  rewrite Nat.iter_succ. unfold stepTile at 1 3.
  destruct (_ <? _) eqn:Hlt; simpl; (split; [done|lia]).
Qed.

Lemma iter_lower_terrain own tile k :
  type (Nat.iter k (stepTile lower_terrain own) tile) = type tile ∧
  height (Nat.iter k (stepTile lower_terrain own) tile)
  = Z.min (height tile) (Z.max (height tile - Z.of_nat k) 0).
Proof.
  induction k as [|k [IHt IHh]]; [simpl; split; [done|lia]|].
  rewrite Nat.iter_succ. unfold stepTile at 1 3.
  destruct (_ >? _) eqn:Hgt; simpl; (split; [done|lia]).
Qed.

Lemma iter_idempotent {A} (f : A → A) (a : A) k :
  (∀ a, f (f a) = f a) → (1 ≤ k)%nat → Nat.iter k f a = f a.
Proof.
  intros Hidem Hk. induction k as [|[|k] IH]; [lia|done|].
  rewrite Nat.iter_succ, IH by lia. apply Hidem.
Qed.

Lemma stepTile_raise_water_idempotent own tile :
  stepTile raise_water own (stepTile raise_water own tile) = stepTile raise_water own tile.
Proof. unfold stepTile. repeat (case_bool_decide; simpl in *); done. Qed.

Lemma stepTile_spread_grass_idempotent own tile :
  stepTile spread_grass own (stepTile spread_grass own tile)
  = stepTile spread_grass own tile.
Proof. unfold stepTile. repeat (case_bool_decide; simpl in *); done. Qed.

(** X12. With a single object, [k] ticks leave every tile that is not an
    on-grid neighbor of the object, its own tile included, as it was, and
    take a neighbor of height [h] to a closed form: next to an obelisk the
    height is [max h (min (h + k) (own + 2))], so it climbs by one per tick
    and stops at the obelisk's tile height plus 2; next to an excavator it
    is [min h (max (h - k) 0)], so it sinks by one per tick and stops at 0;
    the type stays in both cases. Next to a fountain or a tree the first
    tick decides and later ticks change nothing. *)
Theorem single_object_ticks (obj : PlacedObject) (map : Map) (own : Tile) (k : nat) :
  populated map → onGrid obj →
  getTile map (obj_x obj) (obj_y obj) = Ok own →
  ∃ map', ticks k [obj] map = Ok map' ∧
    getTile map' (obj_x obj) (obj_y obj) = Ok own ∧
    ∀ x y tile, getTile map x y = Ok tile →
      (¬ adjacent (obj_x obj) (obj_y obj) x y → getTile map' x y = Ok tile) ∧
      (inGrid x y → adjacent (obj_x obj) (obj_y obj) x y →
       ∃ tile', getTile map' x y = Ok tile' ∧
         (obj_effect obj = raise_terrain →
            type tile' = type tile ∧
            height tile'
            = Z.max (height tile) (Z.min (height tile + Z.of_nat k) (height own + 2))) ∧
         (obj_effect obj = lower_terrain →
            type tile' = type tile ∧
            height tile' = Z.min (height tile) (Z.max (height tile - Z.of_nat k) 0)) ∧
         (obj_effect obj = raise_water → (1 ≤ k)%nat →
            tile' = if bool_decide (type tile ≠ WATER)
                    then mkTile WATER (height own) else tile) ∧
         (obj_effect obj = spread_grass → (1 ≤ k)%nat →
            tile' = if bool_decide (type tile ≠ GRASS)
                    then mkTile GRASS (height tile) else tile)).
Proof.
  intros Hpop Hobj Hown.
  destruct (ticks_lone obj map own k Hpop Hobj Hown) as (map' & Hticks & Hown' & Hget).
  exists map'. split; [done|]. split; [done|].
  intros x y tile Htile. rewrite (Hget _ _ _ Htile). split.
  - intros Hfar. rewrite decide_False; [done|]. rewrite elem_of_getNeighbors. simpl. tauto.
  - intros Hin Hadj. rewrite decide_True by (by rewrite elem_of_getNeighbors).
    eexists. split; [done|]. split; [|split; [|split]]; intros ->.
    + apply iter_raise_terrain.
    + apply iter_lower_terrain.
    + intros Hk. by rewrite iter_idempotent by auto using stepTile_raise_water_idempotent.
    + intros Hk. by rewrite iter_idempotent by auto using stepTile_spread_grass_idempotent.
Qed.

Lemma single_object_ticks_witness :
  ∃ map', ticks 5 [mkObject 8 5 obelisk raise_terrain] lowMap = Ok map' ∧
    getTile map' 8 5 = Ok (mkTile GRASS 1).
Proof.
  destruct (single_object_ticks (mkObject 8 5 obelisk raise_terrain) lowMap
                                (mkTile GRASS 1) 5)
    as (map' & Hticks & Hown & _).
  - apply populatedb_populated. vm_compute. reflexivity.
  - unfold onGrid, inGrid, gridSize. simpl. lia.
  - vm_compute. reflexivity.
  - exists map'. split; assumption.
Defined.

(** ** Fountains and trees settle *)

Lemma foldl_changeTile_type_settles x y tile changes t :
  (∀ c, c ∈ changes → targets c x y → ch_type c = Some t) →
  type tile = t ∨ (∃ c, c ∈ changes ∧ targets c x y) →
  type (foldl (changeTile x y) tile changes) = t.
Proof.
  revert tile. induction changes as [|c changes IH]; intros tile Hall Hsome.
  - destruct Hsome as [?|(c & Hc & _)]; [done|by apply not_elem_of_nil in Hc].
  - simpl. apply IH; [intros; apply Hall; [by right|done]|].
    unfold changeTile. case_bool_decide as Ht.
    + left. simpl. by rewrite (Hall c) by (done || left).
    + destruct Hsome as [?|(c' & [->|Hc']%elem_of_cons & Ht')]; [by left|done|].
      right. by exists c'.
Qed.

Lemma flat_map_nil {A B} (f : A → list B) (l : list A) :
  (∀ a, a ∈ l → f a = []) → flat_map f l = [].
Proof.
  induction l as [|a l IH]; intros Hall; simpl; [done|].
  rewrite Hall by left. apply IH. intros; apply Hall; by right.
Qed.

Lemma deltasOf_type_only map obj c e t :
  (e = raise_water ∧ t = WATER) ∨ (e = spread_grass ∧ t = GRASS) →
  obj_effect obj = e → c ∈ deltasOf map obj → ch_type c = Some t.
Proof.
  intros [[-> ->]|[-> ->]] Heff Hc.
  - by apply (deltasOf_raise_water map obj).
  - by apply (deltasOf_spread_grass map obj).
Qed.

Lemma deltasOf_emits map obj (n : Coords) e t :
  (e = raise_water ∧ t = WATER) ∨ (e = spread_grass ∧ t = GRASS) →
  obj_effect obj = e → n ∈ getNeighbors (obj_x obj) (obj_y obj) →
  type (tileAt map n.1 n.2) ≠ t →
  ∃ c, c ∈ deltasOf map obj ∧ targets c n.1 n.2.
Proof.
  intros Hkind Heff Hn Htype.
  set (cs := neighborChanges obj (tileAt map (obj_x obj) (obj_y obj)) (tileAt map n.1 n.2) n []).
  assert (Hcs : ∃ c, c ∈ cs).
  { unfold cs. rewrite neighborChanges_effect, Heff.
    destruct Hkind as [[-> ->]|[-> ->]]; rewrite bool_decide_eq_true_2 by done;
      eexists; by left. }
  destruct Hcs as [c Hc]. exists c. split.
  - unfold deltasOf. apply list_elem_of_In, in_flat_map. exists n.
    by rewrite <- !list_elem_of_In.
  - by apply neighborChanges_targets in Hc.
Qed.

(** X13. When all placed objects are fountains, or all are trees, terrain
    settles in one tick: ticking the map again returns the same map. *)
Theorem same_kind_settles (objects : list PlacedObject) (map map' : Map) :
  populated map → Forall onGrid objects →
  (∀ obj, obj ∈ objects → obj_effect obj = raise_water) ∨
  (∀ obj, obj ∈ objects → obj_effect obj = spread_grass) →
  updateMap objects map = Ok map' →
  updateMap objects map' = Ok map'.
Proof.
  intros Hpop Hobjs Hkind Hup.
  assert (Hkind' : ∃ e t, ((e = raise_water ∧ t = WATER) ∨ (e = spread_grass ∧ t = GRASS)) ∧
                          ∀ obj, obj ∈ objects → obj_effect obj = e).
  { destruct Hkind as [Hall|Hall].
    - exists raise_water, WATER. split; [by left|done].
    - exists spread_grass, GRASS. split; [by right|done]. }
  destruct Hkind' as (e & t & Het & Hall). clear Hkind.
  destruct (updateMap_spec objects map Hpop Hobjs) as (m & Hm & Hpop' & Hget).
  rewrite Hup in Hm. injection Hm as <-.
  unfold updateMap. rewrite collectChanges_deltasOf by done. cbn [bind].
  rewrite flat_map_nil; [done|].
  intros obj Hobj. unfold deltasOf. apply flat_map_nil. intros n Hn.
  pose proof Hn as [Hnin _]%elem_of_getNeighbors.
  destruct (Hpop _ _ Hnin) as [tile Htile].
  assert (Htype : type (tileAt map' n.1 n.2) = t).
  { rewrite (tileAt_getTile _ _ _ _ (Hget _ _ _ Htile)).
    apply foldl_changeTile_type_settles.
    - intros c (obj' & Hobj' & Hc)%elem_of_batch _.
      by apply (deltasOf_type_only map obj' c e t Het (Hall obj' Hobj')).
    - destruct (decide (type tile = t)) as [?|Hne]; [by left|right].
      destruct (deltasOf_emits map obj n e t Het (Hall obj Hobj) Hn) as (c & Hc & Ht).
      { by rewrite (tileAt_getTile _ _ _ _ Htile). }
      exists c. split; [|done].
      apply list_elem_of_In, in_flat_map. exists obj. by rewrite <- !list_elem_of_In. }
  rewrite neighborChanges_effect, (Hall obj Hobj).
  destruct Het as [[-> ->]|[-> ->]]; by rewrite bool_decide_eq_false_2 by (by intros []).
Qed.

Lemma same_kind_settles_witness :
  updateMap [mkObject 8 5 tree spread_grass] lowMapTree = Ok lowMapTree.
Proof.
  apply (same_kind_settles [mkObject 8 5 tree spread_grass] lowMap lowMapTree).
  - apply populatedb_populated. vm_compute. reflexivity.
  - apply Forall_singleton. unfold onGrid, inGrid, gridSize. simpl. lia.
  - right. intros obj ->%list_elem_of_singleton. reflexivity.
  - vm_compute. reflexivity.
Defined.

(** ** Where a type comes from *)

Lemma foldl_changeTile_type_origin x y tile changes :
  type (foldl (changeTile x y) tile changes) = type tile ∨
  ∃ c, c ∈ changes ∧ targets c x y ∧
       ch_type c = Some (type (foldl (changeTile x y) tile changes)).
Proof.
  revert tile. induction changes as [|c changes IH]; intros tile; simpl; [by left|].
  destruct (IH (changeTile x y tile c)) as [Hkept|(c' & Hc' & Ht & Hh)].
  - rewrite Hkept. unfold changeTile. case_bool_decide as Ht; [|by left]. simpl.
    destruct (ch_type c) as [t|] eqn:Hty; simpl; [|by left].
    right. exists c. split; [by left|]. by rewrite Hty.
  - right. exists c'. split; [by right|done].
Qed.

(** X14. A tick never invents a tile type: the type of a tile after the tick
    is its type before, or Water with a fountain on a neighboring cell, or
    Grass with a tree on a neighboring cell; in particular no tile becomes
    Stone or Sand. *)
Theorem tick_types (objects : list PlacedObject) (map map' : Map) :
  populated map → Forall onGrid objects →
  updateMap objects map = Ok map' →
  ∀ x y tile tile',
    getTile map x y = Ok tile → getTile map' x y = Ok tile' →
    type tile' = type tile ∨
    (type tile' = WATER ∧
     ∃ obj, obj ∈ objects ∧ obj_effect obj = raise_water ∧
            adjacent (obj_x obj) (obj_y obj) x y) ∨
    (type tile' = GRASS ∧
     ∃ obj, obj ∈ objects ∧ obj_effect obj = spread_grass ∧
            adjacent (obj_x obj) (obj_y obj) x y).
Proof.
  intros Hpop Hobjs Hup x y tile tile' Htile Htile'.
  destruct (updateMap_spec objects map Hpop Hobjs) as (m & Hm & _ & Hget).
  rewrite Hup in Hm. injection Hm as <-.
  rewrite (Hget _ _ _ Htile) in Htile'. injection Htile' as <-.
  destruct (foldl_changeTile_type_origin x y tile (flat_map (deltasOf map) objects))
    as [Hkept|(c & (obj & Hobj & Hc)%elem_of_batch & [<- <-] & Hty)]; [by left|].
  right. pose proof (deltasOf_target _ _ _ Hc) as [_ Hadj].
  destruct (obj_effect obj) eqn:Heff.
  - left. destruct (deltasOf_raise_water map obj c Heff Hc) as [Hw _].
    split; [congruence|]. by exists obj.
  - destruct (deltasOf_lower_terrain map obj c Heff Hc) as [Hnone _]. congruence.
  - destruct (deltasOf_raise_terrain map obj c Heff Hc) as [Hnone _]. congruence.
  - right. destruct (deltasOf_spread_grass map obj c Heff Hc) as [Hg _].
    split; [congruence|]. by exists obj.
Qed.

Lemma tick_types_witness :
  type (mkTile GRASS 0) = type (mkTile WATER 0) ∨
  (type (mkTile GRASS 0) = WATER ∧
   ∃ obj, obj ∈ [mkObject 8 5 tree spread_grass] ∧ obj_effect obj = raise_water ∧
          adjacent (obj_x obj) (obj_y obj) 8 6) ∨
  (type (mkTile GRASS 0) = GRASS ∧
   ∃ obj, obj ∈ [mkObject 8 5 tree spread_grass] ∧ obj_effect obj = spread_grass ∧
          adjacent (obj_x obj) (obj_y obj) 8 6).
Proof.
  apply (tick_types [mkObject 8 5 tree spread_grass] lowMap lowMapTree).
  - apply populatedb_populated. vm_compute. reflexivity.
  - apply Forall_singleton. unfold onGrid, inGrid, gridSize. simpl. lia.
  - vm_compute. reflexivity.
  - vm_compute. reflexivity.
  - vm_compute. reflexivity.
Defined.


(** ** Reading the neighbors of a cell *)

Lemma readCell_getTile map x y tile :
  getTile map x y = Ok tile → readCell map x y = Ok (Some tile).
Proof.
  unfold getTile, readCell. destruct (map !! y) as [row|]; [|done].
  by destruct (row !! x); intros [= ->].
Qed.

(** X15. On a fully populated map and inside the grid, [get_map_neighbors]
    never throws; a field is [null] exactly at the matching border and
    otherwise holds the tile one step north [(x, y - 1)], south
    [(x, y + 1)], east [(x + 1, y)] or west [(x - 1, y)]; the tiles it holds,
    taken west, east, north, south, are the tiles at [getNeighbors]. *)
Theorem get_map_neighbors_grid (map : Map) (x y : Z) :
  populated map → inGrid x y →
  ∃ neighbors, Option2.get_map_neighbors map x y = Ok neighbors ∧
    Option2.north neighbors
    = (if decide (y = 0) then Option2.null
       else Option2.value (Some (tileAt map x (y - 1)))) ∧
    Option2.south neighbors
    = (if decide (y = gridSize - 1) then Option2.null
       else Option2.value (Some (tileAt map x (y + 1)))) ∧
    Option2.east neighbors
    = (if decide (x = gridSize - 1) then Option2.null
       else Option2.value (Some (tileAt map (x + 1) y))) ∧
    Option2.west neighbors
    = (if decide (x = 0) then Option2.null
       else Option2.value (Some (tileAt map (x - 1) y))) ∧
    Option2.tilesOf neighbors = (fun n : Coords => tileAt map n.1 n.2) <$> getNeighbors x y.
Proof.
  intros Hpop [Hx Hy]. unfold gridSize in *.
  assert (Hread : ∀ a b, inGrid a b → readCell map a b = Ok (Some (tileAt map a b))).
  { intros a b Hab. destruct (Hpop a b Hab) as [t Ht].
    by rewrite (tileAt_getTile _ _ _ _ Ht), (readCell_getTile _ _ _ _ Ht). }
  unfold Option2.get_map_neighbors. change (gridSize - 1) with 15.
  rewrite getNeighbors_candidates. unfold candidate, gridSize.
  replace (x + -1) with (x - 1) by lia. replace (y + -1) with (y - 1) by lia.
  rewrite !Z.add_0_r.
  destruct (decide (y = 0)), (decide (y = 15)), (decide (x = 0)), (decide (x = 15));
    try lia;
    repeat match goal with
    | |- context [?a >? ?b] =>
        (replace (a >? b) with true by lia) || (replace (a >? b) with false by lia)
    | |- context [?a <? ?b] =>
        (replace (a <? b) with true by lia) || (replace (a <? b) with false by lia)
    | |- context [?a >=? ?b] =>
        (replace (a >=? b) with true by lia) || (replace (a >=? b) with false by lia)
    end;
    rewrite ?Hread by (unfold inGrid, gridSize; lia);
    cbn [bind andb]; eexists; (split; [reflexivity|]); cbn;
    repeat case_decide; try lia; done.
Qed.

Lemma get_map_neighbors_grid_witness :
  ∃ neighbors, Option2.get_map_neighbors lowMap 0 8 = Ok neighbors ∧
    Option2.west neighbors = Option2.null.
Proof.
  destruct (get_map_neighbors_grid lowMap 0 8) as (nb & Hnb & _ & _ & _ & Hwest & _).
  - apply populatedb_populated. vm_compute. reflexivity.
  - unfold inGrid, gridSize. lia.
  - exists nb. split; [exact Hnb|exact Hwest].
Defined.

(** ** Painting one tile *)

Lemma readCell_populated map x y :
  populated map → inGrid x y → readCell map x y = Ok (Some (tileAt map x y)).
Proof.
  intros Hpop Hin. destruct (Hpop x y Hin) as [t Ht].
  by rewrite (tileAt_getTile _ _ _ _ Ht), (readCell_getTile _ _ _ _ Ht).
Qed.

Lemma getTile_populated map x y :
  populated map → inGrid x y → getTile map x y = Ok (tileAt map x y).
Proof.
  intros Hpop Hin. destruct (Hpop x y Hin) as [t Ht].
  by rewrite (tileAt_getTile _ _ _ _ Ht).
Qed.

Lemma get_map_neighbors_total map x y :
  populated map → inGrid x y → ∃ neighbors, Option2.get_map_neighbors map x y = Ok neighbors.
Proof.
  intros Hpop [Hx Hy]. unfold gridSize in *. unfold Option2.get_map_neighbors.
  assert (Hread : ∀ a b (c : bool),
            (c = true → inGrid a b) →
            ∃ slot, (if c then let? cell := readCell map a b in Ok (Option2.value cell)
                     else Ok Option2.null) = Ok slot).
  { intros a b [] Hc; [|eauto]. rewrite readCell_populated by auto. simpl. eauto. }
  destruct (Hread x (y - 1) (y >? 0)) as [n ->]; [unfold inGrid, gridSize; lia|].
  destruct (Hread x (y + 1) (y <? gridSize - 1)) as [s ->]; [unfold inGrid, gridSize; lia|].
  destruct (Hread (x + 1) y (x <? gridSize - 1)) as [e ->]; [unfold inGrid, gridSize; lia|].
  destruct (Hread (x - 1) y (x >? 0)) as [w ->]; [unfold inGrid, gridSize; lia|].
  simpl. eauto.
Qed.

(** X16. On a fully populated map [drawTile] never throws for a cell of the
    screen grid. It paints at most two walls and then the top face: the wall
    on the X side only when the tile is strictly higher than the tile shown
    at [(x + 1, y)], or stands on the last column with a positive height,
    the wall being as high as the difference; likewise on the Y side with
    [(x, y + 1)]. The top face is the diamond with half-diagonals
    [isoTileWidth / 2] and [isoTileHeight / 2] around the point that, after
    the translation by 100 of [draw], is [topFaceCenter]. *)
Theorem drawTile_shape (rotation : Z) (map : Map) (x y : Z) (tile : Tile) :
  populated map → inGrid x y →
  getTile map (getRotatedCoords rotation x y).1 (getRotatedCoords rotation x y).2 = Ok tile →
  ∃ heightDiffX heightDiffY,
    drawTile rotation map x y
    = Ok ((if heightDiffX >? 0
           then wallX tile (isoToScreen x y)
                      ((isoToScreen x y).2 - height tile * heightStep) heightDiffX
           else []) ++
          (if heightDiffY >? 0
           then wallY tile (isoToScreen x y)
                      ((isoToScreen x y).2 - height tile * heightStep) heightDiffY
           else []) ++
          fillQuad (TILE_TYPES_top (type tile))
            ((topFaceCenter x y tile).1 - isoTileWidth / 2, (topFaceCenter x y tile).2 - 100)
            ((topFaceCenter x y tile).1,
             (topFaceCenter x y tile).2 - 100 + isoTileHeight / 2)
            ((topFaceCenter x y tile).1 + isoTileWidth / 2, (topFaceCenter x y tile).2 - 100)
            ((topFaceCenter x y tile).1,
             (topFaceCenter x y tile).2 - 100 - isoTileHeight / 2)) ∧
    heightDiffX
    = (if decide (x = gridSize - 1) then height tile
       else height tile
            - height (tileAt map (getRotatedCoords rotation (x + 1) y).1
                                 (getRotatedCoords rotation (x + 1) y).2)) ∧
    heightDiffY
    = (if decide (y = gridSize - 1) then height tile
       else height tile
            - height (tileAt map (getRotatedCoords rotation x (y + 1)).1
                                 (getRotatedCoords rotation x (y + 1)).2)).
Proof.
  intros Hpop [Hx Hy] Htile. unfold gridSize in Hx, Hy.
  unfold drawTile. rewrite Htile. cbn [bind].
  assert (Htop : topFace tile (isoToScreen x y) ((isoToScreen x y).2 - height tile * heightStep)
    = fillQuad (TILE_TYPES_top (type tile))
        ((topFaceCenter x y tile).1 - isoTileWidth / 2, (topFaceCenter x y tile).2 - 100)
        ((topFaceCenter x y tile).1, (topFaceCenter x y tile).2 - 100 + isoTileHeight / 2)
        ((topFaceCenter x y tile).1 + isoTileWidth / 2, (topFaceCenter x y tile).2 - 100)
        ((topFaceCenter x y tile).1, (topFaceCenter x y tile).2 - 100 - isoTileHeight / 2)).
  { unfold topFace, topFaceCenter. cbn [fst snd].
    change (isoTileWidth / 2) with 32. change isoTileWidth with 64.
    change (isoTileHeight / 2) with 16.
    unfold fillQuad. cbn [fst snd].
    set (sx := (isoToScreen x y).1). set (ty := (isoToScreen x y).2 - height tile * heightStep).
    replace (sx + 32 - 32) with sx by lia. replace (ty + 100 - 100) with ty by lia.
    by replace (sx + 32 + 32) with (sx + 64) by lia. }
  rewrite Htop. change (gridSize - 1) with 15.
  destruct (decide (x = 15)) as [->|Hx15], (decide (y = 15)) as [->|Hy15].
  - cbn [Z.ltb Z.compare Pos.compare Pos.compare_cont bind]. by eexists _, _.
  - replace (y <? 15) with true by lia. change (15 <? 15) with false. lazy iota.
    rewrite readCell_populated
      by (try done; apply getRotatedCoords_inGrid; unfold inGrid, gridSize; lia).
    cbn [bind]. by eexists _, _.
  - replace (x <? 15) with true by lia. change (15 <? 15) with false. lazy iota.
    rewrite readCell_populated
      by (try done; apply getRotatedCoords_inGrid; unfold inGrid, gridSize; lia).
    cbn [bind]. by eexists _, _.
  - replace (x <? 15) with true by lia. replace (y <? 15) with true by lia.
    rewrite !readCell_populated
      by (try done; apply getRotatedCoords_inGrid; unfold inGrid, gridSize; lia).
    cbn [bind]. by eexists _, _.
Qed.

Lemma drawTile_shape_witness :
  ∃ commands, drawTile 0 lowMap 15 15 = Ok commands ∧ length commands = 24%nat.
Proof.
  destruct (drawTile_shape 0 lowMap 15 15 (mkTile GRASS 1))
    as (dX & dY & Hdraw & HdX & HdY).
  - apply populatedb_populated. vm_compute. reflexivity.
  - unfold inGrid, gridSize. lia.
  - vm_compute. reflexivity.
  - eexists. split; [exact Hdraw|]. rewrite HdX, HdY. vm_compute. reflexivity.
Defined.

(** X17. Without rotation the two variants of [drawTile] paint the same
    quads on a fully populated map. With [heightDiffX] and [heightDiffY] the
    height of the tile less that of the tile shown at [(x + 1, y)] and at
    [(x, y + 1)] (the tile's own height on the last column or row),
    [script.js] paints the wall on the X side if [heightDiffX > 0], then the
    wall on the Y side if [heightDiffY > 0], then the top face;
    [script_option2.js] paints the same wall on the Y side first, then the
    same wall on the X side, then the same top face. *)
Theorem drawTile_variants_unrotated (map : Map) (x y : Z) (tile : Tile) :
  populated map → inGrid x y →
  getTile map (getRotatedCoords 0 x y).1 (getRotatedCoords 0 x y).2 = Ok tile →
  ∃ heightDiffX heightDiffY,
    drawTile 0 map x y
    = Ok ((if heightDiffX >? 0
           then wallX tile (isoToScreen x y)
                      ((isoToScreen x y).2 - height tile * heightStep) heightDiffX
           else []) ++
          (if heightDiffY >? 0
           then wallY tile (isoToScreen x y)
                      ((isoToScreen x y).2 - height tile * heightStep) heightDiffY
           else []) ++
          topFace tile (isoToScreen x y) ((isoToScreen x y).2 - height tile * heightStep)) ∧
    Option2.drawTile 0 map x y
    = Ok ((if heightDiffY >? 0
           then wallY tile (isoToScreen x y)
                      ((isoToScreen x y).2 - height tile * heightStep) heightDiffY
           else []) ++
          (if heightDiffX >? 0
           then wallX tile (isoToScreen x y)
                      ((isoToScreen x y).2 - height tile * heightStep) heightDiffX
           else []) ++
          topFace tile (isoToScreen x y) ((isoToScreen x y).2 - height tile * heightStep)) ∧
    heightDiffX
    = (if decide (x = gridSize - 1) then height tile
       else height tile
            - height (tileAt map (getRotatedCoords 0 (x + 1) y).1
                                 (getRotatedCoords 0 (x + 1) y).2)) ∧
    heightDiffY
    = (if decide (y = gridSize - 1) then height tile
       else height tile
            - height (tileAt map (getRotatedCoords 0 x (y + 1)).1
                                 (getRotatedCoords 0 x (y + 1)).2)).
Proof.
  intros Hpop Hin Htile. pose proof Hin as [Hx Hy]. unfold gridSize in Hx, Hy.
  unfold drawTile, Option2.drawTile. rewrite Htile. cbn [bind].
  destruct (get_map_neighbors_total map _ _ Hpop (getRotatedCoords_inGrid 0 x y Hin))
    as [nb ->]. cbn [bind].
  change (gridSize - 1) with 15.
  destruct (decide (x = 15)) as [->|Hx15], (decide (y = 15)) as [->|Hy15].
  - change (15 <? 15) with false. lazy iota. cbn [bind]. rewrite Z.sub_0_r.
    rewrite decide_True, <- app_assoc by done.
    by eexists _, _.
  - replace (y <? 15) with true by lia. change (15 <? 15) with false. lazy iota.
    rewrite readCell_populated, getTile_populated
      by (try done; apply getRotatedCoords_inGrid; unfold inGrid, gridSize; lia).
    cbn [bind]. rewrite Z.sub_0_r. rewrite decide_True, <- app_assoc by done.
    by eexists _, _.
  - replace (x <? 15) with true by lia. change (15 <? 15) with false. lazy iota.
    rewrite readCell_populated, getTile_populated
      by (try done; apply getRotatedCoords_inGrid; unfold inGrid, gridSize; lia).
    cbn [bind]. rewrite Z.sub_0_r. rewrite decide_True, <- app_assoc by done.
    by eexists _, _.
  - replace (x <? 15) with true by lia. replace (y <? 15) with true by lia.
    rewrite !readCell_populated, !getTile_populated
      by (try done; apply getRotatedCoords_inGrid; unfold inGrid, gridSize; lia).
    cbn [bind]. rewrite decide_True, <- app_assoc by done.
    by eexists _, _.
Qed.

Lemma drawTile_variants_unrotated_witness :
  ∃ heightDiffX heightDiffY,
    drawTile 0 lowMap 15 15
    = Ok (wallX (mkTile GRASS 1) (isoToScreen 15 15)
                ((isoToScreen 15 15).2 - height (mkTile GRASS 1) * heightStep) heightDiffX ++
          wallY (mkTile GRASS 1) (isoToScreen 15 15)
                ((isoToScreen 15 15).2 - height (mkTile GRASS 1) * heightStep) heightDiffY ++
          topFace (mkTile GRASS 1) (isoToScreen 15 15)
                  ((isoToScreen 15 15).2 - height (mkTile GRASS 1) * heightStep)) ∧
    Option2.drawTile 0 lowMap 15 15
    = Ok (wallY (mkTile GRASS 1) (isoToScreen 15 15)
                ((isoToScreen 15 15).2 - height (mkTile GRASS 1) * heightStep) heightDiffY ++
          wallX (mkTile GRASS 1) (isoToScreen 15 15)
                ((isoToScreen 15 15).2 - height (mkTile GRASS 1) * heightStep) heightDiffX ++
          topFace (mkTile GRASS 1) (isoToScreen 15 15)
                  ((isoToScreen 15 15).2 - height (mkTile GRASS 1) * heightStep)) ∧
    heightDiffX = 1 ∧ heightDiffY = 1.
Proof.
  destruct (drawTile_variants_unrotated lowMap 15 15 (mkTile GRASS 1))
    as (dX & dY & Hdraw & Hdraw2 & HdX & HdY).
  - apply populatedb_populated. vm_compute. reflexivity.
  - unfold inGrid, gridSize. lia.
  - vm_compute. reflexivity.
  - exists dX, dY.
    assert (HX : dX = 1) by (rewrite HdX; vm_compute; reflexivity).
    assert (HY : dY = 1) by (rewrite HdY; vm_compute; reflexivity).
    rewrite Hdraw, Hdraw2, HX, HY. repeat split; reflexivity.
Defined.


(** ** Painting the highlight and the objects *)

Lemma getRotatedCoords_eq_iff rotation x y hx hy :
  getRotatedCoords rotation x y = (hx, hy) ↔
  (x, y) = getInverseRotatedCoords rotation hx hy.
Proof.
  unfold getRotatedCoords, getInverseRotatedCoords, gridSize.
  repeat case_decide; split; intros [= ? ?]; f_equal; lia.
Qed.


Lemma foldM_log_flat_map {A} (row : A → result (list Command)) (f : A → list Command)
    log (l : list A) :
  (∀ a, a ∈ l → row a = Ok (f a)) →
  foldM (fun log a => let? commands := row a in Ok (log ++ commands)) log l
  = Ok (log ++ flat_map f l).
Proof.
  revert log. induction l as [|a l IH]; intros log Hall; simpl.
  - by rewrite app_nil_r.
  - rewrite Hall by left. simpl. rewrite IH by (intros; apply Hall; by right).
    by rewrite <- app_assoc.
Qed.

Lemma forCells_flat_map (body : Z → Z → result (list Command)) (f : Z → Z → list Command) :
  (∀ x y, inGrid x y → body x y = Ok (f x y)) →
  forCells body
  = Ok (flat_map (fun p : Z * Z => f p.2 p.1) (list_prod (seqZ 0 gridSize) (seqZ 0 gridSize))).
Proof.
  intros Hbody. unfold forCells.
  rewrite (foldM_nested
             (fun y log x => let? commands := body x y in Ok (log ++ commands))).
  rewrite (foldM_log_flat_map (fun p : Z * Z => body p.2 p.1) (fun p => f p.2 p.1)); [done|].
  intros [y x] [Hy Hx]%list_elem_of_In%in_prod_iff. cbn [fst snd].
  apply Hbody. apply list_elem_of_In, elem_of_seqZ in Hx, Hy. split; lia.
Qed.





Lemma NoDup_cells : NoDup (list_prod (seqZ 0 gridSize) (seqZ 0 gridSize)).
Proof. apply (bool_decide_unpack _). vm_compute. exact I. Qed.

Lemma NoDup_omap_inj {A B} (g : A → option B) (l : list A) :
  NoDup l →
  (∀ a b o, a ∈ l → b ∈ l → g a = Some o → g b = Some o → a = b) →
  NoDup (omap g l).
Proof.
  induction 1 as [|a l Hfresh Hnodup IH]; intros Hinj; simpl; [constructor|].
  assert (Hrest : NoDup (omap g l)).
  { apply IH. intros a' b o Ha Hb. apply Hinj; by right. }
  destruct (g a) as [o|] eqn:Hga; [|done].
  constructor; [|done].
  intros (b & Hb & Hgb)%list_elem_of_omap.
  destruct Hfresh. by rewrite (Hinj a b o) by (done || (by left) || (by right)).
Qed.

Lemma flat_map_found {A B C} (found : A → option B) (k : B → C) (l : list A) :
  flat_map (fun a => match found a with Some o => [k o] | None => [] end) l
  = k <$> omap found l.
Proof.
  induction l as [|a l IH]; simpl; [done|].
  rewrite IH. by destruct (found a).
Qed.

Lemma distinctCells_inj objects obj obj' :
  distinctCells objects → obj ∈ objects → obj' ∈ objects →
  obj_x obj = obj_x obj' → obj_y obj = obj_y obj' → obj = obj'.
Proof.
  unfold distinctCells. induction objects as [|o objects IH]; intros Hnodup Hin Hin' Hx Hy.
  - by apply not_elem_of_nil in Hin.
  - rewrite fmap_cons in Hnodup. apply NoDup_cons in Hnodup as [Hfresh Hnodup].
    apply elem_of_cons in Hin as [->|Hin], Hin' as [->|Hin']; [done| | |by apply IH].
    + destruct Hfresh. apply list_elem_of_fmap. exists obj'. by rewrite Hx, Hy.
    + destruct Hfresh. apply list_elem_of_fmap. exists obj. by rewrite Hx, Hy.
Qed.

Lemma drawObject_cell rotation map objects x y :
  populated map → inGrid x y →
  drawObject rotation map objects x y
  = Ok (match List.find (fun o => bool_decide (obj_x o = (getRotatedCoords rotation x y).1)
                                  && bool_decide (obj_y o = (getRotatedCoords rotation x y).2))
                        objects with
        | Some obj => [glyphOf rotation map obj]
        | None => []
        end).
Proof.
  intros Hpop Hin. unfold drawObject.
  destruct (List.find _ objects) as [obj|] eqn:Hfind; [|done].
  apply find_some in Hfind as [_ Hat].
  apply andb_prop in Hat as [Hx%bool_decide_eq_true Hy%bool_decide_eq_true].
  rewrite (getTile_populated map _ _ Hpop (getRotatedCoords_inGrid rotation x y Hin)).
  cbn [bind]. unfold glyphOf.
  assert (Hv : (x, y) = getInverseRotatedCoords rotation (obj_x obj) (obj_y obj)).
  { apply getRotatedCoords_eq_iff. rewrite Hx, Hy. by destruct (getRotatedCoords _ _ _). }
  rewrite <- Hv, Hx, Hy. unfold topFaceCenter. cbn [fst snd].
  do 3 f_equal. lia.
Qed.

(** X19. On a fully populated map, with the placed objects on the grid and
    on distinct cells, the object pass of [draw] never throws and writes the
    glyph of every placed object exactly once, anchored on the center of the
    top face of the object's tile: its log is a permutation of the objects'
    glyphs. *)
Theorem glyphs_once (rotation : Z) (map : Map) (objects : list PlacedObject) :
  populated map → Forall onGrid objects → distinctCells objects →
  ∃ log, forCells (drawObject rotation map objects) = Ok log ∧
         log ≡ₚ glyphOf rotation map <$> objects.
Proof.
  intros Hpop Hobjs Hdistinct.
  set (found := fun p : Z * Z =>
    List.find (fun o => bool_decide (obj_x o = (getRotatedCoords rotation p.2 p.1).1)
                        && bool_decide (obj_y o = (getRotatedCoords rotation p.2 p.1).2))
              objects).
  eexists. split.
  { apply (forCells_flat_map _
      (fun x y => match found (y, x) with
                  | Some obj => [glyphOf rotation map obj] | None => [] end)).
    intros x y Hin. by apply drawObject_cell. }
  rewrite (flat_map_ext _
             (fun p => match found p with
                       | Some obj => [glyphOf rotation map obj] | None => [] end))
    by (by intros [? ?]).
  rewrite flat_map_found. apply fmap_Permutation.
  assert (Hat : ∀ p o, found p = Some o →
            o ∈ objects ∧ getRotatedCoords rotation p.2 p.1 = (obj_x o, obj_y o)).
  { intros p o [Hin Hat]%find_some. split; [by apply list_elem_of_In|].
    apply andb_prop in Hat as [Hx%bool_decide_eq_true Hy%bool_decide_eq_true].
    rewrite Hx, Hy. by destruct (getRotatedCoords _ _ _). }
  apply NoDup_Permutation.
  - apply NoDup_omap_inj; [apply NoDup_cells|].
    intros [ya xa] [yb xb] o _ _ [_ Ha]%Hat [_ Hb]%Hat. cbn [fst snd] in *.
    apply getRotatedCoords_eq_iff in Ha, Hb. congruence.
  - by apply NoDup_fmap_1 in Hdistinct.
  - intros o. rewrite list_elem_of_omap. split.
    + by intros (p & _ & [? _]%Hat).
    + intros Ho. rewrite Forall_forall in Hobjs.
      pose proof (getInverseRotatedCoords_inGrid rotation _ _ (Hobjs o Ho)) as [Hvx Hvy].
      pose proof (getRotatedCoords_inverse rotation (obj_x o) (obj_y o)) as Hback.
      destruct (getInverseRotatedCoords rotation (obj_x o) (obj_y o)) as [vx vy].
      cbn [fst snd] in *. exists (vy, vx). split.
      * apply list_elem_of_In, in_prod_iff.
        rewrite <- !list_elem_of_In, !elem_of_seqZ. lia.
      * destruct (found (vy, vx)) as [o'|] eqn:Hfound.
        -- f_equal. destruct (Hat _ _ Hfound) as [Ho' Hat'].
           cbn [fst snd] in Hat'. rewrite Hback in Hat'. injection Hat' as Hx Hy.
           by apply (distinctCells_inj objects).
        -- unfold found in Hfound. apply list_elem_of_In in Ho.
           pose proof (find_none _ _ Hfound o Ho) as Hno. cbn [fst snd] in Hno.
           rewrite Hback in Hno. cbn [fst snd] in Hno.
           by rewrite !bool_decide_eq_true_2 in Hno.
Qed.

Lemma glyphs_once_witness :
  ∃ log, forCells (drawObject 1 lowMap [mkObject 3 4 tree spread_grass]) = Ok log ∧
         log ≡ₚ glyphOf 1 lowMap <$> [mkObject 3 4 tree spread_grass].
Proof.
  apply (glyphs_once 1 lowMap [mkObject 3 4 tree spread_grass]).
  - apply populatedb_populated. vm_compute. reflexivity.
  - apply Forall_singleton. unfold onGrid, inGrid, gridSize. simpl. lia.
  - unfold distinctCells. simpl. apply NoDup_singleton.
Defined.


(** ** Selecting and placing *)

(** X20. Selecting and placing compose as expected: after a click on the
    button of a tool that was not selected, a click on a free hovered cell
    appends an object of that tool with the tool's effect; after a second
    click on the same button the tool is deselected, and a canvas click only
    shows the message of [NoToolSelected], on a free cell and on an occupied
    one alike. *)
Theorem select_then_click (tool : Tool) (selectedTool : option Tool) (x y : Z)
    (objects : list PlacedObject) :
  selectedTool ≠ Some tool →
  (handleToolSelect tool selectedTool).1 = Some tool ∧
  (¬ occupied x y objects →
     handleCanvasClick (handleToolSelect tool selectedTool).1 (Some (x, y)) objects
     = (objects ++ [mkObject x y tool (OBJECT_TYPES_effect tool)], None)) ∧
  (handleToolSelect tool (handleToolSelect tool selectedTool).1).1 = None ∧
  handleCanvasClick (handleToolSelect tool (handleToolSelect tool selectedTool).1).1
                    (Some (x, y)) objects
  = (objects, Some NoToolSelected).
Proof.
  intros Hother.
  assert (Hsel : (handleToolSelect tool selectedTool).1 = Some tool).
  { unfold handleToolSelect. by rewrite bool_decide_eq_false_2. }
  rewrite Hsel.
  assert (Hoff : (handleToolSelect tool (Some tool)).1 = None).
  { unfold handleToolSelect. by rewrite bool_decide_eq_true_2. }
  rewrite Hoff. split; [done|]. split; [|done].
  intros Hfree. unfold handleCanvasClick.
  destruct (List.find _ objects) as [obj|] eqn:Hfind; [|done].
  destruct Hfree. apply find_occupied. eauto.
Qed.

Lemma select_then_click_witness :
  handleCanvasClick (handleToolSelect tree (handleToolSelect tree (Some obelisk)).1).1
                    (Some (3, 4)) []
  = ([], Some NoToolSelected).
Proof. apply (select_then_click tree (Some obelisk) 3 4 []). discriminate. Defined.

(** X21. Clicks only ever append: after any sequence of clicks the old
    object list is a prefix of the new one, at most one object is added per
    click, and every added object stands on the tile hovered at one of the
    clicks, has the tool selected at that click as its type and that tool's
    effect as its effect. *)
Theorem clicks_append_only (clicks : list (option Tool * option Coords))
    (objects : list PlacedObject) :
  ∃ added, clickAll clicks objects = objects ++ added ∧
    (length added ≤ length clicks)%nat ∧
    ∀ obj, obj ∈ added →
      (Some (obj_type obj), Some (obj_x obj, obj_y obj)) ∈ clicks ∧
      obj_effect obj = OBJECT_TYPES_effect (obj_type obj).
Proof.
  unfold clickAll. revert objects.
  induction clicks as [|[selectedTool hoveredTile] clicks IH]; intros objects.
  - exists []. rewrite app_nil_r. split; [done|]. split; [done|].
    intros obj Hobj. by apply not_elem_of_nil in Hobj.
  - cbn [foldl fst snd].
    assert (Hstep : ∃ new, (handleCanvasClick selectedTool hoveredTile objects).1
                           = objects ++ new ∧ (length new ≤ 1)%nat ∧
              ∀ obj, obj ∈ new →
                (Some (obj_type obj), Some (obj_x obj, obj_y obj))
                = (selectedTool, hoveredTile) ∧
                obj_effect obj = OBJECT_TYPES_effect (obj_type obj)).
    { unfold handleCanvasClick.
      assert (Hnone : ∃ new, objects = objects ++ new ∧ (length new ≤ 1)%nat ∧
                ∀ obj, obj ∈ new →
                  (Some (obj_type obj), Some (obj_x obj, obj_y obj))
                  = (selectedTool, hoveredTile) ∧
                  obj_effect obj = OBJECT_TYPES_effect (obj_type obj)).
      { exists []. rewrite app_nil_r. split; [done|]. split; [simpl; lia|].
        intros obj Hobj. by apply not_elem_of_nil in Hobj. }
      destruct selectedTool as [tool|]; [|done].
      destruct hoveredTile as [[x y]|]; [|done].
      destruct (List.find _ objects); [done|].
      exists [mkObject x y tool (OBJECT_TYPES_effect tool)].
      split; [done|]. split; [simpl; lia|].
      by intros obj ->%list_elem_of_singleton. }
    destruct Hstep as (new & -> & Hlen & Hnew).
    destruct (IH (objects ++ new)) as (added & -> & Hlen' & Hadded).
    exists (new ++ added). rewrite app_assoc. split; [done|].
    split; [rewrite length_app; simpl; lia|].
    intros obj [Hobj|Hobj]%elem_of_app.
    + destruct (Hnew obj Hobj) as [<- ?]. split; [by left|done].
    + destruct (Hadded obj Hobj) as [? ?]. split; [by right|done].
Qed.

(** ** The game never throws *)

Lemma screenToIso_total {num : Type} `{Number num} rotation map (mouseX mouseY : num) :
  populated map → ∃ r, screenToIso rotation map mouseX mouseY = Ok r.
Proof.
  intros Hpop. unfold screenToIso.
  set (adjustedMouseY := num_sub mouseY (num_of_Z 100)).
  assert (Hcell : ∀ x y, inGrid x y →
            ∃ r, pickCell rotation map mouseX adjustedMouseY x y = Ok r).
  { intros x y Hin. unfold pickCell.
    rewrite (getTile_populated map _ _ Hpop (getRotatedCoords_inGrid rotation x y Hin)).
    cbn [bind]. destruct (inTileArea _ _ _ _); [|eauto].
    destruct (inDiamond _ _ _ _); eauto. }
  assert (Hrow : ∀ y xs, 0 ≤ y < gridSize → (∀ x, x ∈ xs → 0 ≤ x < gridSize) →
            ∃ r, pickInRow rotation map mouseX adjustedMouseY y xs = Ok r).
  { intros y xs Hy. induction xs as [|x xs IH]; intros Hxs; cbn [pickInRow]; [eauto|].
    destruct (Hcell x y) as [[c|] ->]; [split; [apply Hxs; left|done]|cbn [bind]; eauto|].
    cbn [bind]. apply IH. intros; apply Hxs; by right. }
  assert (Hrows : ∀ ys, (∀ y, y ∈ ys → 0 ≤ y < gridSize) →
            ∃ r, pickInRows rotation map mouseX adjustedMouseY ys = Ok r).
  { induction ys as [|y ys IH]; intros Hys; cbn [pickInRows]; [eauto|].
    destruct (Hrow y (seqZ 0 gridSize)) as [[c|] ->];
      [apply Hys; left|intros x Hx%elem_of_seqZ; lia|cbn [bind]; eauto|].
    cbn [bind]. apply IH. intros; apply Hys; by right. }
  apply Hrows. intros y Hy%elem_of_seqZ. lia.
Qed.

Lemma drawTile_total rotation map x y :
  populated map → inGrid x y → ∃ log, drawTile rotation map x y = Ok log.
Proof.
  intros Hpop Hin. pose proof Hin as [Hx Hy]. unfold gridSize in Hx, Hy.
  unfold drawTile.
  rewrite (getTile_populated map _ _ Hpop (getRotatedCoords_inGrid rotation x y Hin)).
  cbn [bind].
  assert (Hread : ∀ a b (c : bool),
            (c = true → inGrid a b) →
            ∃ cell, (if c then readCell map (getRotatedCoords rotation a b).1
                                            (getRotatedCoords rotation a b).2
                     else Ok None) = Ok cell).
  { intros a b [] Hc; [|eauto].
    rewrite readCell_populated by auto using getRotatedCoords_inGrid. eauto. }
  destruct (Hread (x + 1) y (x <? gridSize - 1)) as [r ->];
    [unfold inGrid, gridSize; lia|].
  destruct (Hread x (y + 1) (y <? gridSize - 1)) as [b ->];
    [unfold inGrid, gridSize; lia|].
  cbn [bind]. eauto.
Qed.

Lemma forCells_total (body : Z → Z → result (list Command)) :
  (∀ x y, inGrid x y → ∃ log, body x y = Ok log) →
  ∃ log, forCells body = Ok log.
Proof.
  intros Hbody. eexists.
  apply (forCells_flat_map body
           (fun x y => match body x y with Ok log => log | TypeError => [] end)).
  intros x y Hin. by destruct (Hbody x y Hin) as [log ->].
Qed.

Lemma drawHighlight_total rotation map hoveredTile :
  populated map → (∀ c : Coords, hoveredTile = Some c → inGrid c.1 c.2) →
  ∃ log, drawHighlight rotation map hoveredTile = Ok log.
Proof.
  intros Hpop Hhov. destruct hoveredTile as [h|]; [|by exists []].
  specialize (Hhov h eq_refl). unfold drawHighlight.
  assert (Hcell : ∀ x y, ∃ r, highlightCell rotation map h x y = Ok r).
  { intros x y. unfold highlightCell. destruct (_ && _); [|eauto].
    rewrite (getTile_populated map _ _ Hpop Hhov). cbn [bind]. eauto. }
  assert (Hrow : ∀ y xs, ∃ log, highlightRow rotation map h y xs = Ok log).
  { intros y xs. induction xs as [|x xs IH]; cbn [highlightRow]; [eauto|].
    destruct (Hcell x y) as [[c|] ->]; cbn [bind]; eauto. }
  assert (Hrows : ∀ ys log, ∃ log',
            foldM (fun log y =>
                     let? commands := highlightRow rotation map h y (seqZ 0 gridSize) in
                     Ok (log ++ commands)) log ys = Ok log').
  { induction ys as [|y ys IH]; intros log; cbn [foldM]; [eauto|].
    destruct (Hrow y (seqZ 0 gridSize)) as [commands ->]. cbn [bind]. apply IH. }
  apply Hrows.
Qed.

Lemma draw_total rotation map objects hoveredTile :
  populated map → (∀ c : Coords, hoveredTile = Some c → inGrid c.1 c.2) →
  ∃ log, draw rotation map objects hoveredTile = Ok log.
Proof.
  intros Hpop Hhov. unfold draw.
  destruct (forCells_total (drawTile rotation map)) as [tiles ->].
  { intros x y Hin. by apply drawTile_total. }
  destruct (drawHighlight_total rotation map hoveredTile Hpop Hhov) as [highlight ->].
  destruct (forCells_total (drawObject rotation map objects)) as [glyphs ->].
  { intros x y Hin. rewrite drawObject_cell by done. eauto. }
  cbn [bind]. eauto.
Qed.

(** ** What a frame touches *)

Lemma heightsUpTob_heightsUpTo bound map :
  heightsUpTob bound map = true → heightsUpTo bound map.
Proof.
  unfold heightsUpTob. rewrite forallb_forall. intros Hall x y tile [Hx Hy] Htile.
  specialize (Hall y). rewrite forallb_forall in Hall.
  assert (Hyin : In y (seqZ 0 gridSize)).
  { apply list_elem_of_In, elem_of_seqZ. lia. }
  assert (Hxin : In x (seqZ 0 gridSize)).
  { apply list_elem_of_In, elem_of_seqZ. lia. }
  specialize (Hall Hyin x Hxin). rewrite Htile in Hall. lia.
Qed.

Lemma foldM_invariant {A S} (body : S → A → result S) (I : S → Prop) l :
  ∀ s s',
    I s → (∀ s a s', a ∈ l → I s → body s a = Ok s' → I s') →
    foldM body s l = Ok s' → I s'.
Proof.
  induction l as [|a l IH]; intros s s' Hs Hstep; cbn [foldM].
  - intros [= <-]. exact Hs.
  - destruct (body s a) as [s1|] eqn:Hbody; cbn [bind]; [|discriminate].
    apply IH.
    + apply (Hstep s a); [left|exact Hs|exact Hbody].
    + intros s2 a' s3 Ha'. apply Hstep. by right.
Qed.

Lemma forCells_Forall (P : Command → Prop) body log :
  (∀ x y commands, inGrid x y → body x y = Ok commands → Forall P commands) →
  forCells body = Ok log → Forall P log.
Proof.
  intros Hbody. unfold forCells.
  apply (foldM_invariant _ (Forall P)); [apply Forall_nil_2|].
  intros log0 y log1 Hy%elem_of_seqZ Hlog0.
  apply (foldM_invariant _ (Forall P)); [exact Hlog0|].
  intros log2 x log3 Hx%elem_of_seqZ Hlog2.
  destruct (body x y) as [commands|] eqn:Hcell; cbn [bind]; [|discriminate].
  intros [= <-]. apply Forall_app. split; [exact Hlog2|].
  apply (Hbody x y); [|exact Hcell]. unfold inGrid. lia.
Qed.

Lemma drawHighlight_Forall (P : Command → Prop) rotation map hovered log :
  (∀ x y commands,
      inGrid x y → highlightCell rotation map hovered x y = Ok (Some commands) →
      Forall P commands) →
  drawHighlight rotation map (Some hovered) = Ok log → Forall P log.
Proof.
  intros Hcell. unfold drawHighlight.
  apply (foldM_invariant _ (Forall P)); [apply Forall_nil_2|].
  intros log0 y log1 Hy%elem_of_seqZ Hlog0.
  destruct (highlightRow rotation map hovered y (seqZ 0 gridSize)) as [commands|] eqn:Hrow;
    cbn [bind]; [|discriminate].
  intros [= <-]. apply Forall_app. split; [exact Hlog0|].
  assert (Hxs : ∀ x, x ∈ seqZ 0 gridSize → 0 ≤ x < gridSize).
  { intros x Hx%elem_of_seqZ. lia. }
  revert Hrow Hxs. generalize (seqZ 0 gridSize). intros xs.
  induction xs as [|x xs IH]; cbn [highlightRow]; intros Hrow Hxs.
  - injection Hrow as <-. apply Forall_nil_2.
  - destruct (highlightCell rotation map hovered x y) as [[c|]|] eqn:Hc;
      cbn [bind] in Hrow; [| |discriminate].
    + injection Hrow as <-. apply (Hcell x y); [|exact Hc].
      unfold inGrid. split; [apply Hxs; left|lia].
    + apply IH; [exact Hrow|]. intros x' Hx'. apply Hxs. by right.
Qed.

Lemma paintedPoints_app origin saved log rest :
  Forall (paintsOnCanvas origin) log →
  Forall onCanvas (paintedPoints origin saved rest) →
  Forall onCanvas (paintedPoints origin saved (log ++ rest)).
Proof.
  intros Hlog Hrest. induction Hlog as [|c log Hc _ IH]; [exact Hrest|].
  destruct c; cbn [app paintedPoints paintsOnCanvas] in *;
    try exact IH; try (by destruct Hc); by apply Forall_cons.
Qed.

Ltac on_canvas :=
  unfold paintsOnCanvas, onCanvas; cbn [fst snd];
  change canvas_width with 1088; change canvas_height with 656;
  change heightStep with 16; change isoTileWidth with 64;
  change (isoTileHeight / 2) with 16; change (64 / 2) with 32;
  unfold inGrid, gridSize in *; lia.

Lemma fillQuad_onCanvas origin style p0 p1 p2 p3 :
  onCanvas (origin.1 + p0.1, origin.2 + p0.2) →
  onCanvas (origin.1 + p1.1, origin.2 + p1.2) →
  onCanvas (origin.1 + p2.1, origin.2 + p2.2) →
  onCanvas (origin.1 + p3.1, origin.2 + p3.2) →
  Forall (paintsOnCanvas origin) (fillQuad style p0 p1 p2 p3).
Proof.
  intros. unfold fillQuad.
  repeat (apply Forall_cons; split; [first [exact I|assumption]|]). apply Forall_nil_2.
Qed.

Lemma drawTile_onCanvas rotation map x y commands :
  populated map → nonNegative map → heightsUpTo 5 map → inGrid x y →
  drawTile rotation map x y = Ok commands →
  Forall (paintsOnCanvas (0, 100)) commands.
Proof.
  intros Hpop Hnn Hup Hin Hdraw.
  pose proof (getRotatedCoords_inGrid rotation x y Hin) as Hrin.
  pose proof (getTile_populated map _ _ Hpop Hrin) as Htile.
  pose proof (Hnn _ _ _ Hrin Htile) as Hh0. pose proof (Hup _ _ _ Hrin Htile) as Hh5.
  unfold drawTile in Hdraw. rewrite Htile in Hdraw. cbn [bind] in Hdraw.
  set (tile := tileAt map (getRotatedCoords rotation x y).1
                          (getRotatedCoords rotation x y).2) in *.
  assert (Hread : ∀ a b (c : bool),
            (c = true → inGrid a b) →
            ∃ cell, (if c then readCell map (getRotatedCoords rotation a b).1
                                            (getRotatedCoords rotation a b).2
                     else Ok None) = Ok cell ∧
                    match cell with Some neighbor => 0 ≤ height neighbor | None => True end).
  { intros a b [] Hc; [|by exists None].
    pose proof (getRotatedCoords_inGrid rotation a b (Hc eq_refl)) as Habin.
    rewrite readCell_populated by done. eexists. split; [reflexivity|].
    apply (Hnn _ _ _ Habin). by apply getTile_populated. }
  destruct (Hread (x + 1) y (x <? gridSize - 1)) as (right & Hright & HnnX);
    [unfold inGrid, gridSize in *; lia|].
  destruct (Hread x (y + 1) (y <? gridSize - 1)) as (bottom & Hbottom & HnnY);
    [unfold inGrid, gridSize in *; lia|].
  rewrite Hright, Hbottom in Hdraw. cbn [bind] in Hdraw. injection Hdraw as <-.
  rewrite isoToScreen_pixels. cbn [fst snd].
  apply Forall_app. split; [|apply Forall_app; split].
  - destruct right as [neighbor|];
      (destruct (_ >? 0) eqn:Hwall; [|apply Forall_nil_2]);
      apply fillQuad_onCanvas; on_canvas.
  - destruct bottom as [neighbor|];
      (destruct (_ >? 0) eqn:Hwall; [|apply Forall_nil_2]);
      apply fillQuad_onCanvas; on_canvas.
  - apply fillQuad_onCanvas; on_canvas.
Qed.

Lemma highlightCell_onCanvas rotation map hovered x y commands :
  populated map → nonNegative map → heightsUpTo 5 map → inGrid x y →
  highlightCell rotation map hovered x y = Ok (Some commands) →
  Forall (paintsOnCanvas (0, 100)) commands.
Proof.
  intros Hpop Hnn Hup Hin. unfold highlightCell.
  pose proof (getRotatedCoords_inGrid rotation x y Hin) as Hrin.
  destruct (bool_decide _ && bool_decide _) eqn:Hhere; [|discriminate].
  apply andb_true_iff in Hhere as [Hhx%bool_decide_eq_true Hhy%bool_decide_eq_true].
  rewrite <- Hhx, <- Hhy.
  pose proof (getTile_populated map _ _ Hpop Hrin) as Htile.
  pose proof (Hnn _ _ _ Hrin Htile) as Hh0. pose proof (Hup _ _ _ Hrin Htile) as Hh5.
  rewrite Htile. cbn [bind]. rewrite isoToScreen_pixels. cbn [fst snd].
  intros Hcommands. injection Hcommands as <-.
  repeat (apply Forall_cons; split; [first [exact I|on_canvas]|]). apply Forall_nil_2.
Qed.

Lemma drawObject_onCanvas rotation map objects x y commands :
  populated map → nonNegative map → heightsUpTo 5 map → inGrid x y →
  drawObject rotation map objects x y = Ok commands →
  Forall (paintsOnCanvas (0, 100)) commands.
Proof.
  intros Hpop Hnn Hup Hin. unfold drawObject.
  pose proof (getRotatedCoords_inGrid rotation x y Hin) as Hrin.
  pose proof (getTile_populated map _ _ Hpop Hrin) as Htile.
  pose proof (Hnn _ _ _ Hrin Htile) as Hh0. pose proof (Hup _ _ _ Hrin Htile) as Hh5.
  destruct (List.find _ objects) as [obj|]; [|intros [= <-]; apply Forall_nil_2].
  rewrite Htile. cbn [bind]. rewrite isoToScreen_pixels. cbn [fst snd].
  intros Hcommands. injection Hcommands as <-.
  apply Forall_cons. split; [on_canvas|apply Forall_nil_2].
Qed.

(** X4. On a fully populated map whose heights are between 0 and 5, with
    the hovered tile, if any, on the grid, a frame stays on the canvas:
    [draw] never throws, and every point its log touches (the vertices of
    the walls, of the top faces and of the highlight outline, and the
    anchors of the glyphs, each moved by the translation by 100 in force) is
    a point of the canvas. *)
Theorem tiles_fit_canvas (rotation : Z) (map : Map) (objects : list PlacedObject)
    (hoveredTile : option Coords) :
  populated map → nonNegative map → heightsUpTo 5 map →
  (∀ c : Coords, hoveredTile = Some c → inGrid c.1 c.2) →
  ∃ log,
    draw rotation map objects hoveredTile = Ok log ∧
    Forall onCanvas (paintedPoints (0, 0) [] log).
Proof.
  intros Hpop Hnn Hup Hhov.
  destruct (draw_total rotation map objects hoveredTile Hpop Hhov) as [log Hlog].
  exists log. split; [exact Hlog|].
  unfold draw in Hlog.
  destruct (forCells (drawTile rotation map)) as [tiles|] eqn:Htiles;
    cbn [bind] in Hlog; [|discriminate].
  destruct (drawHighlight rotation map hoveredTile) as [highlight|] eqn:Hhighlight;
    cbn [bind] in Hlog; [|discriminate].
  destruct (forCells (drawObject rotation map objects)) as [glyphs|] eqn:Hglyphs;
    cbn [bind] in Hlog; [|discriminate].
  injection Hlog as <-. cbn [app paintedPoints fst snd].
  change (0 + 0, 0 + 100) with (0, 100).
  apply paintedPoints_app.
  { revert Htiles. apply forCells_Forall. intros x y commands Hin.
    by apply drawTile_onCanvas. }
  apply paintedPoints_app.
  { destruct hoveredTile as [hovered|]; [|injection Hhighlight as <-; apply Forall_nil_2].
    revert Hhighlight. apply drawHighlight_Forall. intros x y commands Hin.
    by apply highlightCell_onCanvas. }
  cbn [app paintedPoints].
  apply paintedPoints_app; [|apply Forall_nil_2].
  revert Hglyphs. apply forCells_Forall. intros x y commands Hin.
  by apply drawObject_onCanvas.
Qed.

Lemma tiles_fit_canvas_witness :
  ∃ log,
    draw 1 lowMap [mkObject 8 5 tree spread_grass] (Some (3, 3)) = Ok log ∧
    Forall onCanvas (paintedPoints (0, 0) [] log).
Proof.
  apply (tiles_fit_canvas 1 lowMap [mkObject 8 5 tree spread_grass] (Some (3, 3))).
  - apply populatedb_populated. vm_compute. reflexivity.
  - apply nonNegativeb_nonNegative. vm_compute. reflexivity.
  - apply heightsUpTob_heightsUpTo. vm_compute. reflexivity.
  - intros c Hc. injection Hc as <-. unfold inGrid, gridSize. simpl. lia.
Defined.

Lemma generateMap_wellformed random :
  (∀ k, (0 <= random k)%Q ∧ (random k < 1)%Q) →
  ∃ map, generateMap random = Ok map ∧ populated map ∧ nonNegative map.
Proof.
  intros Hrange.
  destruct (fillRows_spec random Hrange (seqZ 0 gridSize) ∅ O) as (m1 & k1 & Hfill & Hgrass).
  unfold generateMap. rewrite Hfill. cbn [bind fst].
  unfold carveRow. rewrite foldM_nested.
  destruct (carve_loop (gridSize / 2) (gridSize / 2)
              (list_prod (seqZ (-2) 5) (seqZ (-2) 5)) m1) as (map & Hcarve & Hlake).
  exists map. split; [done|].
  assert (Hcells : ∀ x y, inGrid x y → ∃ tile, getTile map x y = Ok tile ∧ 0 ≤ height tile).
  { intros x y [Hx Hy].
    destruct (Hgrass x y Hx) as (h & Hh & Hget); [left; apply elem_of_seqZ; lia|].
    destruct (Hlake x y _ Hget) as [[_ Hwater]|[_ Hkept]].
    - eexists. split; [done|]. simpl. lia.
    - eexists. split; [done|]. simpl. lia. }
  split.
  - intros x y Hin. destruct (Hcells x y Hin) as (tile & ? & _). eauto.
  - intros x y tile Hin Htile. destruct (Hcells x y Hin) as (tile' & Htile' & ?).
    congruence.
Qed.

Lemma resetGame_invariant random g :
  (∀ k, (0 <= random k)%Q ∧ (random k < 1)%Q) →
  0 ≤ game_rotation g ≤ 3 →
  ∃ g', resetGame random g = Ok g' ∧ gameInvariant g' ∧
        game_rotation g' = game_rotation g ∧ game_objects g' = [].
Proof.
  intros Hrange Hrot. unfold resetGame.
  destruct (generateMap_wellformed random Hrange) as (map & -> & Hpop & Hnn).
  cbn [bind]. eexists. split; [done|]. split; [|done].
  unfold gameInvariant; simpl; split_and!; try done; try lia. constructor.
Qed.

Lemma handleEvent_invariant g e :
  gameInvariant g → possible e →
  ∃ g', handleEvent g e = Ok g' ∧ gameInvariant g'.
Proof.
  intros (Hpop & Hnn & Hrot & Hobjs & Hdistinct & Hhov) He.
  destruct e as [clientX clientY rectLeft rectTop| | |tool|random| | |timestamp];
    cbn [handleEvent].
  - unfold handleCanvasMouseMove.
    destruct (screenToIso_total (game_rotation g) (game_map g)
                (clientX - rectLeft)%Q (clientY - rectTop)%Q Hpop) as [r Hr].
    rewrite Hr. cbn [bind]. eexists. split; [done|].
    unfold gameInvariant; simpl; split_and!; try done; try lia.
    intros c ->. unfold screenToIso in Hr.
    apply pickInRows_some_first in Hr as (x & y & Hin & Hhit & _).
    apply pickCell_some in Hhit as [-> _]. by apply getRotatedCoords_inGrid.
  - eexists. split; [done|]. unfold gameInvariant; simpl; split_and!; try done; lia.
  - eexists. split; [done|]. unfold gameInvariant; simpl; split_and!; try done; try lia.
    + unfold handleCanvasClick.
      destruct (game_selectedTool g) as [tool|]; [|done].
      destruct (game_hoveredTile g) as [[x y]|] eqn:Hh; [|done].
      destruct (List.find _ _); [done|]. simpl.
      apply Forall_app. split; [done|]. apply Forall_singleton.
      apply (Hhov (x, y) eq_refl).
    + by apply handleCanvasClick_distinct.
  - eexists. split; [done|]. unfold gameInvariant; simpl; split_and!; try done; lia.
  - destruct (resetGame_invariant random g He Hrot) as (g' & ? & ? & _). eauto.
  - eexists. split; [done|].
    destruct (rotateRight_four_times (game_rotation g) Hrot) as (_ & _ & ? & _).
    unfold gameInvariant; simpl; split_and!; try done; lia.
  - eexists. split; [done|].
    destruct (rotateRight_four_times (game_rotation g) Hrot) as (_ & ? & _ & _).
    unfold gameInvariant; simpl; split_and!; try done; lia.
  - unfold gameLoop. destruct (negb _).
    + destruct (updateMap_spec (game_objects g) (game_map g) Hpop Hobjs)
        as (map' & Hup & Hpop' & _).
      rewrite Hup. cbn [bind game_rotation game_map game_objects game_hoveredTile].
      destruct (draw_total (game_rotation g) map' (game_objects g) (game_hoveredTile g)
                  Hpop' Hhov) as [log ->].
      cbn [bind fst]. eexists. split; [done|].
      unfold gameInvariant; simpl; split_and!; try done; try lia.
      by apply (updateMap_nonNegative (game_objects g) (game_map g)).
    + cbn [bind].
      destruct (draw_total (game_rotation g) (game_map g) (game_objects g)
                  (game_hoveredTile g) Hpop Hhov) as [log ->].
      cbn [bind fst]. eexists. split; [done|].
      unfold gameInvariant; split_and!; try done; lia.
Qed.

Lemma run_invariant g0 events :
  gameInvariant g0 → Forall possible events →
  ∃ g, foldM handleEvent g0 events = Ok g ∧ gameInvariant g.
Proof.
  intros Hinv Hevents. revert g0 Hinv.
  induction Hevents as [|e events He _ IH]; intros g0 Hinv.
  - exists g0. split; [reflexivity|assumption].
  - destruct (handleEvent_invariant g0 e Hinv He) as (g1 & Hg1 & Hinv1).
    destruct (IH g1 Hinv1) as (g & Hrun & Hinv').
    exists g. cbn [foldM]. rewrite Hg1. cbn [bind]. split; assumption.
Qed.

(** X22. The game never throws and keeps its invariants: started by the
    script and fed any sequence of pointer moves, pointer leaves, clicks,
    tool selections, resets, rotations and animation frames, with
    [Math.random()] returning values in [0, 1), it handles every event, and
    afterwards the grid is fully populated with non-negative heights, the
    rotation state is one of 0..3, the placed objects are on the grid on
    distinct cells, and the hovered tile, if any, is a tile of the grid. *)
Theorem game_never_throws (random : nat → Q) (events : list Event) :
  (∀ k, (0 <= random k)%Q ∧ (random k < 1)%Q) →
  Forall possible events →
  ∃ g0 g, startGame random = Ok g0 ∧ foldM handleEvent g0 events = Ok g ∧
          gameInvariant g.
Proof.
  intros Hrange Hevents. unfold startGame.
  destruct (resetGame_invariant random (mkGame ∅ [] None None 0 0) Hrange)
    as (g0 & Hstart & Hinv & _); [cbn [game_rotation]; lia|].
  destruct (run_invariant g0 events Hinv Hevents) as (g & Hrun & Hinv').
  exists g0, g. split; [assumption|]. split; assumption.
Qed.

Lemma game_never_throws_witness :
  ∃ g0 g, startGame lowRandom = Ok g0 ∧
    foldM handleEvent g0
      [toolClick tree; mousemove 544 388 0 0; click; rotateRightClick;
       animationFrame 600; resetClick highRandom; mouseleave]
    = Ok g ∧ gameInvariant g.
Proof.
  apply (game_never_throws lowRandom).
  - intros k. unfold lowRandom. split; [discriminate|reflexivity].
  - repeat first [apply Forall_nil | apply Forall_cons; split]; try exact I.
    intros k. unfold highRandom. split; [discriminate|reflexivity].
Defined.

(** ** The pace of the simulation *)




(** ** Picking at the center of a top face, in general *)

Lemma pickInRows_seqZ_none {num : Type} `{Number num} rotation map
    (mouseX adjustedMouseY : num) lo (n : nat) :
  pickInRows rotation map mouseX adjustedMouseY (seqZ lo (Z.of_nat n)) = Ok None →
  ∀ y, lo ≤ y < lo + Z.of_nat n →
       pickInRow rotation map mouseX adjustedMouseY y (seqZ 0 gridSize) = Ok None.
Proof.
  revert lo. induction n as [|n IH]; intros lo.
  - intros _ y Hy. lia.
  - rewrite seqZ_cons by lia. replace (Z.pred (Z.of_nat (S n))) with (Z.of_nat n) by lia.
    cbn [pickInRows].
    destruct (pickInRow rotation map mouseX adjustedMouseY lo (seqZ 0 gridSize))
      as [[c'|]|] eqn:Hrow; cbn [bind]; [discriminate| |discriminate].
    intros Hrest y Hy. destruct (decide (y = lo)) as [->|?]; [done|].
    apply (IH _ Hrest). lia.
Qed.

(** With the pointer on the center of the top face of a tile of height [h]
    shown at [(vx, vy)], the cell at [(x, y)] accepts it exactly when it is
    on the same screen column and its top face is at the same level. *)
Lemma pickCell_center rotation map vx vy h x y tile' :
  getTile map (getRotatedCoords rotation x y).1 (getRotatedCoords rotation x y).2
  = Ok tile' →
  pickCell rotation map
           (inject_Z ((vx - vy) * 32 + 544 - 32 + isoTileWidth / 2))
           (num_sub (inject_Z ((vx + vy) * 16 - h * 16 + 100)) (num_of_Z 100)) x y
  = Ok (if decide (x - y = vx - vy ∧ x + y - height tile' = vx + vy - h)
        then Some (getRotatedCoords rotation x y) else None).
Proof.
  intros Htile'. unfold pickCell. rewrite Htile'. cbn [bind].
  rewrite isoToScreen_pixels. cbn [fst snd]. change heightStep with 16.
  case_decide as Hsame.
  - destruct Hsame as [Hcol Hlevel].
    replace ((vx - vy) * 32 + 544 - 32 + isoTileWidth / 2)
      with ((x - y) * 32 + 544 - 32 + isoTileWidth / 2) by (rewrite Hcol; lia).
    replace ((vx + vy) * 16 - h * 16 + 100)
      with ((x + y) * 16 - height tile' * 16 + 100) by lia.
    rewrite inTileArea_center.
    replace ((x - y) * 32 + 544 - 32 + isoTileWidth / 2)
      with ((x - y) * 32 + 544 - 32 + 32 * 0 + isoTileWidth / 2) by lia.
    replace ((x + y) * 16 - height tile' * 16 + 100)
      with ((x + y) * 16 - height tile' * 16 + 16 * 0 + 100) by lia.
    by rewrite (proj2 (inDiamond_center_iff _ _ _ 0 0)).
  - destruct (inTileArea _ _ _ _); [|done].
    replace ((vx - vy) * 32 + 544 - 32 + isoTileWidth / 2)
      with ((x - y) * 32 + 544 - 32 + 32 * ((vx - vy) - (x - y)) + isoTileWidth / 2) by lia.
    replace ((vx + vy) * 16 - h * 16 + 100)
      with ((x + y) * 16 - height tile' * 16
            + 16 * ((vx + vy - h) - (x + y - height tile')) + 100) by lia.
    destruct (inDiamond _ _ _ _) eqn:Hhit; [|done].
    apply inDiamond_center_iff in Hhit as [Ha Hb]. destruct Hsame. lia.
Qed.

(** X24. The pointer put on the center of the top face of a grid tile never
    picks nothing: [screenToIso] returns the tile shown [k ≥ 0] steps up the
    same screen column whose height is [2 k] lower, for the largest such [k]
    (so the tile itself when no tile further up matches). *)
Theorem center_pick_column (rotation : Z) (map : Map) (gx gy : Z) (tile : Tile) :
  populated map → inGrid gx gy →
  getTile map gx gy = Ok tile →
  ∃ k tile',
    0 ≤ k ∧
    inGrid ((getInverseRotatedCoords rotation gx gy).1 - k)
           ((getInverseRotatedCoords rotation gx gy).2 - k) ∧
    getTile map
      (getRotatedCoords rotation ((getInverseRotatedCoords rotation gx gy).1 - k)
                                 ((getInverseRotatedCoords rotation gx gy).2 - k)).1
      (getRotatedCoords rotation ((getInverseRotatedCoords rotation gx gy).1 - k)
                                 ((getInverseRotatedCoords rotation gx gy).2 - k)).2
    = Ok tile' ∧
    height tile' = height tile - 2 * k ∧
    screenToIso rotation map
      (inject_Z (topFaceCenter (getInverseRotatedCoords rotation gx gy).1
                               (getInverseRotatedCoords rotation gx gy).2 tile).1)
      (inject_Z (topFaceCenter (getInverseRotatedCoords rotation gx gy).1
                               (getInverseRotatedCoords rotation gx gy).2 tile).2)
    = Ok (Some (getRotatedCoords rotation
                  ((getInverseRotatedCoords rotation gx gy).1 - k)
                  ((getInverseRotatedCoords rotation gx gy).2 - k))) ∧
    ∀ j tile'',
      k < j →
      inGrid ((getInverseRotatedCoords rotation gx gy).1 - j)
             ((getInverseRotatedCoords rotation gx gy).2 - j) →
      getTile map
        (getRotatedCoords rotation ((getInverseRotatedCoords rotation gx gy).1 - j)
                                   ((getInverseRotatedCoords rotation gx gy).2 - j)).1
        (getRotatedCoords rotation ((getInverseRotatedCoords rotation gx gy).1 - j)
                                   ((getInverseRotatedCoords rotation gx gy).2 - j)).2
      = Ok tile'' →
      height tile'' ≠ height tile - 2 * j.
Proof.
  intros Hpop Hin Htile.
  pose proof (getRotatedCoords_inverse rotation gx gy) as Hback.
  pose proof (getInverseRotatedCoords_inGrid rotation gx gy Hin) as Hvin.
  destruct (getInverseRotatedCoords rotation gx gy) as [vx vy]. cbn [fst snd] in *.
  unfold topFaceCenter. rewrite isoToScreen_pixels. cbn [fst snd].
  change heightStep with 16.
  set (mouseX := inject_Z ((vx - vy) * 32 + 544 - 32 + isoTileWidth / 2)).
  set (mouseY := inject_Z ((vx + vy) * 16 - height tile * 16 + 100)).
  assert (Hown : pickCell rotation map mouseX (num_sub mouseY (num_of_Z 100)) vx vy
                 = Ok (Some (gx, gy))).
  { unfold mouseX, mouseY. rewrite (pickCell_center _ _ _ _ _ _ _ tile).
    - by rewrite decide_True, Hback by done.
    - by rewrite Hback. }
  destruct (screenToIso_total rotation map mouseX mouseY Hpop) as [r Hr].
  unfold screenToIso in Hr. destruct r as [c|].
  - pose proof Hr as (x & y & Hxy & Hhit & Hbefore)%pickInRows_some_first.
    destruct (Hpop _ _ (getRotatedCoords_inGrid rotation x y Hxy)) as [tile' Htile'].
    unfold mouseX, mouseY in Hhit, Hbefore.
    rewrite (pickCell_center _ _ _ _ _ _ _ tile' Htile') in Hhit.
    case_decide as Hsame; [|discriminate]. injection Hhit as <-.
    destruct Hsame as [Hcol Hlevel].
    assert (Hk : 0 ≤ vy - y).
    { destruct (decide (vy < y)) as [Hlt|?]; [|lia].
      specialize (Hbefore vx vy Hvin (or_introl Hlt)).
      fold mouseX mouseY in Hbefore. congruence. }
    exists (vy - y), tile'.
    replace (vx - (vy - y)) with x by lia. replace (vy - (vy - y)) with y by lia.
    split; [done|]. split; [done|]. split; [done|]. split; [lia|].
    split; [by unfold screenToIso|].
    intros j tile'' Hj Hjin Htile'' Hlevel'.
    assert (Hearlier : vy - j < y ∨ (vy - j = y ∧ vx - j < x)) by lia.
    specialize (Hbefore _ _ Hjin Hearlier).
    rewrite (pickCell_center _ _ _ _ _ _ _ tile'' Htile'') in Hbefore.
    rewrite decide_True in Hbefore by lia. discriminate.
  - exfalso. change gridSize with (Z.of_nat 16) in Hr at 1.
    pose proof (pickInRows_seqZ_none _ _ _ _ 0 16 Hr vy) as Hrow.
    destruct Hvin as [Hvx Hvy]. unfold gridSize in Hvx, Hvy.
    specialize (Hrow ltac:(lia)).
    pose proof (pickInRow_seqZ_none _ _ _ _ vy 0 16 Hrow vx ltac:(lia)) as Hcell.
    congruence.
Qed.

Lemma center_pick_column_witness :
  ∃ k tile',
    0 ≤ k ∧ height tile' = height (mkTile GRASS 2) - 2 * k ∧
    screenToIso 0 highMap
      (inject_Z (topFaceCenter (getInverseRotatedCoords 0 10 10).1
                               (getInverseRotatedCoords 0 10 10).2 (mkTile GRASS 2)).1)
      (inject_Z (topFaceCenter (getInverseRotatedCoords 0 10 10).1
                               (getInverseRotatedCoords 0 10 10).2 (mkTile GRASS 2)).2)
    = Ok (Some (getRotatedCoords 0 ((getInverseRotatedCoords 0 10 10).1 - k)
                                   ((getInverseRotatedCoords 0 10 10).2 - k))).
Proof.
  destruct (center_pick_column 0 highMap 10 10 (mkTile GRASS 2))
    as (k & tile' & Hk & _ & _ & Hlevel & Hpick & _).
  - apply populatedb_populated. vm_compute. reflexivity.
  - unfold inGrid, gridSize. lia.
  - vm_compute. reflexivity.
  - exists k, tile'. split; [exact Hk|]. split; [exact Hlevel|exact Hpick].
Defined.

(** ** The order of the objects *)

Lemma foldl_changeTile_far map objects x y tile :
  (∀ obj, obj ∈ objects → ¬ adjacent (obj_x obj) (obj_y obj) x y) →
  foldl (changeTile x y) tile (flat_map (deltasOf map) objects) = tile.
Proof.
  intros Hfar. apply foldl_changeTile_untargeted.
  intros c (obj & Hobj & Hc)%elem_of_batch [Hx Hy].
  apply deltasOf_target in Hc as [_ Hadj]. rewrite Hx, Hy in Hadj.
  by apply (Hfar obj).
Qed.

Lemma foldl_changeTile_only map objects obj x y tile :
  NoDup objects → obj ∈ objects →
  (∀ obj', obj' ∈ objects → adjacent (obj_x obj') (obj_y obj') x y → obj' = obj) →
  foldl (changeTile x y) tile (flat_map (deltasOf map) objects)
  = foldl (changeTile x y) tile (deltasOf map obj).
Proof.
  intros Hnodup Hobj Honly.
  apply list_elem_of_split in Hobj as (before & after & ->).
  apply NoDup_app in Hnodup as (_ & Hbefore & [Hafter _]%NoDup_cons).
  rewrite flat_map_app. cbn [flat_map]. rewrite !foldl_app.
  rewrite (foldl_changeTile_far map before).
  - apply foldl_changeTile_far. intros obj' Hobj' Hadj.
    apply Hafter. rewrite <- (Honly obj'); [done| |done].
    apply elem_of_app. right. by right.
  - intros obj' Hobj' Hadj.
    apply (Hbefore obj' Hobj'). rewrite (Honly obj'); [left| |done].
    apply elem_of_app. by left.
Qed.

(** X25. When no cell is a neighbor of two different objects, the order of
    the objects in the list does not matter to a tick: any reordering gives
    the same tile at every cell. *)
Theorem object_order_irrelevant (objects objects' : list PlacedObject) (map : Map) :
  populated map → Forall onGrid objects → NoDup objects →
  objects ≡ₚ objects' →
  (∀ obj1 obj2 x y,
      obj1 ∈ objects → obj2 ∈ objects →
      adjacent (obj_x obj1) (obj_y obj1) x y →
      adjacent (obj_x obj2) (obj_y obj2) x y → obj1 = obj2) →
  ∃ map1 map2,
    updateMap objects map = Ok map1 ∧ updateMap objects' map = Ok map2 ∧
    ∀ x y tile, getTile map x y = Ok tile → getTile map1 x y = getTile map2 x y.
Proof.
  intros Hpop Hobjs Hnodup Hperm Hapart.
  assert (Hobjs' : Forall onGrid objects') by (by rewrite <- Hperm).
  assert (Hnodup' : NoDup objects') by (by rewrite <- Hperm).
  destruct (updateMap_spec objects map Hpop Hobjs) as (map1 & Hup1 & _ & Hget1).
  destruct (updateMap_spec objects' map Hpop Hobjs') as (map2 & Hup2 & _ & Hget2).
  exists map1, map2. split; [done|]. split; [done|].
  intros x y tile Htile. rewrite (Hget1 _ _ _ Htile), (Hget2 _ _ _ Htile). f_equal.
  assert (Hdec : ∀ obj, Decision (adjacent (obj_x obj) (obj_y obj) x y))
    by (intros obj; unfold adjacent; apply _).
  destruct (Exists_dec (fun obj => adjacent (obj_x obj) (obj_y obj) x y) objects)
    as [Hnear|Hfar].
  - apply Exists_exists in Hnear as (obj & Hobj & Hadj).
    rewrite (foldl_changeTile_only map objects obj), (foldl_changeTile_only map objects' obj);
      [done|done|by rewrite <- Hperm| |done|done|].
    + intros obj' Hobj' Hadj'. rewrite <- Hperm in Hobj'. by apply (Hapart _ _ x y).
    + intros obj' Hobj' Hadj'. by apply (Hapart _ _ x y).
  - rewrite !foldl_changeTile_far; [done| |].
    + intros obj Hobj Hadj. apply Hfar, Exists_exists. exists obj.
      rewrite <- Hperm in Hobj. done.
    + intros obj Hobj Hadj. apply Hfar, Exists_exists. by exists obj.
Qed.

Lemma object_order_irrelevant_witness :
  ∃ map1 map2,
    updateMap [mkObject 2 2 obelisk raise_terrain; mkObject 12 12 excavator lower_terrain]
              lowMap = Ok map1 ∧
    updateMap [mkObject 12 12 excavator lower_terrain; mkObject 2 2 obelisk raise_terrain]
              lowMap = Ok map2 ∧
    ∀ x y tile, getTile lowMap x y = Ok tile → getTile map1 x y = getTile map2 x y.
Proof.
  apply object_order_irrelevant.
  - apply populatedb_populated. vm_compute. reflexivity.
  - repeat constructor; unfold inGrid, gridSize; simpl; lia.
  - apply NoDup_cons. split.
    + intros Hin. apply list_elem_of_singleton in Hin. discriminate Hin.
    + apply NoDup_singleton.
  - apply perm_swap.
  - intros obj1 obj2 x y Hobj1 Hobj2. unfold adjacent.
    apply elem_of_cons in Hobj1 as [->|Hobj1];
      [|apply list_elem_of_singleton in Hobj1 as ->];
      (apply elem_of_cons in Hobj2 as [->|Hobj2];
       [|apply list_elem_of_singleton in Hobj2 as ->]);
      simpl; intros; first [reflexivity | lia].
Defined.
